(** * MIPT32 / MIPT64 toy processors: assembler label pass and execution engine

    A shallow embedding of [mipt32/mipt32.cpp] (Profile A: word-addressed
    memory of 2^20 words, 16 registers and a flag register) and of
    [mipt64/mipt64.cpp] (Profile B: byte-addressed memory of 2^21 bytes,
    32 registers and a flag register), followed by the properties of the
    label pass, of the fetch/dispatch loop and of the individual operations.

    C++ unsigned integers are integers of [Z] reduced modulo their width;
    C++ undefined behaviour (an index outside a global array, a division by
    zero, reading a local that was never assigned) is an explicit fault. *)

From Stdlib Require Import ZArith String Ascii List Lia Bool.
From stdpp Require Import base tactics option list gmap strings.

Local Open Scope Z_scope.

(** ** Machine integers, faults and strings shared by both sources *)

Module Common.

(** [unsigned long long] (and [unsigned long] / [size_t] on an LP64 target):
    arithmetic modulo 2^64. *)
Definition w64 (z : Z) : Z := z mod 2 ^ 64.

(** The low 32 bits, [(x << 32) >> 32] on a 64-bit unsigned value. *)
Definition lo32 (z : Z) : Z := Z.shiftr (w64 (Z.shiftl z 32)) 32.

(** Conversion of an unsigned value to [int] and to [long long]. *)
Definition to_int (z : Z) : Z :=
  let r := z mod 2 ^ 32 in if r <? 2 ^ 31 then r else r - 2 ^ 32.

Definition to_llong (z : Z) : Z :=
  let r := z mod 2 ^ 64 in if r <? 2 ^ 63 then r else r - 2 ^ 64.

Definition INT_MAX : Z := 2147483647.

(** Conversion to [char] (signed, 8 bits) and back to an unsigned word. *)
Definition to_char (z : Z) : Z :=
  let r := z mod 2 ^ 8 in if r <? 2 ^ 7 then r else r - 2 ^ 8.

(** What can go wrong in the C++ program. *)
Inductive fault : Type :=
  | UndefinedBehaviour   (* out-of-bounds array access, division by zero, ... *)
  | OutOfRange           (* std::out_of_range thrown by map::at, never caught *)
  | NoFuel.              (* the model's recursion bound was too small *)

Inductive res (A : Type) : Type :=
  | Val (a : A)
  | Err (f : fault).
Arguments Val {A} a.
Arguments Err {A} f.

Definition rbind {A B} (m : res A) (k : A -> res B) : res B :=
  match m with Val a => k a | Err f => Err f end.

(** *** std::string *)

Definition npos : Z := 2 ^ 64 - 1.

Definition len (s : string) : Z := Z.of_nat (String.length s).

Fixpoint find_from (c : ascii) (s : string) (i : Z) : Z :=
  match s with
  | EmptyString => npos
  | String a s' => if Ascii.eqb a c then i else find_from c s' (i + 1)
  end.

(** [s.find(c)]: the first position of [c], or [npos]. *)
Definition find (c : ascii) (s : string) : Z := find_from c s 0.

(** [s.substr(pos, count)]; every call site has [pos <= s.length()]. *)
Definition substr (s : string) (pos count : Z) : string :=
  String.substring (Z.to_nat pos) (Z.to_nat count) s.

(** [s[s.length() - 1]] *)
Fixpoint last_char (s : string) : option ascii :=
  match s with
  | EmptyString => None
  | String a EmptyString => Some a
  | String _ s' => last_char s'
  end.

(** *** split

    The loop of [split]: [res] is the vector built so far.  Every iteration
    removes at least one character of [command], so [String.length command]
    iterations are enough. *)
Fixpoint split_loop (fuel : nat) (command : string) (res : list string)
  : option (list string) :=
  let sp := find " " command in
  let cm := find "," command in
  if sp =? cm then
    Some (if 0 <? len command then res ++ [command] else res)
  else
    match fuel with
    | O => None
    | S fuel' =>
        let coma := (w64 (cm + 1) <? sp) && negb (cm =? npos) in
        let pos := if coma then cm else sp in
        let res' :=
          if 0 <? len (substr command 0 pos) then
            if coma then res ++ [substr command 0 (pos + 1)]
            else res ++ [substr command 0 pos]
          else res in
        let command' :=
          if coma then substr command (pos + 1) (len command - pos)
          else substr command (pos + 1) (len command - pos - 1) in
        split_loop fuel' command' res'
    end.

Definition split (command : string) : option (list string) :=
  split_loop (String.length command) command [].

(** *** strtol(str, nullptr, 10)

    Leading white space, an optional sign, then the longest run of decimal
    digits (none: 0); the result saturates at the bounds of [long]. *)

Definition isspace (a : ascii) : bool :=
  let n := Z.of_nat (nat_of_ascii a) in (n =? 32) || ((9 <=? n) && (n <=? 13)).

Fixpoint skip_space (s : string) : string :=
  match s with
  | String a s' => if isspace a then skip_space s' else s
  | EmptyString => s
  end.

Definition digit_of (a : ascii) : option Z :=
  let n := Z.of_nat (nat_of_ascii a) in
  if (48 <=? n) && (n <=? 57) then Some (n - 48) else None.

Fixpoint digits (s : string) (acc : Z) : Z :=
  match s with
  | String a s' =>
      match digit_of a with
      | Some d => digits s' (10 * acc + d)
      | None => acc
      end
  | EmptyString => acc
  end.

Definition LONG_MAX : Z := 2 ^ 63 - 1.
Definition LONG_MIN : Z := - 2 ^ 63.

Definition strtol (str : string) : Z :=
  let v :=
    match skip_space str with
    | String "-" s' => - digits s' 0
    | String "+" s' => digits s' 0
    | s' => digits s' 0
    end in
  Z.max LONG_MIN (Z.min LONG_MAX v).

(** *** Console and floating-point collaborators

    The console handlers and the IEEE-754 unit are outside the verified core;
    the machine sees them through these interfaces.  A double is carried as
    its 64-bit pattern. *)

Inductive event : Type :=
  | PrintInt (z : Z)          (* printf of an integer, the value printed *)
  | PrintDouble (bits : Z)    (* printf("%lg"), the bit pattern printed *)
  | PrintChar (c : Z).        (* printf("%c") *)

Record FPU : Type := mkFPU {
  fadd : Z -> Z -> Z;
  fsub : Z -> Z -> Z;
  fmul : Z -> Z -> Z;
  fdiv : Z -> Z -> Z;
  feq : Z -> Z -> bool;
  flt : Z -> Z -> bool;
  fgt : Z -> Z -> bool;
  of_integer : Z -> Z;            (* (double) n, for an integer value n *)
  to_unsigned : Z -> option Z     (* (unsigned long) d, undefined out of range *)
}.

(** *** Outcome of a machine operation over a machine state [S] *)

Inductive outcome (S A : Type) : Type :=
  | Ret (a : A) (s : S)        (* the function returned *)
  | Exit (code : Z) (s : S)    (* exit(code) was called *)
  | Fail (f : fault).
Arguments Ret {S A} a s.
Arguments Exit {S A} code s.
Arguments Fail {S A} f.

Definition M (S A : Type) : Type := S -> outcome S A.

Definition ret {S A} (a : A) : M S A := fun s => Ret a s.

Definition bind {S A B} (m : M S A) (k : A -> M S B) : M S B :=
  fun s => match m s with
           | Ret a s' => k a s'
           | Exit c s' => Exit c s'
           | Fail f => Fail f
           end.

Definition fail {S A} (f : fault) : M S A := fun _ => Fail f.

Definition exit {S A} (code : Z) : M S A := fun s => Exit code s.

End Common.
Export Common.

Declare Scope machine_scope.
Delimit Scope machine_scope with machine.
Notation "'do' x <- m ;; k" := (bind m (fun x => k))
  (at level 10, x name, m at level 99, k at level 200) : machine_scope.
Notation "'run' m ;; k" := (bind m (fun _ => k))
  (at level 10, m at level 99, k at level 200) : machine_scope.
Local Open Scope machine_scope.

(** ** Profile A: mipt32.cpp *)

Module Mipt32.

Definition MEMSIZE : Z := 1048576.

(** [typedef unsigned long int word]: 64 bits on the LP64 targets, the only
    ones where the source's [greg(r) << 32] on a [word] is defined;
    [dword] is [unsigned long long], 64 bits as well. *)
Definition word (z : Z) : Z := w64 z.

Inductive format : Type := RI | RR | RM | J.

(** The table [TYPE]; [None] where the map has no entry. *)
Definition TYPE (type : Z) : option format :=
  match type with
  | 0 | 1 | 3 | 5 | 7 | 9 | 12 | 14 | 16 | 18 | 20 | 22 | 23
  | 38 | 39 | 42 | 44 => Some RI
  | 2 | 4 | 6 | 8 | 13 | 15 | 17 | 19 | 21 | 24
  | 32 | 33 | 34 | 35 | 36 | 37 | 40 | 43 | 45
  | 68 | 69 | 70 | 71 => Some RR
  | 41 | 46 | 47 | 48 | 49 | 50 | 51 | 52 => Some J
  | 64 | 65 | 66 | 67 => Some RM
  | _ => None
  end.

(** [mem], [regs] and the two console streams. *)
Record state : Type := mkState {
  mem : Z -> Z;
  regs : Z -> Z;
  stdin : list Z;
  stdout : list event
}.

Definition upd (f : Z -> Z) (k v : Z) : Z -> Z :=
  fun x => if x =? k then v else f x.

Definition f8 : Z := 0xff000000.
Definition s4 : Z := 0x00f00000.
Definition t4 : Z := 0x000f0000.
Definition l20 : Z := 0x000fffff.
Definition l16 : Z := 0x0000ffff.
Definition l24 : Z := 0x00ffffff.

Definition tf8 (x : Z) : Z := Z.shiftr (Z.land x f8) 24.
Definition ts4 (x : Z) : Z := Z.shiftr (Z.land x s4) 20.
Definition tt4 (x : Z) : Z := Z.shiftr (Z.land x t4) 16.
Definition tl20 (x : Z) : Z := Z.land x l20.
Definition tl16 (x : Z) : Z := Z.land x l16.
Definition tl24 (x : Z) : Z := Z.land x l24.

(** [mem[adr]] and [regs[adr]] index global arrays of [MEMSIZE] and 17
    elements without any check: outside them the access is undefined. *)
Definition gmem (adr : Z) : M state Z := fun s =>
  if (0 <=? adr) && (adr <? MEMSIZE) then Ret (mem s adr) s
  else Fail UndefinedBehaviour.

Definition smem (adr val : Z) : M state unit := fun s =>
  if (0 <=? adr) && (adr <? MEMSIZE) then
    Ret tt (mkState (upd (mem s) adr val) (regs s) (stdin s) (stdout s))
  else Fail UndefinedBehaviour.

Definition greg (adr : Z) : M state Z := fun s =>
  if (0 <=? adr) && (adr <? 17) then Ret (regs s adr) s
  else Fail UndefinedBehaviour.

Definition sreg (adr val : Z) : M state unit := fun s =>
  if (0 <=? adr) && (adr <? 17) then
    Ret tt (mkState (mem s) (upd (regs s) adr val) (stdin s) (stdout s))
  else Fail UndefinedBehaviour.

Definition push_stack (val : Z) : M state unit :=
  do sp <- greg 14 ;;
  run sreg 14 (word (sp - 1)) ;;
  do sp' <- greg 14 ;;
  smem sp' val.

Definition pop_stack (x : Z) : M state Z :=
  do sp <- greg 14 ;;
  do val <- gmem sp ;;
  do sp' <- greg 14 ;;
  run sreg 14 (word (sp' + x)) ;;
  ret val.

(** *** The operations

    [r + 1] on a register index and every sum of words is computed in the
    64-bit [word] type.  The source's parameter [mod] is spelled [md] here,
    [mod] being the remainder operator. *)

Definition halt (md : Z) : M state unit := exit (to_int md).

(** The next value supplied by the input stream; when [scanf] reads nothing
    the handler goes on with a local that was never assigned. *)
Definition scan : M state Z := fun s =>
  match stdin s with
  | z :: rest => Ret z (mkState (mem s) (regs s) rest (stdout s))
  | [] => Fail UndefinedBehaviour
  end.

Definition print (e : event) : M state unit := fun s =>
  Ret tt (mkState (mem s) (regs s) (stdin s) (stdout s ++ [e])).

Definition syscall (reg arg : Z) : M state unit :=
  match arg with
  | 0 => exit 0
  | 100 =>
      do scanning_int <- scan ;;
      sreg reg (word scanning_int)
  | 101 =>
      do dwi <- scan ;;
      run sreg reg (lo32 dwi) ;;
      sreg (word (reg + 1)) (Z.shiftr dwi 32)
  | 102 =>
      do v <- greg reg ;;
      print (PrintInt (to_int v))
  | 103 =>
      do lo <- greg reg ;;
      do hi <- greg (word (reg + 1)) ;;
      print (PrintDouble (w64 (lo + w64 (Z.shiftl hi 32))))
  | 104 =>
      do scanning_char <- scan ;;
      sreg reg (word scanning_char)
  | 105 =>
      do v <- greg reg ;;
      print (PrintChar (to_char v))
  | _ => ret tt
  end.

Definition add (r1 r2 md : Z) : M state unit :=
  do a <- greg r1 ;; do b <- greg r2 ;; sreg r1 (word (a + b + md)).

Definition addi (r1 md : Z) : M state unit :=
  do a <- greg r1 ;; sreg r1 (word (a + md)).

Definition sub (r1 r2 md : Z) : M state unit :=
  do a <- greg r1 ;; do b <- greg r2 ;; sreg r1 (word (a - b - md)).

Definition subi (r1 md : Z) : M state unit :=
  do a <- greg r1 ;; sreg r1 (word (a - md)).

(** Stores a double-width value [res] as low half, high half. *)
Definition sreg2 (r1 res : Z) : M state unit :=
  run sreg r1 (lo32 res) ;;
  sreg (word (r1 + 1)) (Z.shiftr res 32).

Definition mul (r1 r2 : Z) : M state unit :=
  do a <- greg r1 ;; do b <- greg r2 ;; sreg2 r1 (w64 (a * b)).

Definition muli (r1 md : Z) : M state unit :=
  do a <- greg r1 ;; sreg2 r1 (w64 (a * md)).

(** [(greg(r + 1) << 32) + greg(r)] *)
Definition greg2 (r : Z) : M state Z :=
  do hi <- greg (word (r + 1)) ;;
  do lo <- greg r ;;
  ret (w64 (w64 (Z.shiftl hi 32) + lo)).

Definition div (r1 r2 : Z) : M state unit :=
  do fir <- greg2 r1 ;;
  do d <- greg r2 ;;
  if d =? 0 then fail UndefinedBehaviour
  else
    let di := fir / d in
    let re := fir mod d in
    run sreg r1 di ;;
    sreg (word (r1 + 1)) re.

Definition divi (r1 md : Z) : M state unit :=
  do big <- greg2 r1 ;;
  if md =? 0 then fail UndefinedBehaviour
  else
    let di := big / md in
    let re := big mod md in
    run sreg r1 di ;;
    sreg (word (r1 + 1)) re.

Definition lc (r1 md : Z) : M state unit := sreg r1 md.

(** A shift by the width of the type or more is undefined. *)
Definition shift_left (a n : Z) : M state Z :=
  if n <? 64 then ret (w64 (Z.shiftl a n)) else fail UndefinedBehaviour.

Definition shift_right (a n : Z) : M state Z :=
  if n <? 64 then ret (Z.shiftr a n) else fail UndefinedBehaviour.

Definition shl (r1 r2 : Z) : M state unit :=
  do a <- greg r1 ;; do n <- greg r2 ;; do v <- shift_left a n ;; sreg r1 v.

Definition shli (r1 md : Z) : M state unit :=
  do a <- greg r1 ;; do v <- shift_left a md ;; sreg r1 v.

Definition shr (r1 r2 : Z) : M state unit :=
  do a <- greg r1 ;; do n <- greg r2 ;; do v <- shift_right a n ;; sreg r1 v.

Definition shri (r1 md : Z) : M state unit :=
  do a <- greg r1 ;; do v <- shift_right a md ;; sreg r1 v.

Definition and1 (r1 r2 : Z) : M state unit :=
  do a <- greg r1 ;; do b <- greg r2 ;; sreg r1 (Z.land a b).

Definition andi (r1 md : Z) : M state unit :=
  do a <- greg r1 ;; sreg r1 (Z.land a md).

Definition or1 (r1 r2 : Z) : M state unit :=
  do a <- greg r1 ;; do b <- greg r2 ;; sreg r1 (Z.lor a b).

Definition ori (r1 md : Z) : M state unit :=
  do a <- greg r1 ;; sreg r1 (Z.lor a md).

Definition xor1 (r1 r2 : Z) : M state unit :=
  do a <- greg r1 ;; do b <- greg r2 ;; sreg r1 (Z.lxor a b).

Definition xori (r1 md : Z) : M state unit :=
  do a <- greg r1 ;; sreg r1 (Z.lxor a md).

Definition not1 (r1 : Z) : M state unit :=
  do a <- greg r1 ;; sreg r1 (w64 (Z.lnot a)).

Definition mov (r1 r2 md : Z) : M state unit :=
  do b <- greg r2 ;; sreg r1 (word (b + md)).

Section Floating.
Context (fpu : FPU).

Definition darith (op : Z -> Z -> Z) (r1 r2 : Z) : M state unit :=
  do mul1 <- greg2 r1 ;;
  do mul2 <- greg2 r2 ;;
  sreg2 r1 (op mul1 mul2).

Definition addd := darith (fadd fpu).
Definition subd := darith (fsub fpu).
Definition muld := darith (fmul fpu).
Definition divd := darith (fdiv fpu).

Definition itod (r1 r2 : Z) : M state unit :=
  do b <- greg r2 ;;
  sreg2 r1 (of_integer fpu b).

Definition dtoi (r1 r2 : Z) : M state unit :=
  do sour <- greg2 r2 ;;
  match to_unsigned fpu sour with
  | Some re => sreg r1 re
  | None => fail UndefinedBehaviour
  end.

Definition cmpd (r1 r2 : Z) : M state unit :=
  do first <- greg2 r1 ;;
  do second <- greg2 r2 ;;
  if feq fpu first second then sreg 16 0
  else if flt fpu first second then sreg 16 1
  else sreg 16 2.

End Floating.

Definition push (r1 md : Z) : M state unit :=
  do a <- greg r1 ;; push_stack (word (a + md)).

Definition pop (r1 md : Z) : M state unit :=
  do v <- pop_stack 1 ;; sreg r1 (word (v + md)).

Definition call (r1 r2 md : Z) : M state unit :=
  do pc <- greg 15 ;;
  run push_stack (word (pc + 1)) ;;
  do b <- greg r2 ;;
  run sreg 15 (word (b + md - 1)) ;;
  do sp <- greg 14 ;;
  sreg r1 sp.

Definition calli (tail : Z) : M state unit :=
  do pc <- greg 15 ;;
  run push_stack (word (pc + 1)) ;;
  sreg 15 (word (tail - 1)).

Definition ret_ (md : Z) : M state unit :=
  do v <- pop_stack (word (md + 1)) ;;
  sreg 15 (word (v - 1)).

Definition cmp (r1 r2 : Z) : M state unit :=
  do a <- greg r1 ;;
  do b <- greg r2 ;;
  if a =? b then sreg 16 0
  else if a <? b then sreg 16 1
  else sreg 16 2.

Definition cmpi (r1 md : Z) : M state unit :=
  do a <- greg r1 ;;
  if a =? md then sreg 16 0
  else if a <? md then sreg 16 1
  else sreg 16 2.

Definition jmp (tail : Z) : M state unit := sreg 15 (word (tail - 1)).

Definition jne (tail : Z) : M state unit :=
  do f <- greg 16 ;; if 0 <? f then sreg 15 (word (tail - 1)) else ret tt.

Definition jeq (tail : Z) : M state unit :=
  do f <- greg 16 ;; if f =? 0 then sreg 15 (word (tail - 1)) else ret tt.

Definition jle (tail : Z) : M state unit :=
  do f <- greg 16 ;; if f <? 2 then sreg 15 (word (tail - 1)) else ret tt.

Definition jl (tail : Z) : M state unit :=
  do f <- greg 16 ;; if f =? 1 then sreg 15 (word (tail - 1)) else ret tt.

Definition jge (tail : Z) : M state unit :=
  do f <- greg 16 ;; if negb (f =? 1) then sreg 15 (word (tail - 1)) else ret tt.

Definition jg (tail : Z) : M state unit :=
  do f <- greg 16 ;; if f =? 2 then sreg 15 (word (tail - 1)) else ret tt.

Definition load (r1 md : Z) : M state unit :=
  do v <- gmem md ;; sreg r1 v.

Definition store (r1 md : Z) : M state unit :=
  do a <- greg r1 ;; smem md a.

Definition load2 (r1 md : Z) : M state unit :=
  do v <- gmem md ;;
  run sreg r1 v ;;
  do v' <- gmem (word (md + 1)) ;;
  sreg (word (r1 + 1)) v'.

Definition store2 (r1 md : Z) : M state unit :=
  do a <- greg r1 ;;
  run smem md a ;;
  do a' <- greg (word (r1 + 1)) ;;
  smem (word (md + 1)) a'.

Definition loadr (r1 r2 md : Z) : M state unit :=
  do b <- greg r2 ;; do v <- gmem (word (b + md)) ;; sreg r1 v.

Definition loadr2 (r1 r2 md : Z) : M state unit :=
  do b <- greg r2 ;;
  do v <- gmem (word (b + md)) ;;
  run sreg r1 v ;;
  do b' <- greg r2 ;;
  do v' <- gmem (word (b' + md + 1)) ;;
  sreg (word (r1 + 1)) v'.

Definition storer (r1 r2 md : Z) : M state unit :=
  do b <- greg r2 ;; do a <- greg r1 ;; smem (word (md + b)) a.

Definition storer2 (r1 r2 md : Z) : M state unit :=
  do b <- greg r2 ;;
  do a <- greg r1 ;;
  run smem (word (md + b)) a ;;
  do b' <- greg r2 ;;
  do a' <- greg (word (r1 + 1)) ;;
  smem (word (md + 1 + b')) a'.

(** *** switch_c and emulate

    [switch_c] declares [word r1, r2, md;] without initialiser and assigns
    them by format: all three for RR, only [mod] for RI, [r1] and [mod] for
    RM, none for J.  [junk] is what the three locals hold before any
    assignment; an operation of format RI that names a register therefore
    receives [junk]'s first component. *)
Definition decode (junk : Z * Z * Z) (fmt : format) (tail : Z) : Z * Z * Z :=
  let '(r1, r2, md) := junk in
  match fmt with
  | RR => (ts4 tail, tt4 tail, tl16 tail)
  | RI => (r1, r2, tl20 tail)
  | RM => (ts4 tail, r2, tl20 tail)
  | J => (r1, r2, md)
  end.

Section Engine.
Context (fpu : FPU).

Definition switch_c (junk : Z * Z * Z) (type tail : Z) : M state unit :=
  match TYPE type with
  | None => fail OutOfRange                        (* TYPE.at(type) throws *)
  | Some fmt =>
      let '(r1, r2, md) := decode junk fmt tail in
      match type with
      | 0 => halt md
      | 1 => syscall r1 md
      | 2 => add r1 r2 md
      | 3 => addi r1 md
      | 4 => sub r1 r2 md
      | 5 => subi r1 md
      | 6 => mul r1 r2
      | 7 => muli r1 md
      | 8 => div r1 r2
      | 9 => divi r1 md
      | 12 => lc r1 md
      | 13 => shl r1 r2
      | 14 => shli r1 md
      | 15 => shr r1 r2
      | 16 => shri r1 md
      | 17 => and1 r1 r2
      | 18 => andi r1 md
      | 19 => or1 r1 r2
      | 20 => ori r1 md
      | 21 => xor1 r1 r2
      | 22 => xori r1 md
      | 23 => not1 r1
      | 24 => mov r1 r2 md
      | 32 => addd fpu r1 r2
      | 33 => subd fpu r1 r2
      | 34 => muld fpu r1 r2
      | 35 => divd fpu r1 r2
      | 36 => itod fpu r1 r2
      | 37 => dtoi fpu r1 r2
      | 38 => push r1 md
      | 39 => pop r1 md
      | 40 => call r1 r2 md
      | 41 => calli tail
      | 42 => ret_ md
      | 43 => cmp r1 r2
      | 44 => cmpi r1 md
      | 45 => cmpd fpu r1 r2
      | 46 => jmp tail
      | 47 => jne tail
      | 48 => jeq tail
      | 49 => jle tail
      | 50 => jl tail
      | 51 => jge tail
      | 52 => jg tail
      | 64 => load r1 md
      | 65 => store r1 md
      | 66 => load2 r1 md
      | 67 => store2 r1 md
      | 68 => loadr r1 r2 md
      | 69 => loadr2 r1 r2 md
      | 70 => storer r1 r2 md
      | 71 => storer2 r1 r2 md
      | _ => ret tt
      end
  end.

(** One iteration of the [while (true)] of [emulate]. *)
Definition emulate_step (junk : Z * Z * Z) : M state unit :=
  do pc <- greg 15 ;;
  do row_com <- gmem pc ;;
  let type_code := tf8 row_com in
  let tail := tl24 row_com in
  run switch_c junk type_code tail ;;
  do pc' <- greg 15 ;;
  sreg 15 (word (pc' + 1)).

(** [emulate] never returns: it ends in [exit] or in a fault.  [junk n] is
    what the locals of the [n]-th call of [switch_c] hold on entry. *)
Fixpoint emulate (fuel : nat) (junk : nat -> Z * Z * Z) (s : state)
  : outcome state unit :=
  match fuel with
  | O => Fail NoFuel
  | S fuel' =>
      match emulate_step (junk O) s with
      | Ret _ s' => emulate fuel' (fun n => junk (S n)) s'
      | other => other
      end
  end.

End Engine.

(** *** parse_labels

    [i] is the loop counter (an [int]), [input] and [label] the two globals.
    The vector never grows and [i] advances on every iteration, so
    [length input] iterations are enough. *)
Fixpoint parse_labels_loop (fuel : nat) (i : Z) (input : list string)
  (label : gmap string Z) : res (list string * gmap string Z) :=
  if i <? Z.of_nat (length input) then
    match fuel with
    | O => Err NoFuel
    | S fuel' =>
        match input !! Z.to_nat i, INT_MAX <? i + 1 with
        | Some line, false =>
            match split line with
            | None => Err NoFuel
            | Some [] => Err UndefinedBehaviour      (* split(input[i])[0] *)
            | Some (first_part :: rest) =>
                if bool_decide (last_char first_part = Some ":"%char) then
                  let label' :=
                    <[substr first_part 0 (len first_part - 1) := word i]> label in
                  if bool_decide (rest = []) then
                    parse_labels_loop fuel' (i + 1) (delete (Z.to_nat i) input) label'
                  else
                    parse_labels_loop fuel' (i + 1)
                      (<[Z.to_nat i :=
                           substr line (len first_part) (len line - len first_part)]>
                         input)
                      label'
                else parse_labels_loop fuel' (i + 1) input label
            end
        | _, _ => Err UndefinedBehaviour             (* i++ leaves the int range *)
        end
    end
  else Val (input, label).

Definition parse_labels (input : list string) (label : gmap string Z)
  : res (list string * gmap string Z) :=
  parse_labels_loop (length input) 0 input label.

End Mipt32.

(** ** Profile B: mipt64.cpp *)

Module Mipt64.

Definition MEMSIZE : Z := 2097152.

(** [typedef unsigned long long int dword] *)
Definition dword (z : Z) : Z := w64 z.

Inductive format : Type := RR | RM | B.

(** The table [TYPE], read with [operator[]]: an opcode without entry
    yields the empty string, which matches no format. *)
Definition TYPE (type : Z) : option format :=
  match type with
  | 19 => Some B
  | 28 | 29 => Some RM
  | _ => if (0 <=? type) && (type <=? 27) then Some RR else None
  end.

(** [char mem[MEMSIZE]] (a byte per cell, kept in [0, 256)), [regs[33]] and
    the two console streams. *)
Record state : Type := mkState {
  mem : Z -> Z;
  regs : Z -> Z;
  stdin : list Z;
  stdout : list event
}.

Definition upd (f : Z -> Z) (k v : Z) : Z -> Z :=
  fun x => if x =? k then v else f x.

Definition m0_5 : Z := 0xfc000000.
Definition m6_10 : Z := 0x03e00000.
Definition m11_15 : Z := 0x001f0000.
Definition m16_31 : Z := 0x0000ffff.
Definition m16_20 : Z := 0x0000f800.
Definition m21_23 : Z := 0x00000700.
Definition m16_18 : Z := 0x0000e000.
Definition m24_31 : Z := 0x000000ff.
Definition m21_31 : Z := 0x000007ff.
Definition m11_31 : Z := 0x001fffff.
Definition m19_31 : Z := 0x0003ffff.

Definition t0_5 (x : Z) : Z := Z.shiftr (Z.land x m0_5) 26.
Definition t6_10 (x : Z) : Z := Z.shiftr (Z.land x m6_10) 21.
Definition t11_15 (x : Z) : Z := Z.shiftr (Z.land x m11_15) 16.
Definition t16_31 (x : Z) : Z := Z.land x m16_31.
Definition t16_20 (x : Z) : Z := Z.shiftr (Z.land x m16_20) 11.
Definition t21_23 (x : Z) : Z := Z.shiftr (Z.land x m21_23) 8.
Definition t24_31 (x : Z) : Z := Z.land x m24_31.
Definition t21_31 (x : Z) : Z := Z.land x m21_31.
Definition t11_31 (x : Z) : Z := Z.land x m11_31.
Definition t19_31 (x : Z) : Z := Z.land x m19_31.
Definition t16_18 (x : Z) : Z := Z.shiftr (Z.land x m16_18) 13.

(** [memcpy] of [n] bytes between a little-endian integer and [mem]. *)
Fixpoint load_le (n : nat) (m : Z -> Z) (adr : Z) : Z :=
  match n with
  | O => 0
  | S n' => m adr + 256 * load_le n' m (adr + 1)
  end.

Fixpoint store_le (n : nat) (m : Z -> Z) (adr val : Z) : Z -> Z :=
  match n with
  | O => m
  | S n' => store_le n' (upd m adr (val mod 256)) (adr + 1) (val / 256)
  end.

(** [memcpy(&res, mem + adr, 8)]: no check, the eight bytes must lie inside
    the array. *)
Definition gmem (adr : Z) : M state Z := fun s =>
  if (0 <=? adr) && (adr + 8 <=? MEMSIZE) then Ret (load_le 8 (mem s) adr) s
  else Fail UndefinedBehaviour.

(** [memcpy(mem + adr, &val, 8); mem[adr] = val;] *)
Definition smem (adr val : Z) : M state unit := fun s =>
  if (0 <=? adr) && (adr + 8 <=? MEMSIZE) then
    Ret tt (mkState (upd (store_le 8 (mem s) adr val) adr (val mod 256))
                    (regs s) (stdin s) (stdout s))
  else Fail UndefinedBehaviour.

Definition greg (adr : Z) : M state Z := fun s =>
  if (0 <=? adr) && (adr <? 33) then Ret (regs s adr) s
  else Fail UndefinedBehaviour.

Definition sreg (adr val : Z) : M state unit := fun s =>
  if (0 <=? adr) && (adr <? 33) then
    Ret tt (mkState (mem s) (upd (regs s) adr val) (stdin s) (stdout s))
  else Fail UndefinedBehaviour.

(** [push_stack(val, x = 8)] and [pop_stack(x = 8)] *)
Definition push_stack (val x : Z) : M state unit :=
  do sp <- greg 29 ;;
  run sreg 29 (dword (sp - x)) ;;
  do sp' <- greg 29 ;;
  smem sp' val.

Definition pop_stack (x : Z) : M state Z :=
  do sp <- greg 29 ;;
  do val <- gmem sp ;;
  do sp' <- greg 29 ;;
  run sreg 29 (dword (sp' + x)) ;;
  ret val.

(** *** The operations *)

Definition halt (rd rs imm : Z) : M state unit := exit (to_int imm).

Definition scan : M state Z := fun s =>
  match stdin s with
  | z :: rest => Ret z (mkState (mem s) (regs s) rest (stdout s))
  | [] => Fail UndefinedBehaviour
  end.

Definition print (e : event) : M state unit := fun s =>
  Ret tt (mkState (mem s) (regs s) (stdin s) (stdout s ++ [e])).

Definition svc (rd rs imm : Z) : M state unit :=
  match imm with
  | 0 => exit 0
  | 100 =>
      do scanning_int <- scan ;;
      sreg rd (dword scanning_int)
  | 101 =>
      do dwi <- scan ;;
      run sreg rd (lo32 dwi) ;;
      sreg (dword (rd + 1)) (Z.shiftr dwi 32)
  | 102 =>
      do sending_int <- greg rd ;;
      if (rd =? 31) || (rd =? 30)
      then print (PrintInt (to_llong (dword (sending_int / 2 + 4))))
      else print (PrintInt (to_llong sending_int))
  | 103 =>
      do dwo <- greg rd ;;
      print (PrintDouble dwo)
  | 104 =>
      do scanning_char <- scan ;;
      sreg rd (dword scanning_char)
  | 105 =>
      do v <- greg rd ;;
      print (PrintChar (to_char v))
  | _ => ret tt
  end.

Definition add (rd rs imm : Z) : M state unit :=
  if (rd =? 31) && (rs =? 31) then sreg rd imm
  else do a <- greg rs ;; sreg rd (dword (a + imm)).

Definition sub (rd rs imm : Z) : M state unit :=
  do a <- greg rs ;; sreg rd (dword (a - imm)).

Definition mul (rd rs imm : Z) : M state unit :=
  do a <- greg rs ;; sreg rd (dword (a * imm)).

Definition div (rd rs imm : Z) : M state unit :=
  do a <- greg rs ;;
  if imm =? 0 then fail UndefinedBehaviour else sreg rd (a / imm).

Definition mod_ (rd rs imm : Z) : M state unit :=
  do a <- greg rs ;;
  if imm =? 0 then fail UndefinedBehaviour else sreg rd (a mod imm).

Definition And (rd rs imm : Z) : M state unit :=
  do a <- greg rs ;; sreg rd (Z.land a imm).

Definition Or (rd rs imm : Z) : M state unit :=
  do a <- greg rs ;; sreg rd (Z.lor a imm).

Definition Xor (rd rs imm : Z) : M state unit :=
  do a <- greg rs ;; sreg rd (Z.lxor a imm).

Definition nand (rd rs imm : Z) : M state unit :=
  do a <- greg rs ;;
  do a' <- greg rs ;;
  sreg rd (Z.land (Z.lxor a imm) a').

Definition shl (rd rs imm : Z) : M state unit :=
  do a <- greg rs ;; sreg rd (dword (Z.shiftl a (Z.land imm 63))).

Definition shr (rd rs imm : Z) : M state unit :=
  do a <- greg rs ;; sreg rd (Z.shiftr a (Z.land imm 63)).

Section Floating.
Context (fpu : FPU).

Definition darith (op : Z -> Z -> Z) (rd rs imm : Z) : M state unit :=
  do a <- greg rs ;; sreg rd (op a imm).

Definition addd := darith (fadd fpu).
Definition subd := darith (fsub fpu).
Definition muld := darith (fmul fpu).
Definition divd := darith (fdiv fpu).

Definition itod (rd rs imm : Z) : M state unit :=
  do a <- greg rs ;;
  sreg rd (fadd fpu (of_integer fpu a) (of_integer fpu imm)).

Definition dtoi (rd rs imm : Z) : M state unit :=
  do a <- greg rs ;; sreg rd (fadd fpu a imm).

Definition cmpd (rd rs imm : Z) : M state unit :=
  do wrd <- greg rd ;;
  do wrs <- greg rs ;;
  let sum := fadd fpu wrs imm in
  run (if feq fpu wrd sum then sreg 32 0 else ret tt) ;;
  run (if flt fpu wrd sum then sreg 32 1 else ret tt) ;;
  if fgt fpu wrd sum then sreg 32 2 else ret tt.

End Floating.

Definition bl (ra imm : Z) : M state unit :=
  do pc <- greg 31 ;;
  run sreg 30 pc ;;
  if ra =? 27 then sreg 31 imm
  else
    if (Z.shiftr imm 20) mod 2 =? 1 then
      let imm1 := dword (Z.shiftl imm 1) in
      let imm2 := imm1 / 2 in
      do pc' <- greg 31 ;; sreg 31 (dword (pc' - imm2))
    else
      do pc' <- greg 31 ;; sreg 31 (dword (pc' - imm)).

(** Three independent [if]s, each reading the registers again. *)
Definition cmp (rd rs imm : Z) : M state unit :=
  do a <- greg rd ;; do b <- greg rs ;;
  run (if a =? dword (b + imm) then sreg 32 0 else ret tt) ;;
  do a <- greg rd ;; do b <- greg rs ;;
  run (if a <? dword (b + imm) then sreg 32 1 else ret tt) ;;
  do a <- greg rd ;; do b <- greg rs ;;
  if dword (b + imm) <? a then sreg 32 2 else ret tt.

Definition cne (rd rs imm : Z) : M state unit :=
  do f <- greg 32 ;; if 0 <? f then add rd rs imm else ret tt.

Definition ceq (rd rs imm : Z) : M state unit :=
  do f <- greg 32 ;; if f =? 0 then add rd rs imm else ret tt.

Definition cle (rd rs imm : Z) : M state unit :=
  do f <- greg 32 ;; if f <? 2 then add rd rs imm else ret tt.

Definition clt (rd rs imm : Z) : M state unit :=
  do f <- greg 32 ;; if f =? 1 then add rd rs imm else ret tt.

Definition cge (rd rs imm : Z) : M state unit :=
  do f <- greg 32 ;; if negb (f =? 1) then add rd rs imm else ret tt.

Definition cgt (rd rs imm : Z) : M state unit :=
  do f <- greg 32 ;; if f =? 2 then add rd rs imm else ret tt.

Definition ld (rd ra imm : Z) : M state unit :=
  if ra =? 29 then
    do v <- pop_stack imm ;; sreg rd v
  else
    do a <- greg ra ;; do v <- gmem (dword (a + imm)) ;; sreg rd v.

Definition st (rd ra imm : Z) : M state unit :=
  if ra =? 29 then
    do v <- greg rd ;; push_stack v imm
  else
    do a <- greg ra ;; do v <- greg rd ;; smem (dword (a + imm)) v.

(** *** switch_c and emulate *)

Section Engine.
Context (fpu : FPU).

(** [(greg(ri) << sh) + lit], the register+literal composite. *)
Definition composite (ri sh lit : Z) : M state Z :=
  do v <- greg ri ;; ret (dword (dword (Z.shiftl v sh) + lit)).

(** The operand fields [(rd, rs, imm, ra)]; all four start at 0. *)
Definition decode (type row : Z) : M state (Z * Z * Z * Z) :=
  match TYPE type with
  | Some RR =>
      let rd := t6_10 row in
      let rs := t11_15 row in
      if rs =? 27 then ret (rd, rs, t16_31 row, 0)
      else if rs =? 31 then ret (rd, rs, t16_31 row, 0)
      else if (type =? 13) || (type =? 14) || (type =? 15) || (type =? 16) then
        do fw <- greg (t16_20 row) ;;
        let sw := t21_23 row in
        let tw := t24_31 row in
        let r := fadd fpu (fmul fpu fw (of_integer fpu (Z.shiftl 1 sw)))
                          (of_integer fpu tw) in
        ret (rd, rs, r, 0)
      else
        do imm <- composite (t16_20 row) (t21_23 row) (t24_31 row) ;;
        ret (rd, rs, imm, 0)
  | Some RM =>
      let rd := t6_10 row in
      let ra := t11_15 row in
      if (ra =? 27) || (ra =? 29) || (ra =? 31) then ret (rd, 0, t16_31 row, ra)
      else
        let ri := t16_20 row in
        if ri =? 27 then ret (rd, 0, t21_31 row, ra)
        else
          do a <- greg ra ;;
          do c <- composite (t16_20 row) (t21_23 row) (t24_31 row) ;;
          ret (rd, 0, dword (a + c), ra)
  | Some B =>
      let ra := t6_10 row in
      if (ra =? 27) || (ra =? 31) || (ra =? 0) then ret (0, 0, t21_31 row, ra)
      else
        do a <- greg ra ;;
        do c <- composite (t11_15 row) (t16_18 row) (t19_31 row) ;;
        ret (0, 0, dword (a + c), ra)
  | None => ret (0, 0, 0, 0)
  end.

Definition switch_c (row : Z) : M state unit :=
  let type := t0_5 row in
  do ops <- decode type row ;;
  let '(rd, rs, imm, ra) := ops in
  match type with
  | 0 => halt rd rs imm
  | 1 => svc rd rs imm
  | 2 => add rd rs imm
  | 3 => sub rd rs imm
  | 4 => mul rd rs imm
  | 5 => div rd rs imm
  | 6 => mod_ rd rs imm
  | 7 => And rd rs imm
  | 8 => Or rd rs imm
  | 9 => Xor rd rs imm
  | 10 => nand rd rs imm
  | 11 => shl rd rs imm
  | 12 => shr rd rs imm
  | 13 => addd fpu rd rs imm
  | 14 => subd fpu rd rs imm
  | 15 => muld fpu rd rs imm
  | 16 => divd fpu rd rs imm
  | 17 => itod fpu rd rs imm
  | 18 => dtoi fpu rd rs imm
  | 19 => bl ra imm
  | 20 => cmp rd rs imm
  | 21 => cmpd fpu rd rs imm
  | 22 => cne rd rs imm
  | 23 => ceq rd rs imm
  | 24 => cle rd rs imm
  | 25 => clt rd rs imm
  | 26 => cge rd rs imm
  | 27 => cgt rd rs imm
  | 28 => ld rd ra imm
  | 29 => st rd ra imm
  | _ => ret tt
  end.

(** One iteration of the [while (true)] of [emulate]. *)
Definition emulate_step : M state unit :=
  do pc <- greg 31 ;;
  do row_com <- gmem pc ;;
  run switch_c row_com ;;
  do pc' <- greg 31 ;;
  sreg 31 (dword (pc' + 8)).

Fixpoint emulate (fuel : nat) (s : state) : outcome state unit :=
  match fuel with
  | O => Fail NoFuel
  | S fuel' =>
      match emulate_step s with
      | Ret _ s' => emulate fuel' s'
      | other => other
      end
  end.

End Engine.

(** *** parse_labels

    As in Profile A, but a label is bound to [8 * (i - 1)], computed in
    [int] and converted to [dword]. *)
Fixpoint parse_labels_loop (fuel : nat) (i : Z) (input : list string)
  (label : gmap string Z) : res (list string * gmap string Z) :=
  if i <? Z.of_nat (length input) then
    match fuel with
    | O => Err NoFuel
    | S fuel' =>
        match input !! Z.to_nat i, INT_MAX <? i + 1 with
        | Some line, false =>
            match split line with
            | None => Err NoFuel
            | Some [] => Err UndefinedBehaviour      (* split(input[i])[0] *)
            | Some (first_part :: rest) =>
                if bool_decide (last_char first_part = Some ":"%char) then
                  if INT_MAX <? 8 * (i - 1) then Err UndefinedBehaviour else
                  let label' :=
                    <[substr first_part 0 (len first_part - 1) := dword (8 * (i - 1))]>
                      label in
                  if bool_decide (rest = []) then
                    parse_labels_loop fuel' (i + 1) (delete (Z.to_nat i) input) label'
                  else
                    parse_labels_loop fuel' (i + 1)
                      (<[Z.to_nat i :=
                           substr line (len first_part) (len line - len first_part)]>
                         input)
                      label'
                else parse_labels_loop fuel' (i + 1) input label
            end
        | _, _ => Err UndefinedBehaviour             (* i++ leaves the int range *)
        end
    end
  else Val (input, label).

Definition parse_labels (input : list string) (label : gmap string Z)
  : res (list string * gmap string Z) :=
  parse_labels_loop (length input) 0 input label.

End Mipt64.

(** ** The state at program start: zero-initialised globals *)

Definition start32 (input : list Z) : Mipt32.state :=
  Mipt32.mkState (fun _ => 0) (fun _ => 0) input [].

Definition start64 (input : list Z) : Mipt64.state :=
  Mipt64.mkState (fun _ => 0) (fun _ => 0) input [].

(** A run ends with an explicit, reported error when the program itself
    stops it: a non-zero [exit] or an exception.  Undefined behaviour is
    neither. *)
Definition explicit_error {S A} (o : outcome S A) : Prop :=
  o = Fail OutOfRange \/ exists c s, o = Exit c s /\ c <> 0.

(** The state after [regs[k] = v], after [mem[k] = v] and after a [printf]. *)
Definition set_reg32 (s : Mipt32.state) (k v : Z) : Mipt32.state :=
  Mipt32.mkState (Mipt32.mem s) (Mipt32.upd (Mipt32.regs s) k v)
                 (Mipt32.stdin s) (Mipt32.stdout s).

Definition set_mem32 (s : Mipt32.state) (k v : Z) : Mipt32.state :=
  Mipt32.mkState (Mipt32.upd (Mipt32.mem s) k v) (Mipt32.regs s)
                 (Mipt32.stdin s) (Mipt32.stdout s).

Definition printed32 (s : Mipt32.state) (e : event) : Mipt32.state :=
  Mipt32.mkState (Mipt32.mem s) (Mipt32.regs s) (Mipt32.stdin s)
                 (Mipt32.stdout s ++ [e]).

Definition set_reg64 (s : Mipt64.state) (k v : Z) : Mipt64.state :=
  Mipt64.mkState (Mipt64.mem s) (Mipt64.upd (Mipt64.regs s) k v)
                 (Mipt64.stdin s) (Mipt64.stdout s).

Definition printed64 (s : Mipt64.state) (e : event) : Mipt64.state :=
  Mipt64.mkState (Mipt64.mem s) (Mipt64.regs s) (Mipt64.stdin s)
                 (Mipt64.stdout s ++ [e]).

Definition set_mem64 (s : Mipt64.state) (adr val : Z) : Mipt64.state :=
  Mipt64.mkState (Mipt64.upd (Mipt64.store_le 8 (Mipt64.mem s) adr val) adr (val mod 256))
                 (Mipt64.regs s) (Mipt64.stdin s) (Mipt64.stdout s).

(** [N] pushes of the values [vals], in order, and [N] pops, with the
    default steps of [push_stack] and [pop_stack]. *)
Fixpoint pushes32 (vals : list Z) : M Mipt32.state unit :=
  match vals with
  | [] => ret tt
  | v :: vals' => run Mipt32.push_stack v ;; pushes32 vals'
  end.

Fixpoint pops32 (n : nat) : M Mipt32.state (list Z) :=
  match n with
  | O => ret []
  | S n' => do v <- Mipt32.pop_stack 1 ;; do vs <- pops32 n' ;; ret (v :: vs)
  end.

Fixpoint pushes64 (vals : list Z) : M Mipt64.state unit :=
  match vals with
  | [] => ret tt
  | v :: vals' => run Mipt64.push_stack v 8 ;; pushes64 vals'
  end.

Fixpoint pops64 (n : nat) : M Mipt64.state (list Z) :=
  match n with
  | O => ret []
  | S n' => do v <- Mipt64.pop_stack 8 ;; do vs <- pops64 n' ;; ret (v :: vs)
  end.

(** An absent floating-point unit, for runs that execute no floating
    operation. *)
Definition null_fpu : FPU :=
  mkFPU (fun _ _ => 0) (fun _ _ => 0) (fun _ _ => 0) (fun _ _ => 0)
        (fun _ _ => false) (fun _ _ => false) (fun _ _ => false)
        (fun _ => 0) (fun _ => None).

(** The tri-state outcome of a comparison and its code in the flag
    register. *)
Inductive flag : Type := Equal | Less | Greater.

Definition flag_code (f : flag) : Z :=
  match f with Equal => 0 | Less => 1 | Greater => 2 end.

Definition compare_flag (a b : Z) : flag :=
  match a ?= b with Eq => Equal | Lt => Less | Gt => Greater end.

(** The six conditional branches of Profile A and the flag values on which
    each is documented to branch. *)
Inductive cond_jump : Type := JNE | JEQ | JLE | JL | JGE | JG.

Definition jump_op (j : cond_jump) : Z -> M Mipt32.state unit :=
  match j with
  | JNE => Mipt32.jne | JEQ => Mipt32.jeq | JLE => Mipt32.jle
  | JL => Mipt32.jl | JGE => Mipt32.jge | JG => Mipt32.jg
  end.

Definition branches_on (j : cond_jump) (f : flag) : bool :=
  match j, f with
  | JNE, (Less | Greater) => true
  | JEQ, Equal => true
  | JLE, (Less | Equal) => true
  | JL, Less => true
  | JGE, (Greater | Equal) => true
  | JG, Greater => true
  | _, _ => false
  end.

(** Line [k] of the label-stripped sequence [out] is what follows a
    declaration of the label [n] in [input]: the next line when the
    declaring line holds the label alone, the rest of the declaring line
    otherwise. *)
Definition follows_declaration (input out : list string) (n : string) (k : nat)
  : Prop :=
  exists (j : nat) line first_part rest,
    input !! j = Some line
    /\ split line = Some (first_part :: rest)
    /\ last_char first_part = Some ":"%char
    /\ n = substr first_part 0 (len first_part - 1)
    /\ out !! k =
         if bool_decide (rest = []) then input !! S j
         else Some (substr line (len first_part) (len line - len first_part)).

(** A [bytes] directive, the one line that does not take 8 bytes. *)
Definition is_bytes (line : string) : bool :=
  match split line with
  | Some (op :: _) => String.eqb op "bytes"
  | _ => false
  end.

(** ** The assembler of Profile A: make_comm and assemble *)

Module Asm32.
Import Mipt32.

(** The table [CODE] of [make_comm]. *)
Definition CODE : gmap string Z :=
  list_to_map
    [("halt", 0); ("syscall", 1); ("add", 2); ("addi", 3); ("sub", 4);
     ("subi", 5); ("mul", 6); ("muli", 7); ("div", 8); ("divi", 9);
     ("lc", 12); ("shl", 13); ("shli", 14); ("shr", 15); ("shri", 16);
     ("and", 17); ("andi", 18); ("or", 19); ("ori", 20); ("xor", 21);
     ("xori", 22); ("not", 23); ("mov", 24); ("addd", 32); ("subd", 33);
     ("muld", 34); ("divd", 35); ("itod", 36); ("dtoi", 37); ("push", 38);
     ("pop", 39); ("call", 40); ("calli", 41); ("ret", 42); ("cmp", 43);
     ("cmpi", 44); ("cmpd", 45); ("jmp", 46); ("jne", 47); ("jeq", 48);
     ("jle", 49); ("jl", 50); ("jge", 51); ("jg", 52); ("load", 64);
     ("store", 65); ("load2", 66); ("store2", 67); ("loadr", 68);
     ("loadr2", 69); ("storer", 70); ("storer2", 71)]%string.

(** [lexemes[i]]: outside the vector the access is undefined. *)
Definition lexeme (lexemes : list string) (i : nat) : res string :=
  match lexemes !! i with
  | Some l => Val l
  | None => Err UndefinedBehaviour
  end.

(** [l.substr(1, l.length() - 1)]: [substr] throws when [l] is empty. *)
Definition tail_str (l : string) : res string :=
  if len l <? 1 then Err OutOfRange else Val (substr l 1 (len l - 1)).

(** A label name resolves to its position, anything else is a number. *)
Definition resolve (label : gmap string Z) (mod_str : string) : Z :=
  match label !! mod_str with
  | Some v => v
  | None => word (strtol mod_str)
  end.

Definition make_comm (label : gmap string Z) (lexemes : list string) : res Z :=
  rbind (lexeme lexemes 0) (fun mnemonic =>
  match CODE !! mnemonic with
  | None => Err OutOfRange                          (* CODE.at throws *)
  | Some code =>
      let coded := word (Z.shiftl code 24) in
      match TYPE (Z.shiftr coded 24) with
      | None => Err OutOfRange                      (* TYPE.at throws *)
      | Some RM =>
          rbind (lexeme lexemes 1) (fun l1 =>
          rbind (tail_str l1) (fun reg_str =>
          rbind (lexeme lexemes 2) (fun mod_str =>
          let reg := word (Z.shiftl (word (strtol reg_str)) 20) in
          let md := word (strtol mod_str) in
          Val (word (coded + word (reg + md))))))
      | Some RR =>
          rbind (lexeme lexemes 1) (fun l1 =>
          rbind (tail_str l1) (fun reg1_str =>
          rbind (lexeme lexemes 2) (fun l2 =>
          rbind (tail_str l2) (fun reg2_str =>
          rbind (lexeme lexemes 3) (fun mod_str =>
          let reg1 := word (Z.shiftl (word (strtol reg1_str)) 20) in
          let reg2 := word (Z.shiftl (word (strtol reg2_str)) 16) in
          let md := word (strtol mod_str) in
          Val (word (coded + word (word (reg1 + reg2) + md))))))))
      | Some RI =>
          let is_ret := Z.shiftr coded 24 =? 42 in
          rbind (if is_ret then Val "0"%string
                 else rbind (lexeme lexemes 1) tail_str) (fun reg_str =>
          rbind (lexeme lexemes 1) (fun l1 =>
          rbind (if is_ret then Val l1 else lexeme lexemes 2) (fun mod_str =>
          let md := resolve label mod_str in
          let reg := word (Z.shiftl (word (strtol reg_str)) 20) in
          Val (word (coded + word (reg + md))))))
      | Some J =>
          rbind (lexeme lexemes 1) (fun l1 =>
          Val (word (coded + resolve label l1)))
      end
  end).

Definition lift {A} (r : res A) : M state A := fun s =>
  match r with
  | Val a => Ret a s
  | Err f => Fail f
  end.

Section Assemble.
(** [strtod(str, nullptr)] as the bit pattern of the double it returns; the
    C library's conversion is not part of the sources. *)
Context (strtod : string -> Z).

(** The loop of [assemble] over the label-stripped lines, [pc] being the
    running word position.  [label[name]] reads 0 for an unknown name. *)
Fixpoint assemble_loop (input : list string) (label : gmap string Z) (pc : Z)
  : M state unit :=
  match input with
  | [] => ret tt
  | line :: input' =>
      match split line with
      | None => fail NoFuel
      | Some splited =>
          do op <- lift (lexeme splited 0) ;;
          if String.eqb op "end" then
            do name <- lift (lexeme splited 1) ;;
            sreg 15 (default 0 (label !! name))
          else if String.eqb op "word" then
            do arg <- lift (lexeme splited 1) ;;
            run smem pc (word (strtol arg)) ;;
            assemble_loop input' label (word (pc + 1))
          else if String.eqb op "double" then
            do arg <- lift (lexeme splited 1) ;;
            let tmp := w64 (strtod arg) in
            run smem pc (lo32 tmp) ;;
            run smem (word (pc + 1)) (Z.shiftr tmp 32) ;;
            assemble_loop input' label (word (pc + 1))
          else
            do comm <- lift (make_comm label splited) ;;
            run smem pc comm ;;
            assemble_loop input' label (word (pc + 1))
      end
  end.

(** [assemble]: label pass from the empty table, encode pass from word 0,
    then the stack pointer is set to the last word of the memory.  The result
    carries the label-stripped lines and the label table along. *)
Definition assemble (input : list string)
  : M state (list string * gmap string Z) :=
  do parsed <- lift (parse_labels input ∅) ;;
  let '(input', label) := parsed in
  run assemble_loop input' label 0 ;;
  run sreg 14 (MEMSIZE - 1) ;;
  ret (input', label).

End Assemble.

End Asm32.

(** The six conditional operations of Profile B, in the order of the
    conditional jumps of Profile A. *)
Definition exec_op (j : cond_jump) : Z -> Z -> Z -> M Mipt64.state unit :=
  match j with
  | JNE => Mipt64.cne | JEQ => Mipt64.ceq | JLE => Mipt64.cle
  | JL => Mipt64.clt | JGE => Mipt64.cge | JG => Mipt64.cgt
  end.

(** The position of the first [c] in [s], for the properties of [find]. *)
Fixpoint index_of (c : ascii) (s : string) : option nat :=
  match s with
  | EmptyString => None
  | String a s' => if Ascii.eqb a c then Some O else S <$> index_of c s'
  end.

(** What every token of [split] looks like: not empty, without a blank, and
    with a comma at most as its last character. *)
Definition token (t : string) : Prop :=
  t <> EmptyString
  /\ find " " t = npos
  /\ (find "," t = npos \/ find "," t = len t - 1).

(** An operation that never ends the run with [exit]. *)
Definition never_exits {S A} (m : M S A) : Prop :=
  forall s c s', m s <> Exit c s'.

(** The word the encode pass of Profile A stores at the position of a line:
    the number of a [word] directive, the low half of a [double], the
    encoded instruction otherwise; an [end] directive stores nothing. *)
Definition stored_word (strtod : string -> Z) (label : gmap string Z)
  (line : string) : option Z :=
  match split line with
  | Some (op :: args) =>
      if String.eqb op "end" then None
      else if String.eqb op "word" then
        match args with
        | arg :: _ => Some (Mipt32.word (strtol arg))
        | [] => None
        end
      else if String.eqb op "double" then
        match args with
        | arg :: _ => Some (lo32 (w64 (strtod arg)))
        | [] => None
        end
      else
        match Asm32.make_comm label (op :: args) with
        | Val c => Some c
        | Err _ => None
        end
  | _ => None
  end.

(** An [end] directive, at which the encode pass stops. *)
Definition is_end (line : string) : bool :=
  match split line with
  | Some (op :: _) => String.eqb op "end"
  | _ => false
  end.

(** A line whose first token does not end in a colon: it declares no label. *)
Definition label_free (line : string) : Prop :=
  exists first_part rest,
    split line = Some (first_part :: rest)
    /\ last_char first_part <> Some ":"%char.

(** ** Reading the program text: file_input, the same in both sources

    The lines of the file are the successive results of [getline]. *)

Module Input.

(** [while (t.length() > 0 && (t[0] == ' ' || t[0] == '\t')) t.erase(0, 1);] *)
Fixpoint erase_blanks (t : string) : string :=
  match t with
  | String a t' =>
      if Ascii.eqb a " " || Ascii.eqb a "009" then erase_blanks t' else t
  | EmptyString => t
  end.

(** The body of the loop up to the test before [push_back]: what is left of
    one line.  [substr] clips its count to the characters the string has, so
    [temp.substr(0, npos)] is the whole line; in the branch of the colon
    [find] is a position of the string and [+ 1] does not wrap. *)
Definition keep (temp : string) : string :=
  let temp := substr temp 0 (Z.min (find ";" temp) (len temp)) in
  let temp :=
    if negb (find ":" temp =? npos) then
      let temp1 := substr temp 0 (find ":" temp + 1) in
      let temp2 :=
        erase_blanks
          (substr temp (find ":" temp + 1) (len temp - find ":" temp - 1)) in
      if 3 <? len temp2 then temp2 else temp1
    else temp in
  erase_blanks temp.

(** The loop over the lines, [input] being the global vector. *)
Fixpoint file_input_loop (lines : list string) (input : list string)
  : list string :=
  match lines with
  | [] => input
  | temp :: lines' =>
      let t := keep temp in
      file_input_loop lines' (if 0 <? len t then input ++ [t] else input)
  end.

Definition file_input (lines : list string) : list string :=
  file_input_loop lines [].

End Input.

(** A stored program line: not empty, no blank or tab in front, no comment. *)
Definition clean (l : string) : Prop :=
  l <> EmptyString /\ Input.erase_blanks l = l /\ find ";" l = npos.

(** ** The assembler of Profile B: make_comm *)

Module Asm64.
Import Mipt64.

(** The local tables [CODE] and [REGISTER] of [make_comm]. *)
Definition CODE : gmap string Z :=
  list_to_map
    [("halt", 0); ("svc", 1); ("add", 2); ("sub", 3); ("mul", 4); ("div", 5);
     ("mod", 6); ("and", 7); ("or", 8); ("xor", 9); ("nand", 10); ("shl", 11);
     ("shr", 12); ("addd", 13); ("subd", 14); ("muld", 15); ("divd", 16);
     ("itod", 17); ("dtoi", 18); ("bl", 19); ("cmp", 20); ("cmpd", 21);
     ("cne", 22); ("ceq", 23); ("cle", 24); ("clt", 25); ("cge", 26);
     ("cgt", 27); ("ld", 28); ("st", 29)]%string.

Definition REGISTER : gmap string Z :=
  list_to_map [("rz", 27); ("fp", 28); ("sp", 29); ("lr", 30); ("pc", 31)]%string.

Definition lexeme (lexemes : list string) (i : nat) : res string :=
  Asm32.lexeme lexemes i.

(** [l.c_str()] turned into a [string] again (a map key): the characters
    before the first NUL. *)
Fixpoint c_str (l : string) : string :=
  match l with
  | String a l' => if Ascii.eqb a "000" then EmptyString else String a (c_str l')
  | EmptyString => EmptyString
  end.

(** [l.substr(0, l.length() - 1)]: all but the last character (of the empty
    string, the empty string). *)
Definition chop (l : string) : string := substr l 0 (len l - 1).

(** The register operand [name], shifted into its field: a name of the
    table [REGISTER], or a letter followed by the number.
    [name.substr(1, ...)] throws when [name] is empty. *)
Definition register (name : string) (sh : Z) : res Z :=
  match REGISTER !! name with
  | Some r => Val (dword (Z.shiftl r sh))
  | None =>
      rbind (Asm32.tail_str name) (fun number =>
      Val (dword (Z.shiftl (dword (strtol number)) sh)))
  end.

(** [label[name]]: the value bound to [name]; an absent name is inserted
    with value 0. *)
Definition label_at (label : gmap string Z) (name : string)
  : Z * gmap string Z :=
  match label !! name with
  | Some v => (v, label)
  | None => (0, <[name := 0]> label)
  end.

(** [long long lim = v - pc; if (lim < 0) { lim *= -1; coded += 1 << 20; }
    coded |= lim;] *)
Definition branch_offset (coded v pc : Z) : res Z :=
  let lim := to_llong (dword (v - pc)) in
  if lim <? 0 then
    if lim =? LONG_MIN then Err UndefinedBehaviour
    else Val (Z.lor (dword (coded + Z.shiftl 1 20)) (dword (- lim)))
  else Val (Z.lor coded (dword lim)).

Definition lift {A} (r : res A) : M state A := fun s =>
  match r with
  | Val a => Ret a s
  | Err f => Fail f
  end.

(** The register+literal composite of the last three operands:
    [ri << 11], [bits << 8] and [im]. *)
Definition composite_fields (lexemes : list string) : res (Z * Z * Z) :=
  rbind (lexeme lexemes 3) (fun l3 =>
  rbind (register (chop l3) 11) (fun ri =>
  rbind (lexeme lexemes 4) (fun l4 =>
  let bits := dword (Z.shiftl (dword (strtol l4)) 8) in
  rbind (lexeme lexemes 5) (fun l5 =>
  let im := dword (strtol l5) in
  Val (ri, bits, im))))).

(** [make_comm(lexemes, pc)]: the encoded word, and the table [label] as
    the call leaves it. *)
Definition make_comm (label : gmap string Z) (lexemes : list string) (pc : Z)
  : M state (Z * gmap string Z) :=
  do mnemonic <- lift (lexeme lexemes 0) ;;
  let coded := dword (Z.shiftl (default 0 (CODE !! mnemonic)) 26) in
  match TYPE (Z.shiftr coded 26) with
  | Some RR =>
      do l1 <- lift (lexeme lexemes 1) ;;
      do rd <- lift (register (chop l1) 21) ;;
      do SRS <- lift (lexeme lexemes 2) ;;
      match label !! SRS with
      | Some rs =>
          let rr := Z.shiftl 27 16 in
          ret (dword (coded + dword (dword (rd + rr) + rs)), label)
      | None =>
          do rs <- lift (register (chop SRS) 16) ;;
          do l3 <- lift (lexeme lexemes 3) ;;
          match label !! c_str l3 with
          | Some rimm => ret (dword (coded + dword (dword (rd + rs) + rimm)), label)
          | None =>
              if Z.shiftr rs 16 =? 27 then
                let imm := dword (strtol l3) in
                ret (dword (coded + dword (dword (rd + rs) + imm)), label)
              else
                do fields <- lift (composite_fields lexemes) ;;
                let '(ri, bits, im) := fields in
                ret (dword (coded
                            + dword (dword (dword (dword (rd + rs) + ri) + bits) + im)),
                     label)
          end
      end
  | Some RM =>
      do l1 <- lift (lexeme lexemes 1) ;;
      do rd <- lift (register (chop l1) 21) ;;
      do l2 <- lift (lexeme lexemes 2) ;;
      do ra <- lift (register (chop l2) 16) ;;
      if (Z.shiftr ra 16 =? 31) || (Z.shiftr ra 16 =? 27) || (Z.shiftr ra 16 =? 29)
      then
        do l3 <- lift (lexeme lexemes 3) ;;
        let imm := dword (strtol l3) in
        ret (dword (coded + dword (dword (rd + ra) + imm)), label)
      else
        do fields <- lift (composite_fields lexemes) ;;
        let '(ri, bits, im) := fields in
        ret (dword (coded
                    + dword (dword (dword (dword (rd + ra) + ri) + bits) + im)),
             label)
  | Some B =>
      do fp <- lift (lexeme lexemes 1) ;;
      match label !! fp with
      | Some v =>
          do coded' <- lift (branch_offset coded v pc) ;;
          ret (coded', label)
      | None =>
          let fp := chop fp in
          match REGISTER !! fp with
          | Some r =>
              do sp <- lift (lexeme lexemes 2) ;;
              if r =? 27 then
                let '(im, label') := label_at label sp in
                let ra := Z.shiftl 27 21 in
                ret (dword (coded + dword (ra + im)), label')
              else if r =? 31 then
                let '(v, label') := label_at label fp in
                do coded' <- lift (branch_offset coded v pc) ;;
                ret (coded', label')
              else ret (coded, label)
          | None =>
              do fp <- lift (Asm32.tail_str fp) ;;
              let reg := Z.shiftl 31 21 in
              let ra := dword (strtol fp) in
              do l2 <- lift (lexeme lexemes 2) ;;
              do t2 <- lift (Asm32.tail_str l2) ;;
              let ri := dword (strtol t2) in
              do l4 <- lift (lexeme lexemes 4) ;;
              let bits := dword (strtol l4) in
              let im := dword (strtol l4) in
              do va <- greg ra ;;
              do vi <- greg ri ;;
              if bits <? 64 then
                let imm := dword (dword (va + dword (Z.shiftl vi bits)) + im) in
                ret (dword (coded + dword (reg + imm)), label)
              else fail UndefinedBehaviour
          end
      end
  | None => ret (0, label)
  end.

(** *** assemble

    [pc] is the running byte position, a local of [assemble]; [label] is the
    global table, which [label[...]] and [make_comm] may extend. *)

Section Assemble.
(** [strtod(str, nullptr)] as the bit pattern of the double it returns. *)
Context (strtod : string -> Z).

(** [for (int j = 0; j < size / 8; j++) { smem(pc, 0); pc += 8; }] with [n]
    iterations to go; the result is [pc] after the loop.  The memory holds
    2^18 units of 8 bytes, so [smem] leaves the array long before [j] could
    leave the range of [int]. *)
Fixpoint zero_fill (n : nat) (pc : Z) : M state Z :=
  match n with
  | O => ret pc
  | S n' => run smem pc 0 ;; zero_fill n' (dword (pc + 8))
  end.

(** The body of the [for] loop of [assemble] on one line: the table and the
    position it leaves, and [true] when it ends in [break]. *)
Definition assemble_line (line : string) (label : gmap string Z) (pc : Z)
  : M state (gmap string Z * Z * bool) :=
  match split line with
  | None => fail NoFuel
  | Some splited =>
      do op <- lift (lexeme splited 0) ;;
      if String.eqb op "end" then
        do name <- lift (lexeme splited 1) ;;
        let '(v, label') := label_at label name in
        run sreg 31 (dword (v + 8)) ;;
        ret (label', pc, true)
      else if String.eqb op "word" then
        do arg <- lift (lexeme splited 1) ;;
        run smem pc (dword (strtol arg)) ;;
        ret (label, dword (pc + 8), false)
      else if String.eqb op "double" then
        do arg <- lift (lexeme splited 1) ;;
        let tmp := w64 (strtod arg) in
        run smem pc tmp ;;
        ret (label, dword (pc + 8), false)
      else if String.eqb op "bytes" then
        do arg <- lift (lexeme splited 1) ;;
        let size := dword (strtol arg) in
        do pc' <- zero_fill (Z.to_nat (size / 8)) pc ;;
        run (if 4 <? size mod 8 then smem pc' 0
             else if 0 <? size mod 8 then
               do hos <- gmem pc' ;;
               smem pc' (Z.land hos 0xffffffff)
             else ret tt) ;;
        ret (label, pc', false)
      else
        do made <- make_comm label splited pc ;;
        let '(comm, label') := made in
        run smem pc comm ;;
        ret (label', dword (pc + 8), false)
  end.

(** The [for] loop over the label-stripped lines; the index [i] is below
    [input.size()], which the label pass has already counted in an [int]. *)
Fixpoint assemble_loop (input : list string) (label : gmap string Z) (pc : Z)
  : M state (gmap string Z * Z) :=
  match input with
  | [] => ret (label, pc)
  | line :: input' =>
      do after <- assemble_line line label pc ;;
      let '(label', pc', stop) := after in
      if stop then ret (label', pc') else assemble_loop input' label' pc'
  end.

(** [assemble]: label pass from the empty table, encode pass from position
    0, then the stack pointer is set to the last unit of the memory and [rz]
    to 0.  The result carries the label-stripped lines and the table
    along. *)
Definition assemble (input : list string)
  : M state (list string * gmap string Z) :=
  do parsed <- lift (parse_labels input ∅) ;;
  let '(input', label) := parsed in
  do final <- assemble_loop input' label 0 ;;
  run sreg 29 (MEMSIZE - 8) ;;
  run sreg 27 0 ;;
  ret (input', final.1).

End Assemble.

End Asm64.

(** The register a register operand of Profile B names: by its name in
    [REGISTER], or by the number after its first character. *)
Definition register_number (name : string) : Z :=
  match Asm64.REGISTER !! name with
  | Some r => r
  | None => strtol (substr name 1 (len name - 1))
  end.

(** An operation that leaves the component [f] of the state as it was. *)
Definition preserves {S A X} (f : S -> X) (m : M S A) : Prop :=
  forall s a s', m s = Ret a s' -> f s' = f s.

(** The unit the encode pass of Profile B stores for a line at position
    [pc], the table being [label] and the machine state [s]: the number of a
    [word] directive, the pattern of a [double], the word [make_comm]
    returns otherwise. *)
Definition stored_unit (strtod : string -> Z) (label : gmap string Z)
  (s : Mipt64.state) (line : string) (pc unit : Z) : Prop :=
  exists op args,
    split line = Some (op :: args)
    /\ if String.eqb op "word" then
         exists arg rest, args = arg :: rest /\ unit = Mipt64.dword (strtol arg)
       else if String.eqb op "double" then
         exists arg rest, args = arg :: rest /\ unit = w64 (strtod arg)
       else
         exists label',
           Asm64.make_comm label (op :: args) pc s = Ret (unit, label') s.

(** The claim C4 as it is stated: whatever value the label pass binds to a
    label is the position at which the encode pass writes the line that
    follows the label's declaration, that is the value of [pc] when the loop
    of [assemble] has passed the lines before it. *)
Definition label_equals_position (input : list string) : Prop :=
  forall strtod s out final t label n v (k : nat) reached p s_k,
    Asm64.assemble strtod input s = Ret (out, final) t ->
    Mipt64.parse_labels input ∅ = Val (out, label) ->
    label !! n = Some v ->
    follows_declaration input out n k ->
    Forall (fun l => is_end l = false) (take k out) ->
    Asm64.assemble_loop strtod (take k out) label 0 s = Ret (reached, p) s_k ->
    v = p.

(** An operation whose result satisfies [P] whenever it returns. *)
Definition returns {S A} (P : A -> Prop) (m : M S A) : Prop :=
  forall s a s', m s = Ret a s' -> P a.

(** An operation that never stops for want of recursion depth. *)
Definition within_bounds {S A} (m : M S A) : Prop :=
  forall s, m s <> Fail NoFuel.

(** The table [label'] keeps every binding of [label]. *)
Definition extends (label label' : gmap string Z) : Prop :=
  forall n v, label !! n = Some v -> label' !! n = Some v.

(** * Properties *)

Ltac in_range :=
  repeat match goal with
    | |- context [(0 <=? ?r) && (?r <? ?n)] =>
        replace ((0 <=? r) && (r <? n)) with true by lia
    end.

(** ** Arithmetic helpers *)

Lemma w64_range z : 0 <= w64 z < 2 ^ 64.
Proof. unfold w64. apply Z.mod_pos_bound. lia. Qed.

Lemma w64_small z : 0 <= z < 2 ^ 64 -> w64 z = z.
Proof. intros H. unfold w64. apply Z.mod_small. exact H. Qed.

Lemma w64_pred_succ z : w64 (w64 (z - 1) + 1) = w64 z.
Proof.
  unfold w64. rewrite Zplus_mod_idemp_l. f_equal. lia.
Qed.

Lemma w64_sub_add z k : w64 (w64 (z - k) + k) = w64 z.
Proof.
  unfold w64. rewrite Zplus_mod_idemp_l. f_equal. lia.
Qed.

Lemma land_lxor_clear a b : Z.land (Z.lxor a b) a = Z.land a (Z.lnot b).
Proof.
  apply Z.bits_inj'. intros n Hn.
  rewrite !Z.land_spec, Z.lxor_spec, Z.lnot_spec by lia.
  destruct (Z.testbit a n), (Z.testbit b n); reflexivity.
Qed.

Lemma clear_plus_common a b : Z.land a (Z.lnot b) + Z.land a b = a.
Proof.
  rewrite Z.add_nocarry_lxor.
  - apply Z.bits_inj'. intros n Hn.
    rewrite Z.lxor_spec, !Z.land_spec, Z.lnot_spec by lia.
    destruct (Z.testbit a n), (Z.testbit b n); reflexivity.
  - apply Z.bits_inj'. intros n Hn.
    rewrite !Z.land_spec, Z.lnot_spec, Z.bits_0 by lia.
    destruct (Z.testbit a n), (Z.testbit b n); reflexivity.
Qed.

Lemma w64_lnot z : w64 (Z.lnot z) = w64 (2 ^ 64 - 1 - z).
Proof.
  unfold w64, Z.lnot. rewrite <- Z.sub_1_r.
  replace (2 ^ 64 - 1 - z) with (- z - 1 + 1 * 2 ^ 64) by lia.
  rewrite Z_mod_plus_full. f_equal; lia.
Qed.

(** ** Profile B: nand *)

(** C10. Profile B's [nand] stores [(a XOR b) AND a] in the destination
    register, [a] being the content of the source register and [b] the
    immediate operand; that value is [a AND (NOT b)] (the bits of [b] cleared
    in [a]), and it is not the bitwise NAND [NOT (a AND b)] unless [a] has all
    64 bits set. *)
Theorem nand_is_bit_clear (rd rs b : Z) (s : Mipt64.state) :
  0 <= rd < 33 -> 0 <= rs < 33 ->
  0 <= Mipt64.regs s rs < 2 ^ 64 -> 0 <= b < 2 ^ 64 ->
  let a := Mipt64.regs s rs in
  let v := Z.land (Z.lxor a b) a in
  Mipt64.nand rd rs b s = Ret tt (set_reg64 s rd v)
  /\ v = Z.land a (Z.lnot b)
  /\ (a <> 2 ^ 64 - 1 -> v <> w64 (Z.lnot (Z.land a b))).
Proof.
  intros Hrd Hrs Ha Hb a v.
  split; [| split].
  - unfold Mipt64.nand, bind, Mipt64.greg, Mipt64.sreg.
    replace ((0 <=? rs) && (rs <? 33)) with true by lia.
    replace ((0 <=? rd) && (rd <? 33)) with true by lia.
    reflexivity.
  - apply land_lxor_clear.
  - intros Hne Heq. subst v.
    rewrite land_lxor_clear in Heq.
    pose proof (clear_plus_common a b) as Hsum.
    assert (Hab : 0 <= Z.land a b <= a).
    { split; [apply Z.land_nonneg; lia |].
      pose proof (Z.land_nonneg a (Z.lnot b)) as [_ Hnn].
      specialize (Hnn (or_introl (proj1 Ha))). lia. }
    rewrite w64_lnot, w64_small in Heq by (fold a in Ha; lia).
    lia.
Qed.

Lemma nand_is_bit_clear_witness :
  Mipt64.nand 3 4 10 (set_reg64 (start64 []) 4 12)
    = Ret tt (set_reg64 (set_reg64 (start64 []) 4 12) 3 4)
  /\ 4 = Z.land 12 (Z.lnot 10)
  /\ (12 <> 2 ^ 64 - 1 -> 4 <> w64 (Z.lnot (Z.land 12 10))).
Proof.
  apply (nand_is_bit_clear 3 4 10 (set_reg64 (start64 []) 4 12));
    unfold set_reg64, start64, Mipt64.upd; simpl; lia.
Defined.

(** ** Registers and monadic steps *)

Lemma greg32_ok r s : 0 <= r < 17 -> Mipt32.greg r s = Ret (Mipt32.regs s r) s.
Proof. intros H. unfold Mipt32.greg. in_range. reflexivity. Qed.

Lemma sreg32_ok r v s : 0 <= r < 17 -> Mipt32.sreg r v s = Ret tt (set_reg32 s r v).
Proof. intros H. unfold Mipt32.sreg. in_range. reflexivity. Qed.

Lemma greg64_ok r s : 0 <= r < 33 -> Mipt64.greg r s = Ret (Mipt64.regs s r) s.
Proof. intros H. unfold Mipt64.greg. in_range. reflexivity. Qed.

Lemma sreg64_ok r v s : 0 <= r < 33 -> Mipt64.sreg r v s = Ret tt (set_reg64 s r v).
Proof. intros H. unfold Mipt64.sreg. in_range. reflexivity. Qed.

Lemma bind_ret {S A B} (m : M S A) (k : A -> M S B) s a s' :
  m s = Ret a s' -> bind m k s = k a s'.
Proof. intros H. unfold bind. rewrite H. reflexivity. Qed.

Lemma bind_fail {S A B} (m : M S A) (k : A -> M S B) s f :
  m s = Fail f -> bind m k s = Fail f.
Proof. intros H. unfold bind. rewrite H. reflexivity. Qed.

Lemma upd_same f k v : Mipt32.upd f k v k = v.
Proof. unfold Mipt32.upd. rewrite Z.eqb_refl. reflexivity. Qed.

Lemma upd_other f k v x : x <> k -> Mipt32.upd f k v x = f x.
Proof. intros H. unfold Mipt32.upd. destruct (Z.eqb_spec x k); congruence. Qed.

Lemma upd64_same f k v : Mipt64.upd f k v k = v.
Proof. unfold Mipt64.upd. rewrite Z.eqb_refl. reflexivity. Qed.

Lemma upd64_other f k v x : x <> k -> Mipt64.upd f k v x = f x.
Proof. intros H. unfold Mipt64.upd. destruct (Z.eqb_spec x k); congruence. Qed.

Lemma greg2_ok r s :
  0 <= r < 16 ->
  Mipt32.greg2 r s
    = Ret (w64 (w64 (Z.shiftl (Mipt32.regs s (r + 1)) 32) + Mipt32.regs s r)) s.
Proof.
  intros H. unfold Mipt32.greg2, Mipt32.word.
  rewrite (w64_small (r + 1)) by lia.
  rewrite (bind_ret _ _ _ _ _ (greg32_ok (r + 1) s ltac:(lia))).
  rewrite (bind_ret _ _ _ _ _ (greg32_ok r s ltac:(lia))).
  reflexivity.
Qed.

(** ** Profile A: division *)

(** C6. Profile A's [div] and [divi] with a non-zero divisor [d]: the
    dividend is the 64-bit value [(high << 32) + low] read from the register
    pair (low part in [r1], high part in [r1 + 1]), which is
    [high * 2^32 + low] when both hold 32-bit values; the quotient is stored
    in [r1] and the remainder in [r1 + 1].  With high = 0, low = 17 and
    d = 5 the quotient is 3 and the remainder 2.  The dispatcher hands
    [div] the two register fields of the instruction word. *)
Theorem div_register_pair (r1 r2 md : Z) (s : Mipt32.state) :
  0 <= r1 < 16 -> 0 <= r2 < 17 ->
  let low := Mipt32.regs s r1 in
  let high := Mipt32.regs s (r1 + 1) in
  let d := Mipt32.regs s r2 in
  let dividend := w64 (w64 (Z.shiftl high 32) + low) in
  0 < d -> 0 < md ->
  Mipt32.div r1 r2 s
    = Ret tt (set_reg32 (set_reg32 s r1 (dividend / d)) (r1 + 1) (dividend mod d))
  /\ Mipt32.divi r1 md s
    = Ret tt (set_reg32 (set_reg32 s r1 (dividend / md)) (r1 + 1) (dividend mod md))
  /\ (0 <= low < 2 ^ 32 -> 0 <= high < 2 ^ 32 -> dividend = high * 2 ^ 32 + low)
  /\ (high = 0 -> low = 17 -> d = 5 ->
      dividend / d = 3 /\ dividend mod d = 2)
  /\ (forall fpu junk tail,
      Mipt32.switch_c fpu junk 8 tail = Mipt32.div (Mipt32.ts4 tail) (Mipt32.tt4 tail)).
Proof.
  intros Hr1 Hr2 low high d dividend Hd Hmd.
  repeat split.
  - unfold Mipt32.div.
    rewrite (bind_ret _ _ _ _ _ (greg2_ok r1 s Hr1)).
    rewrite (bind_ret _ _ _ _ _ (greg32_ok r2 s Hr2)).
    fold low high d dividend.
    destruct (Z.eqb_spec d 0) as [E | _]; [lia |].
    rewrite (bind_ret _ _ _ _ _ (sreg32_ok r1 (dividend / d) s ltac:(lia))).
    unfold Mipt32.word. rewrite (w64_small (r1 + 1)) by lia.
    apply sreg32_ok. lia.
  - unfold Mipt32.divi.
    rewrite (bind_ret _ _ _ _ _ (greg2_ok r1 s Hr1)).
    fold low high dividend.
    destruct (Z.eqb_spec md 0) as [E | _]; [lia |].
    rewrite (bind_ret _ _ _ _ _ (sreg32_ok r1 (dividend / md) s ltac:(lia))).
    unfold Mipt32.word. rewrite (w64_small (r1 + 1)) by lia.
    apply sreg32_ok. lia.
  - intros Hlo Hhi. unfold dividend.
    rewrite Z.shiftl_mul_pow2 by lia.
    rewrite (w64_small (high * 2 ^ 32)) by lia.
    apply w64_small. lia.
  - subst dividend. rewrite H, H0, H1. reflexivity.
  - subst dividend. rewrite H, H0, H1. reflexivity.
  - destruct junk as [[j1 j2] j3]. reflexivity.
Qed.

Lemma div_register_pair_witness :
  let s := set_reg32 (set_reg32 (start32 []) 2 17) 5 5 in
  Mipt32.div 2 5 s = Ret tt (set_reg32 (set_reg32 s 2 3) 3 2)
  /\ Mipt32.divi 2 5 s = Ret tt (set_reg32 (set_reg32 s 2 3) 3 2).
Proof.
  intros s.
  destruct (div_register_pair 2 5 5 s) as (Hdiv & Hdivi & _);
    [lia | lia | reflexivity | reflexivity |].
  split; [exact Hdiv | exact Hdivi].
Defined.

Lemma greg32_cases r s :
  Mipt32.greg r s = Ret (Mipt32.regs s r) s
  \/ Mipt32.greg r s = Fail UndefinedBehaviour.
Proof.
  unfold Mipt32.greg. destruct ((0 <=? r) && (r <? 17)); [left | right]; reflexivity.
Qed.

Lemma greg2_cases r s :
  (exists v, Mipt32.greg2 r s = Ret v s)
  \/ Mipt32.greg2 r s = Fail UndefinedBehaviour.
Proof.
  unfold Mipt32.greg2.
  destruct (greg32_cases (Mipt32.word (r + 1)) s) as [H1 | H1].
  - rewrite (bind_ret _ _ _ _ _ H1).
    destruct (greg32_cases r s) as [H2 | H2].
    + rewrite (bind_ret _ _ _ _ _ H2). left. eexists. reflexivity.
    + rewrite (bind_fail _ _ _ _ H2). right. reflexivity.
  - rewrite (bind_fail _ _ _ _ H1). right. reflexivity.
Qed.

Lemma greg64_cases r s :
  Mipt64.greg r s = Ret (Mipt64.regs s r) s
  \/ Mipt64.greg r s = Fail UndefinedBehaviour.
Proof.
  unfold Mipt64.greg. destruct ((0 <=? r) && (r <? 33)); [left | right]; reflexivity.
Qed.

(** ** Division by zero *)

Lemma undefined_not_explicit {S A} :
  ~ explicit_error (Fail UndefinedBehaviour : outcome S A).
Proof.
  intros [H | (c & s & H & _)]; discriminate H.
Qed.

(** C8, as stated, fails: Profile A's [div] with a zero divisor register is
    not a reported error. *)
Lemma div_by_zero_unreported :
  ~ explicit_error (Mipt32.div 0 2 (set_reg32 (start32 []) 0 17)).
Proof.
  intros [H | (c & s & H & _)]; vm_compute in H; discriminate H.
Qed.

(** C8, amended. No operation checks its divisor: [div] and [divi] of
    Profile A and [div] and [mod] of Profile B executed with a zero divisor
    are undefined behaviour of the C++ program; nothing is reported and the
    program does not end the run by itself. *)
Theorem division_by_zero_undefined :
  (forall r1 r2 s, Mipt32.regs s r2 = 0 ->
     Mipt32.div r1 r2 s = Fail UndefinedBehaviour)
  /\ (forall r1 s, Mipt32.divi r1 0 s = Fail UndefinedBehaviour)
  /\ (forall rd rs s, Mipt64.div rd rs 0 s = Fail UndefinedBehaviour)
  /\ (forall rd rs s, Mipt64.mod_ rd rs 0 s = Fail UndefinedBehaviour)
  /\ ~ explicit_error (Fail UndefinedBehaviour : outcome Mipt32.state unit)
  /\ ~ explicit_error (Fail UndefinedBehaviour : outcome Mipt64.state unit).
Proof.
  split; [| split; [| split; [| split; [| split]]]].
  - intros r1 r2 s Hz. unfold Mipt32.div.
    destruct (greg2_cases r1 s) as [[fir H1] | H1];
      [rewrite (bind_ret _ _ _ _ _ H1) | apply (bind_fail _ _ _ _ H1)].
    destruct (greg32_cases r2 s) as [H2 | H2];
      [rewrite (bind_ret _ _ _ _ _ H2) | apply (bind_fail _ _ _ _ H2)].
    rewrite Hz. reflexivity.
  - intros r1 s. unfold Mipt32.divi.
    destruct (greg2_cases r1 s) as [[fir H1] | H1];
      [rewrite (bind_ret _ _ _ _ _ H1) | apply (bind_fail _ _ _ _ H1)].
    reflexivity.
  - intros rd rs s. unfold Mipt64.div.
    destruct (greg64_cases rs s) as [H | H];
      [rewrite (bind_ret _ _ _ _ _ H) | apply (bind_fail _ _ _ _ H)].
    reflexivity.
  - intros rd rs s. unfold Mipt64.mod_.
    destruct (greg64_cases rs s) as [H | H];
      [rewrite (bind_ret _ _ _ _ _ H) | apply (bind_fail _ _ _ _ H)].
    reflexivity.
  - apply undefined_not_explicit.
  - apply undefined_not_explicit.
Qed.

(** ** Memory bounds *)

(** C7, as stated, fails: reading Profile A's memory one word past its
    capacity is not a reported error. *)
Lemma out_of_bounds_unreported :
  ~ explicit_error (Mipt32.gmem Mipt32.MEMSIZE (start32 [])).
Proof.
  intros [H | (c & s & H & _)]; vm_compute in H; discriminate H.
Qed.

Lemma load_store_other n : forall m adr val x,
  x < adr \/ adr + Z.of_nat n <= x ->
  Mipt64.store_le n m adr val x = m x.
Proof.
  induction n as [| n IH]; intros m adr val x Hx; simpl.
  - reflexivity.
  - rewrite IH by lia. apply upd64_other. lia.
Qed.

Lemma load_le_ext n : forall m m' adr,
  (forall x, adr <= x < adr + Z.of_nat n -> m x = m' x) ->
  Mipt64.load_le n m adr = Mipt64.load_le n m' adr.
Proof.
  induction n as [| n IH]; intros m m' adr H; simpl.
  - reflexivity.
  - rewrite (H adr) by lia. rewrite (IH m m' (adr + 1)); [reflexivity |].
    intros x Hx. apply H. lia.
Qed.

Lemma load_store_same n : forall m adr val,
  Mipt64.load_le n (Mipt64.store_le n m adr val) adr = val mod 256 ^ Z.of_nat n.
Proof.
  induction n as [| n IH]; intros m adr val.
  - simpl. rewrite Z.mod_1_r. reflexivity.
  - cbn [Mipt64.load_le Mipt64.store_le].
    rewrite IH.
    rewrite load_store_other by lia.
    rewrite upd64_same.
    rewrite Nat2Z.inj_succ, Z.pow_succ_r by lia.
    rewrite (Z.rem_mul_r val 256 (256 ^ Z.of_nat n)) by lia.
    reflexivity.
Qed.

Lemma store_le_head n m adr val :
  Mipt64.store_le (S n) m adr val adr = val mod 256.
Proof.
  change (Mipt64.store_le n (Mipt64.upd m adr (val mod 256)) (adr + 1) (val / 256) adr
          = val mod 256).
  rewrite load_store_other by lia. apply upd64_same.
Qed.

(** The second statement of [smem], [mem[adr] = val], rewrites the byte the
    [memcpy] has just put there. *)
Lemma smem_low_byte m adr val x :
  Mipt64.upd (Mipt64.store_le 8 m adr val) adr (val mod 256) x
  = Mipt64.store_le 8 m adr val x.
Proof.
  unfold Mipt64.upd at 1. destruct (Z.eqb_spec x adr) as [-> | Hne]; [| reflexivity].
  symmetry. apply (store_le_head 7).
Qed.

(** C7, amended. Neither profile checks an address: an access outside the
    memory array (no word at [adr] in Profile A, no eight bytes from [adr] in
    Profile B) is undefined behaviour of the C++ program, with no bounds
    error reported; an access inside the array writes and reads back the
    addressed cell (the eight addressed bytes) and leaves every other cell,
    the registers and the console streams as they were. *)
Theorem memory_access_unchecked :
  (forall adr val s,
     0 <= adr < Mipt32.MEMSIZE ->
     Mipt32.smem adr val s = Ret tt (set_mem32 s adr val)
     /\ Mipt32.gmem adr (set_mem32 s adr val) = Ret val (set_mem32 s adr val)
     /\ (forall x, x <> adr -> Mipt32.mem (set_mem32 s adr val) x = Mipt32.mem s x))
  /\ (forall adr val s,
     ~ 0 <= adr < Mipt32.MEMSIZE ->
     Mipt32.gmem adr s = Fail UndefinedBehaviour
     /\ Mipt32.smem adr val s = Fail UndefinedBehaviour)
  /\ (forall adr val s,
     0 <= adr -> adr + 8 <= Mipt64.MEMSIZE -> 0 <= val < 2 ^ 64 ->
     exists s',
       Mipt64.smem adr val s = Ret tt s'
       /\ Mipt64.gmem adr s' = Ret val s'
       /\ (forall x, x < adr \/ adr + 8 <= x -> Mipt64.mem s' x = Mipt64.mem s x)
       /\ Mipt64.regs s' = Mipt64.regs s
       /\ Mipt64.stdin s' = Mipt64.stdin s
       /\ Mipt64.stdout s' = Mipt64.stdout s)
  /\ (forall adr val s,
     ~ (0 <= adr /\ adr + 8 <= Mipt64.MEMSIZE) ->
     Mipt64.gmem adr s = Fail UndefinedBehaviour
     /\ Mipt64.smem adr val s = Fail UndefinedBehaviour)
  /\ ~ explicit_error (Fail UndefinedBehaviour : outcome Mipt32.state Z)
  /\ ~ explicit_error (Fail UndefinedBehaviour : outcome Mipt64.state Z).
Proof.
  split; [| split; [| split; [| split; [| split]]]].
  - intros adr val s H. split; [| split].
    + unfold Mipt32.smem. in_range. reflexivity.
    + unfold Mipt32.gmem. in_range. simpl. rewrite upd_same. reflexivity.
    + intros x Hx. simpl. apply upd_other. exact Hx.
  - intros adr val s H. unfold Mipt32.gmem, Mipt32.smem.
    replace ((0 <=? adr) && (adr <? Mipt32.MEMSIZE)) with false by lia.
    split; reflexivity.
  - intros adr val s H0 H8 Hval. eexists. split; [| split; [| split]].
    + unfold Mipt64.smem.
      replace ((0 <=? adr) && (adr + 8 <=? Mipt64.MEMSIZE)) with true by lia.
      reflexivity.
    + unfold Mipt64.gmem.
      replace ((0 <=? adr) && (adr + 8 <=? Mipt64.MEMSIZE)) with true by lia.
      cbn [Mipt64.mem].
      rewrite (load_le_ext 8 _ (Mipt64.store_le 8 (Mipt64.mem s) adr val))
        by (intros; apply smem_low_byte).
      rewrite load_store_same.
      f_equal. apply Z.mod_small. simpl. lia.
    + intros x Hx. cbn [Mipt64.mem]. rewrite smem_low_byte.
      apply load_store_other. simpl. lia.
    + repeat split.
  - intros adr val s H. unfold Mipt64.gmem, Mipt64.smem.
    replace ((0 <=? adr) && (adr + 8 <=? Mipt64.MEMSIZE)) with false by lia.
    split; reflexivity.
  - apply undefined_not_explicit.
  - apply undefined_not_explicit.
Qed.

Lemma memory_access_unchecked_witness :
  (Mipt32.smem 7 99 (start32 []) = Ret tt (set_mem32 (start32 []) 7 99)
   /\ Mipt32.gmem 7 (set_mem32 (start32 []) 7 99)
      = Ret 99 (set_mem32 (start32 []) 7 99))
  /\ Mipt32.gmem Mipt32.MEMSIZE (start32 []) = Fail UndefinedBehaviour
  /\ (exists s', Mipt64.smem 16 513 (start64 []) = Ret tt s'
                 /\ Mipt64.gmem 16 s' = Ret 513 s')
  /\ Mipt64.gmem (Mipt64.MEMSIZE - 7) (start64 []) = Fail UndefinedBehaviour.
Proof.
  destruct memory_access_unchecked as (HA & HAout & HB & HBout & _).
  split; [| split; [| split]].
  - destruct (HA 7 99 (start32 [])) as (H1 & H2 & _); [unfold Mipt32.MEMSIZE; lia |].
    split; assumption.
  - apply (HAout Mipt32.MEMSIZE 0 (start32 [])). unfold Mipt32.MEMSIZE. lia.
  - destruct (HB 16 513 (start64 [])) as (s' & H1 & H2 & _);
      [lia | unfold Mipt64.MEMSIZE; lia | lia |].
    exists s'. split; assumption.
  - apply (HBout (Mipt64.MEMSIZE - 7) 0 (start64 [])). unfold Mipt64.MEMSIZE. lia.
Defined.

(** ** System call 102 *)

(** C9, as stated, fails: in Profile B two registers holding the same value
    are written differently by service 102. *)
Lemma write_integer_depends_on_index :
  let s := set_reg64 (set_reg64 (start64 []) 5 10) 30 10 in
  Mipt64.regs s 5 = Mipt64.regs s 30
  /\ Mipt64.svc 5 27 102 s = Ret tt (printed64 s (PrintInt 10))
  /\ Mipt64.svc 30 27 102 s = Ret tt (printed64 s (PrintInt 9)).
Proof.
  repeat split.
Qed.

(** C9, amended. A system call with service id 102 and register operand
    [r] writes one integer to the output stream.  Profile A's handler writes
    the content of register [r] converted to [int].  Profile B's handler
    writes the content of register [r], as a signed 64-bit integer, when
    [r] is neither 30 (link register) nor 31 (program counter); for those
    two it writes the content halved plus 4, so in Profile B the value
    written depends on the register index. *)
Theorem write_integer_service :
  (forall reg s, 0 <= reg < 17 ->
     Mipt32.syscall reg 102 s
     = Ret tt (printed32 s (PrintInt (to_int (Mipt32.regs s reg)))))
  /\ (forall rd rs s, 0 <= rd < 30 ->
     Mipt64.svc rd rs 102 s
     = Ret tt (printed64 s (PrintInt (to_llong (Mipt64.regs s rd)))))
  /\ (forall rd rs s, rd = 30 \/ rd = 31 ->
     Mipt64.svc rd rs 102 s
     = Ret tt (printed64 s (PrintInt (to_llong (w64 (Mipt64.regs s rd / 2 + 4)))))).
Proof.
  split; [| split].
  - intros reg s H. unfold Mipt32.syscall.
    rewrite (bind_ret _ _ _ _ _ (greg32_ok reg s H)). reflexivity.
  - intros rd rs s H. unfold Mipt64.svc.
    rewrite (bind_ret _ _ _ _ _ (greg64_ok rd s ltac:(lia))).
    replace ((rd =? 31) || (rd =? 30)) with false by lia.
    reflexivity.
  - intros rd rs s H. unfold Mipt64.svc.
    rewrite (bind_ret _ _ _ _ _ (greg64_ok rd s ltac:(lia))).
    replace ((rd =? 31) || (rd =? 30)) with true by lia.
    reflexivity.
Qed.

Lemma write_integer_service_witness :
  Mipt32.syscall 0 102 (set_reg32 (start32 []) 0 42)
  = Ret tt (printed32 (set_reg32 (start32 []) 0 42) (PrintInt 42))
  /\ Mipt64.svc 5 27 102 (set_reg64 (start64 []) 5 10)
     = Ret tt (printed64 (set_reg64 (start64 []) 5 10) (PrintInt 10))
  /\ Mipt64.svc 31 27 102 (set_reg64 (start64 []) 31 10)
     = Ret tt (printed64 (set_reg64 (start64 []) 31 10) (PrintInt 9)).
Proof.
  destruct write_integer_service as (HA & HB & HB').
  split; [| split].
  - apply (HA 0 (set_reg32 (start32 []) 0 42)). lia.
  - apply (HB 5 27 (set_reg64 (start64 []) 5 10)). lia.
  - apply (HB' 31 27 (set_reg64 (start64 []) 31 10)). right. reflexivity.
Defined.

(** ** Comparison and conditional branches *)

Lemma compare_flag_spec a b :
  (compare_flag a b = Equal <-> a = b)
  /\ (compare_flag a b = Less <-> a < b)
  /\ (compare_flag a b = Greater <-> a > b).
Proof.
  unfold compare_flag.
  destruct (Z.compare_spec a b); repeat split; intros; try discriminate; lia.
Qed.

Lemma cmp32_flag r1 r2 s :
  0 <= r1 < 17 -> 0 <= r2 < 17 ->
  Mipt32.cmp r1 r2 s
  = Ret tt (set_reg32 s 16
              (flag_code (compare_flag (Mipt32.regs s r1) (Mipt32.regs s r2)))).
Proof.
  intros H1 H2. unfold Mipt32.cmp.
  rewrite (bind_ret _ _ _ _ _ (greg32_ok r1 s H1)).
  rewrite (bind_ret _ _ _ _ _ (greg32_ok r2 s H2)).
  unfold compare_flag.
  destruct (Z.compare_spec (Mipt32.regs s r1) (Mipt32.regs s r2)) as [E | L | G].
  - rewrite E, Z.eqb_refl. reflexivity.
  - replace (_ =? _) with false by lia. replace (_ <? _) with true by lia.
    reflexivity.
  - replace (_ =? _) with false by lia. replace (_ <? _) with false by lia.
    reflexivity.
Qed.

Lemma cmpi32_flag r1 md s :
  0 <= r1 < 17 ->
  Mipt32.cmpi r1 md s
  = Ret tt (set_reg32 s 16 (flag_code (compare_flag (Mipt32.regs s r1) md))).
Proof.
  intros H1. unfold Mipt32.cmpi.
  rewrite (bind_ret _ _ _ _ _ (greg32_ok r1 s H1)).
  unfold compare_flag.
  destruct (Z.compare_spec (Mipt32.regs s r1) md) as [E | L | G].
  - rewrite E, Z.eqb_refl. reflexivity.
  - replace (_ =? _) with false by lia. replace (_ <? _) with true by lia.
    reflexivity.
  - replace (_ =? _) with false by lia. replace (_ <? _) with false by lia.
    reflexivity.
Qed.

Lemma cmp64_flag rd rs imm s :
  0 <= rd < 32 -> 0 <= rs < 32 ->
  Mipt64.cmp rd rs imm s
  = Ret tt (set_reg64 s 32
              (flag_code (compare_flag (Mipt64.regs s rd)
                                       (w64 (Mipt64.regs s rs + imm))))).
Proof.
  intros H1 H2. unfold Mipt64.cmp, Mipt64.dword.
  set (a := Mipt64.regs s rd). set (b := w64 (Mipt64.regs s rs + imm)).
  assert (Hget : forall r v, 0 <= r < 32 ->
            Mipt64.greg r (set_reg64 s 32 v) = Ret (Mipt64.regs s r) (set_reg64 s 32 v)).
  { intros r v Hr. rewrite greg64_ok by lia. simpl. rewrite upd64_other by lia.
    reflexivity. }
  rewrite (bind_ret _ _ _ _ _ (greg64_ok rd s ltac:(lia))).
  rewrite (bind_ret _ _ _ _ _ (greg64_ok rs s ltac:(lia))).
  fold a b. unfold compare_flag.
  destruct (Z.compare_spec a b) as [E | L | G].
  - replace (a =? b) with true by lia.
    rewrite (bind_ret _ _ _ _ _ (sreg64_ok 32 0 s ltac:(lia))).
    rewrite (bind_ret _ _ _ _ _ (Hget rd 0 H1)).
    rewrite (bind_ret _ _ _ _ _ (Hget rs 0 H2)).
    fold a b. replace (a <? b) with false by lia.
    unfold bind at 1. unfold ret at 1.
    rewrite (bind_ret _ _ _ _ _ (Hget rd 0 H1)).
    rewrite (bind_ret _ _ _ _ _ (Hget rs 0 H2)).
    fold a b. replace (b <? a) with false by lia. reflexivity.
  - replace (a =? b) with false by lia.
    unfold bind at 1. unfold ret at 1.
    rewrite (bind_ret _ _ _ _ _ (greg64_ok rd s ltac:(lia))).
    rewrite (bind_ret _ _ _ _ _ (greg64_ok rs s ltac:(lia))).
    fold a b. replace (a <? b) with true by lia.
    rewrite (bind_ret _ _ _ _ _ (sreg64_ok 32 1 s ltac:(lia))).
    rewrite (bind_ret _ _ _ _ _ (Hget rd 1 H1)).
    rewrite (bind_ret _ _ _ _ _ (Hget rs 1 H2)).
    fold a b. replace (b <? a) with false by lia. reflexivity.
  - replace (a =? b) with false by lia.
    unfold bind at 1. unfold ret at 1.
    rewrite (bind_ret _ _ _ _ _ (greg64_ok rd s ltac:(lia))).
    rewrite (bind_ret _ _ _ _ _ (greg64_ok rs s ltac:(lia))).
    fold a b. replace (a <? b) with false by lia.
    unfold bind at 1. unfold ret at 1.
    rewrite (bind_ret _ _ _ _ _ (greg64_ok rd s ltac:(lia))).
    rewrite (bind_ret _ _ _ _ _ (greg64_ok rs s ltac:(lia))).
    fold a b. replace (b <? a) with true by lia.
    apply sreg64_ok. lia.
Qed.

Lemma cond_jump_fires j f tail s :
  Mipt32.regs s 16 = flag_code f ->
  jump_op j tail s
  = Ret tt (if branches_on j f
            then set_reg32 s 15 (w64 (tail - 1))
            else s).
Proof.
  intros Hf.
  destruct j; cbn [jump_op];
    unfold Mipt32.jne, Mipt32.jeq, Mipt32.jle, Mipt32.jl, Mipt32.jge, Mipt32.jg;
    rewrite (bind_ret _ _ _ _ _ (greg32_ok 16 s ltac:(lia)));
    rewrite Hf; destruct f; reflexivity.
Qed.

(** C3. The integer compare operations ([cmp], [cmpi] of Profile A, [cmp]
    of Profile B, which compares with source register plus immediate) set
    the flag register to the code of Equal exactly when the first operand
    equals the second, of Less exactly when it is less, of Greater exactly
    when it is greater, the operands being the unsigned register words; and
    each of [jne], [jeq], [jle], [jl], [jge], [jg] writes its target into
    the program counter exactly when the flag satisfies its predicate and
    otherwise leaves the whole state as it was. *)
Theorem compare_branch_consistency :
  (forall a b,
     (compare_flag a b = Equal <-> a = b)
     /\ (compare_flag a b = Less <-> a < b)
     /\ (compare_flag a b = Greater <-> a > b))
  /\ (forall r1 r2 s, 0 <= r1 < 17 -> 0 <= r2 < 17 ->
     Mipt32.cmp r1 r2 s
     = Ret tt (set_reg32 s 16
                 (flag_code (compare_flag (Mipt32.regs s r1) (Mipt32.regs s r2)))))
  /\ (forall r1 md s, 0 <= r1 < 17 ->
     Mipt32.cmpi r1 md s
     = Ret tt (set_reg32 s 16 (flag_code (compare_flag (Mipt32.regs s r1) md))))
  /\ (forall rd rs imm s, 0 <= rd < 32 -> 0 <= rs < 32 ->
     Mipt64.cmp rd rs imm s
     = Ret tt (set_reg64 s 32
                 (flag_code (compare_flag (Mipt64.regs s rd)
                                          (w64 (Mipt64.regs s rs + imm))))))
  /\ (forall j f tail s, Mipt32.regs s 16 = flag_code f ->
     jump_op j tail s
     = Ret tt (if branches_on j f then set_reg32 s 15 (w64 (tail - 1)) else s)).
Proof.
  split; [exact compare_flag_spec |].
  split; [exact cmp32_flag |].
  split; [exact cmpi32_flag |].
  split; [exact cmp64_flag | exact cond_jump_fires].
Qed.

Lemma compare_branch_consistency_witness :
  let s := set_reg32 (set_reg32 (start32 []) 1 3) 2 7 in
  Mipt32.cmp 1 2 s = Ret tt (set_reg32 s 16 1)
  /\ Mipt32.cmpi 2 7 s = Ret tt (set_reg32 s 16 0)
  /\ Mipt64.cmp 1 2 4 (set_reg64 (start64 []) 1 9)
     = Ret tt (set_reg64 (set_reg64 (start64 []) 1 9) 32 2)
  /\ jump_op JL 100 (set_reg32 s 16 1)
     = Ret tt (set_reg32 (set_reg32 s 16 1) 15 99)
  /\ jump_op JG 100 (set_reg32 s 16 1) = Ret tt (set_reg32 s 16 1).
Proof.
  intros s.
  destruct compare_branch_consistency as (_ & Hcmp & Hcmpi & Hcmp64 & Hj).
  split; [| split; [| split; [| split]]].
  - apply (Hcmp 1 2 s); lia.
  - apply (Hcmpi 2 7 s); lia.
  - apply (Hcmp64 1 2 4 (set_reg64 (start64 []) 1 9)); lia.
  - apply (Hj JL Less 100 (set_reg32 s 16 1)). reflexivity.
  - apply (Hj JG Less 100 (set_reg32 s 16 1)). reflexivity.
Defined.

(** ** The stack *)

Lemma push_stack32_ok val s :
  1 <= Mipt32.regs s 14 <= Mipt32.MEMSIZE ->
  Mipt32.push_stack val s
  = Ret tt (set_mem32 (set_reg32 s 14 (Mipt32.regs s 14 - 1))
                      (Mipt32.regs s 14 - 1) val).
Proof.
  intros H. unfold Mipt32.push_stack, Mipt32.word.
  rewrite (bind_ret _ _ _ _ _ (greg32_ok 14 s ltac:(lia))).
  rewrite (bind_ret _ _ _ _ _ (sreg32_ok 14 _ s ltac:(lia))).
  rewrite (bind_ret _ _ _ _ _ (greg32_ok 14 _ ltac:(lia))).
  cbn [set_reg32 Mipt32.regs]. rewrite upd_same.
  rewrite w64_small by (unfold Mipt32.MEMSIZE in H; lia).
  unfold Mipt32.smem. in_range. reflexivity.
Qed.

Lemma pop_stack32_ok x s :
  0 <= Mipt32.regs s 14 < Mipt32.MEMSIZE ->
  Mipt32.pop_stack x s
  = Ret (Mipt32.mem s (Mipt32.regs s 14))
        (set_reg32 s 14 (w64 (Mipt32.regs s 14 + x))).
Proof.
  intros H. unfold Mipt32.pop_stack, Mipt32.word.
  rewrite (bind_ret _ _ _ _ _ (greg32_ok 14 s ltac:(lia))).
  unfold Mipt32.gmem at 1. unfold bind at 1. in_range.
  rewrite (bind_ret _ _ _ _ _ (greg32_ok 14 s ltac:(lia))).
  rewrite (bind_ret _ _ _ _ _ (sreg32_ok 14 _ s ltac:(lia))).
  reflexivity.
Qed.

Lemma push_stack64_ok val x s :
  0 <= x <= Mipt64.regs s 29 -> Mipt64.regs s 29 - x + 8 <= Mipt64.MEMSIZE ->
  Mipt64.push_stack val x s
  = Mipt64.smem (Mipt64.regs s 29 - x) val (set_reg64 s 29 (Mipt64.regs s 29 - x)).
Proof.
  intros H H'. unfold Mipt64.push_stack, Mipt64.dword.
  rewrite (bind_ret _ _ _ _ _ (greg64_ok 29 s ltac:(lia))).
  rewrite (bind_ret _ _ _ _ _ (sreg64_ok 29 _ s ltac:(lia))).
  rewrite (bind_ret _ _ _ _ _ (greg64_ok 29 _ ltac:(lia))).
  cbn [set_reg64 Mipt64.regs]. rewrite upd64_same.
  rewrite w64_small by (unfold Mipt64.MEMSIZE in H'; lia).
  reflexivity.
Qed.

Lemma pop_stack64_ok x s :
  0 <= Mipt64.regs s 29 -> Mipt64.regs s 29 + 8 <= Mipt64.MEMSIZE ->
  Mipt64.pop_stack x s
  = Ret (Mipt64.load_le 8 (Mipt64.mem s) (Mipt64.regs s 29))
        (set_reg64 s 29 (w64 (Mipt64.regs s 29 + x))).
Proof.
  intros H H'. unfold Mipt64.pop_stack, Mipt64.dword.
  rewrite (bind_ret _ _ _ _ _ (greg64_ok 29 s ltac:(lia))).
  unfold Mipt64.gmem at 1. unfold bind at 1.
  replace ((0 <=? Mipt64.regs s 29) && (Mipt64.regs s 29 + 8 <=? Mipt64.MEMSIZE))
    with true by lia.
  rewrite (bind_ret _ _ _ _ _ (greg64_ok 29 s ltac:(lia))).
  rewrite (bind_ret _ _ _ _ _ (sreg64_ok 29 _ s ltac:(lia))).
  reflexivity.
Qed.

(** ** The fetch/dispatch loop and the program counter *)

Lemma emulate_step32_adds_one fpu junk s s1 :
  0 <= Mipt32.regs s 15 < Mipt32.MEMSIZE ->
  let row_com := Mipt32.mem s (Mipt32.regs s 15) in
  Mipt32.switch_c fpu junk (Mipt32.tf8 row_com) (Mipt32.tl24 row_com) s = Ret tt s1 ->
  Mipt32.emulate_step fpu junk s
  = Ret tt (set_reg32 s1 15 (w64 (Mipt32.regs s1 15 + 1))).
Proof.
  intros Hpc row_com Hsw. unfold Mipt32.emulate_step, Mipt32.word.
  rewrite (bind_ret _ _ _ _ _ (greg32_ok 15 s ltac:(lia))).
  unfold Mipt32.gmem at 1. unfold bind at 1. in_range.
  fold row_com. rewrite (bind_ret _ _ _ _ _ Hsw).
  rewrite (bind_ret _ _ _ _ _ (greg32_ok 15 s1 ltac:(lia))).
  apply sreg32_ok. lia.
Qed.

Lemma emulate_step64_adds_eight fpu s s1 :
  0 <= Mipt64.regs s 31 -> Mipt64.regs s 31 + 8 <= Mipt64.MEMSIZE ->
  let row_com := Mipt64.load_le 8 (Mipt64.mem s) (Mipt64.regs s 31) in
  Mipt64.switch_c fpu row_com s = Ret tt s1 ->
  Mipt64.emulate_step fpu s
  = Ret tt (set_reg64 s1 31 (w64 (Mipt64.regs s1 31 + 8))).
Proof.
  intros Hpc Hpc' row_com Hsw. unfold Mipt64.emulate_step, Mipt64.dword.
  rewrite (bind_ret _ _ _ _ _ (greg64_ok 31 s ltac:(lia))).
  unfold Mipt64.gmem at 1. unfold bind at 1.
  replace ((0 <=? Mipt64.regs s 31) && (Mipt64.regs s 31 + 8 <=? Mipt64.MEMSIZE))
    with true by lia.
  fold row_com. rewrite (bind_ret _ _ _ _ _ Hsw).
  rewrite (bind_ret _ _ _ _ _ (greg64_ok 31 s1 ltac:(lia))).
  apply sreg64_ok. lia.
Qed.

Lemma calli_target tail s :
  1 <= Mipt32.regs s 14 <= Mipt32.MEMSIZE ->
  exists s', Mipt32.calli tail s = Ret tt s'
             /\ Mipt32.regs s' 15 = w64 (tail - 1)
             /\ Mipt32.mem s' (Mipt32.regs s' 14) = w64 (Mipt32.regs s 15 + 1).
Proof.
  intros H. unfold Mipt32.calli, Mipt32.word.
  rewrite (bind_ret _ _ _ _ _ (greg32_ok 15 s ltac:(lia))).
  rewrite (bind_ret _ _ _ _ _ (push_stack32_ok _ s H)).
  rewrite sreg32_ok by lia.
  eexists. split; [reflexivity |]. cbn.
  rewrite ?upd_same. split; reflexivity.
Qed.

Lemma call_target r1 r2 md s :
  0 <= r1 < 17 -> r1 <> 15 -> 0 <= r2 < 17 -> r2 <> 14 ->
  1 <= Mipt32.regs s 14 <= Mipt32.MEMSIZE ->
  exists s', Mipt32.call r1 r2 md s = Ret tt s'
             /\ Mipt32.regs s' 15 = w64 (Mipt32.regs s r2 + md - 1).
Proof.
  intros H1 H1' H2 H2' Hsp. unfold Mipt32.call, Mipt32.word.
  rewrite (bind_ret _ _ _ _ _ (greg32_ok 15 s ltac:(lia))).
  rewrite (bind_ret _ _ _ _ _ (push_stack32_ok _ s Hsp)).
  rewrite (bind_ret _ _ _ _ _ (greg32_ok r2 _ H2)).
  rewrite (bind_ret _ _ _ _ _ (sreg32_ok 15 _ _ ltac:(lia))).
  rewrite (bind_ret _ _ _ _ _ (greg32_ok 14 _ ltac:(lia))).
  rewrite sreg32_ok by lia.
  eexists. split; [reflexivity |]. cbn.
  rewrite (upd_other _ r1) by lia. rewrite upd_same.
  unfold Mipt32.upd. destruct (Z.eqb_spec r2 14); [contradiction | reflexivity].
Qed.

Lemma ret_target md s :
  0 <= Mipt32.regs s 14 < Mipt32.MEMSIZE ->
  exists s', Mipt32.ret_ md s = Ret tt s'
             /\ Mipt32.regs s' 15 = w64 (Mipt32.mem s (Mipt32.regs s 14) - 1).
Proof.
  intros H. unfold Mipt32.ret_, Mipt32.word.
  rewrite (bind_ret _ _ _ _ _ (pop_stack32_ok _ s H)).
  rewrite sreg32_ok by lia.
  eexists. split; [reflexivity |]. cbn. rewrite ?upd_same. reflexivity.
Qed.

Lemma bl_writes ra imm s :
  exists s', Mipt64.bl ra imm s = Ret tt s'
    /\ Mipt64.regs s' 30 = Mipt64.regs s 31
    /\ (ra = 27 -> Mipt64.regs s' 31 = imm)
    /\ (ra <> 27 -> 0 <= imm < 2 ^ 20 ->
        Mipt64.regs s' 31 = w64 (Mipt64.regs s 31 - imm)).
Proof.
  unfold Mipt64.bl, Mipt64.dword.
  rewrite (bind_ret _ _ _ _ _ (greg64_ok 31 s ltac:(lia))).
  rewrite (bind_ret _ _ _ _ _ (sreg64_ok 30 _ s ltac:(lia))).
  destruct (Z.eqb_spec ra 27) as [E | NE].
  - rewrite sreg64_ok by lia. eexists. split; [reflexivity |]. cbn.
    repeat split; congruence.
  - destruct (Z.eqb_spec (Z.shiftr imm 20 mod 2) 1) as [E1 | NE1].
    + rewrite (bind_ret _ _ _ _ _ (greg64_ok 31 _ ltac:(lia))).
      rewrite sreg64_ok by lia. eexists. split; [reflexivity |]. cbn.
      split; [reflexivity |]. split; [congruence |].
      intros _ Himm. exfalso.
      rewrite Z.shiftr_div_pow2 in E1 by lia.
      rewrite Z.div_small in E1 by lia. discriminate E1.
    + rewrite (bind_ret _ _ _ _ _ (greg64_ok 31 _ ltac:(lia))).
      rewrite sreg64_ok by lia. eexists. split; [reflexivity |]. cbn.
      split; [reflexivity |]. split; [congruence |].
      intros _ _. reflexivity.
Qed.

Lemma tl24_range x : 0 <= Mipt32.tl24 x < 2 ^ 24.
Proof.
  unfold Mipt32.tl24. change Mipt32.l24 with (Z.ones 24).
  rewrite Z.land_ones by lia. apply Z.mod_pos_bound. lia.
Qed.

Lemma jmp_writes tail s :
  Mipt32.jmp tail s = Ret tt (set_reg32 s 15 (w64 (tail - 1))).
Proof. unfold Mipt32.jmp. apply sreg32_ok. lia. Qed.

Lemma emulate_step32_jmp fpu junk s :
  0 <= Mipt32.regs s 15 < Mipt32.MEMSIZE ->
  let row_com := Mipt32.mem s (Mipt32.regs s 15) in
  Mipt32.tf8 row_com = 46 ->
  exists s', Mipt32.emulate_step fpu junk s = Ret tt s'
             /\ Mipt32.regs s' 15 = Mipt32.tl24 row_com.
Proof.
  intros Hpc row_com Hop.
  assert (Hsw : Mipt32.switch_c fpu junk (Mipt32.tf8 row_com) (Mipt32.tl24 row_com) s
                = Ret tt (set_reg32 s 15 (w64 (Mipt32.tl24 row_com - 1)))).
  { rewrite Hop. destruct junk as [[j1 j2] j3]. apply jmp_writes. }
  rewrite (emulate_step32_adds_one fpu junk s _ Hpc Hsw).
  eexists. split; [reflexivity |]. cbn. rewrite ?upd_same.
  rewrite w64_pred_succ. apply w64_small.
  pose proof (tl24_range row_com). lia.
Qed.

Lemma t21_31_range x : 0 <= Mipt64.t21_31 x < 2 ^ 11.
Proof.
  unfold Mipt64.t21_31. change Mipt64.m21_31 with (Z.ones 11).
  rewrite Z.land_ones by lia. apply Z.mod_pos_bound. lia.
Qed.

Lemma emulate_step64_bl fpu s :
  0 <= Mipt64.regs s 31 -> Mipt64.regs s 31 + 8 <= Mipt64.MEMSIZE ->
  let row_com := Mipt64.load_le 8 (Mipt64.mem s) (Mipt64.regs s 31) in
  Mipt64.t0_5 row_com = 19 -> Mipt64.t6_10 row_com = 27 ->
  exists s', Mipt64.emulate_step fpu s = Ret tt s'
             /\ Mipt64.regs s' 31 = Mipt64.t21_31 row_com + 8
             /\ Mipt64.regs s' 30 = Mipt64.regs s 31.
Proof.
  intros Hpc Hpc' row_com Hop Hra.
  destruct (bl_writes 27 (Mipt64.t21_31 row_com) s) as (s1 & Hbl & Hlr & Habs & _).
  assert (Hsw : Mipt64.switch_c fpu row_com s = Ret tt s1).
  { unfold Mipt64.switch_c, Mipt64.decode. rewrite Hop. cbn [Mipt64.TYPE].
    rewrite Hra. cbn. exact Hbl. }
  rewrite (emulate_step64_adds_eight fpu s s1 Hpc Hpc' Hsw).
  eexists. split; [reflexivity |]. cbn [set_reg64 Mipt64.regs].
  rewrite upd64_same, upd64_other by lia.
  rewrite Habs by reflexivity. split; [| exact Hlr].
  apply w64_small. pose proof (t21_31_range row_com). lia.
Qed.

(** C2. One iteration of the engine's loop fetches, dispatches and then adds
    one unit (1 in Profile A, 8 in Profile B) to the program counter the
    dispatched operation left behind, whether or not that operation wrote
    it.  The control transfers of Profile A ([jmp], a conditional jump that
    fires, [calli], [call], [ret]) write their target minus 1, and an
    iteration that executes [jmp T] ends with the program counter at [T].
    Profile B's [bl] writes its operand (absolute form) or the program
    counter minus the operand (relative form), so the next fetch is 8 bytes
    above the value written: an iteration that executes the absolute [bl]
    with operand [w] ends with the program counter at [w + 8]. *)
Theorem program_counter_post_increment :
  (forall fpu junk s s1,
     0 <= Mipt32.regs s 15 < Mipt32.MEMSIZE ->
     let row_com := Mipt32.mem s (Mipt32.regs s 15) in
     Mipt32.switch_c fpu junk (Mipt32.tf8 row_com) (Mipt32.tl24 row_com) s = Ret tt s1 ->
     Mipt32.emulate_step fpu junk s
     = Ret tt (set_reg32 s1 15 (w64 (Mipt32.regs s1 15 + 1))))
  /\ (forall fpu s s1,
     0 <= Mipt64.regs s 31 -> Mipt64.regs s 31 + 8 <= Mipt64.MEMSIZE ->
     let row_com := Mipt64.load_le 8 (Mipt64.mem s) (Mipt64.regs s 31) in
     Mipt64.switch_c fpu row_com s = Ret tt s1 ->
     Mipt64.emulate_step fpu s
     = Ret tt (set_reg64 s1 31 (w64 (Mipt64.regs s1 31 + 8))))
  /\ (forall T s,
     Mipt32.jmp T s = Ret tt (set_reg32 s 15 (w64 (T - 1))))
  /\ (forall j f T s,
     Mipt32.regs s 16 = flag_code f -> branches_on j f = true ->
     jump_op j T s = Ret tt (set_reg32 s 15 (w64 (T - 1))))
  /\ (forall T s,
     1 <= Mipt32.regs s 14 <= Mipt32.MEMSIZE ->
     exists s', Mipt32.calli T s = Ret tt s'
                /\ Mipt32.regs s' 15 = w64 (T - 1)
                /\ Mipt32.mem s' (Mipt32.regs s' 14) = w64 (Mipt32.regs s 15 + 1))
  /\ (forall r1 r2 md s,
     0 <= r1 < 17 -> r1 <> 15 -> 0 <= r2 < 17 -> r2 <> 14 ->
     1 <= Mipt32.regs s 14 <= Mipt32.MEMSIZE ->
     exists s', Mipt32.call r1 r2 md s = Ret tt s'
                /\ Mipt32.regs s' 15 = w64 (Mipt32.regs s r2 + md - 1))
  /\ (forall md s,
     0 <= Mipt32.regs s 14 < Mipt32.MEMSIZE ->
     exists s', Mipt32.ret_ md s = Ret tt s'
                /\ Mipt32.regs s' 15 = w64 (Mipt32.mem s (Mipt32.regs s 14) - 1))
  /\ (forall T, w64 (w64 (T - 1) + 1) = w64 T)
  /\ (forall fpu junk s,
     0 <= Mipt32.regs s 15 < Mipt32.MEMSIZE ->
     let row_com := Mipt32.mem s (Mipt32.regs s 15) in
     Mipt32.tf8 row_com = 46 ->
     exists s', Mipt32.emulate_step fpu junk s = Ret tt s'
                /\ Mipt32.regs s' 15 = Mipt32.tl24 row_com)
  /\ (forall ra imm s,
     exists s', Mipt64.bl ra imm s = Ret tt s'
       /\ Mipt64.regs s' 30 = Mipt64.regs s 31
       /\ (ra = 27 -> Mipt64.regs s' 31 = imm)
       /\ (ra <> 27 -> 0 <= imm < 2 ^ 20 ->
           Mipt64.regs s' 31 = w64 (Mipt64.regs s 31 - imm)))
  /\ (forall fpu s,
     0 <= Mipt64.regs s 31 -> Mipt64.regs s 31 + 8 <= Mipt64.MEMSIZE ->
     let row_com := Mipt64.load_le 8 (Mipt64.mem s) (Mipt64.regs s 31) in
     Mipt64.t0_5 row_com = 19 -> Mipt64.t6_10 row_com = 27 ->
     exists s', Mipt64.emulate_step fpu s = Ret tt s'
                /\ Mipt64.regs s' 31 = Mipt64.t21_31 row_com + 8
                /\ Mipt64.regs s' 30 = Mipt64.regs s 31)
  /\ (forall T, w64 (w64 (T - 8) + 8) = w64 T).
Proof.
  split; [exact emulate_step32_adds_one |].
  split; [exact emulate_step64_adds_eight |].
  split; [exact jmp_writes |].
  split.
  { intros j f T s Hf Hb. rewrite (cond_jump_fires j f T s Hf), Hb. reflexivity. }
  split; [exact calli_target |].
  split; [exact call_target |].
  split; [exact ret_target |].
  split; [exact w64_pred_succ |].
  split; [exact emulate_step32_jmp |].
  split; [exact bl_writes |].
  split; [exact emulate_step64_bl |].
  intros T. apply w64_sub_add.
Qed.

Lemma program_counter_post_increment_witness :
  let jmp5 := Z.lor (Z.shiftl 46 24) 5 in
  let s := set_mem32 (start32 []) 0 jmp5 in
  let add5 := Z.lor (Z.lor (Z.shiftl 2 26) (Z.shiftl 1 21)) (Z.lor (Z.shiftl 27 16) 5) in
  let t := Mipt64.mkState (Mipt64.store_le 8 (fun _ => 0) 0 add5) (fun _ => 0) [] [] in
  Mipt32.emulate_step null_fpu (0, 0, 0) s
  = Ret tt (set_reg32 (set_reg32 s 15 (w64 (5 - 1))) 15 5)
  /\ Mipt64.emulate_step null_fpu t = Ret tt (set_reg64 (set_reg64 t 1 5) 31 8)
  /\ (exists s', Mipt32.calli 9 (set_reg32 s 14 (Mipt32.MEMSIZE - 1)) = Ret tt s'
                 /\ Mipt32.regs s' 15 = 8
                 /\ Mipt32.mem s' (Mipt32.regs s' 14) = 1).
Proof.
  intros jmp5 s add5 t.
  destruct program_counter_post_increment
    as (HA & HB & _ & _ & Hcalli & _).
  split; [| split].
  - apply (HA null_fpu (0, 0, 0) s (set_reg32 s 15 (w64 (5 - 1)))).
    + vm_compute. split; [discriminate | reflexivity].
    + reflexivity.
  - apply (HB null_fpu t (set_reg64 t 1 5)).
    + vm_compute. discriminate.
    + vm_compute. discriminate.
    + reflexivity.
  - apply (Hcalli 9 (set_reg32 s 14 (Mipt32.MEMSIZE - 1))).
    vm_compute. split; discriminate.
Defined.

(** ** Stack discipline *)

Lemma pushes32_ok : forall vals s,
  Z.of_nat (length vals) <= Mipt32.regs s 14 <= Mipt32.MEMSIZE ->
  exists s1,
    pushes32 vals s = Ret tt s1
    /\ Mipt32.regs s1 14 = Mipt32.regs s 14 - Z.of_nat (length vals)
    /\ (forall (i : nat) v, rev vals !! i = Some v ->
          Mipt32.mem s1 (Mipt32.regs s1 14 + Z.of_nat i) = v)
    /\ (forall a, Mipt32.regs s 14 <= a -> Mipt32.mem s1 a = Mipt32.mem s a).
Proof.
  induction vals as [| v vals IH]; intros s H.
  - exists s. cbn. repeat split.
    + lia.
    + intros i w Hi. destruct i; discriminate Hi.
  - cbn [pushes32 length] in *.
    rewrite (bind_ret _ _ _ _ _ (push_stack32_ok v s ltac:(lia))).
    set (sp := Mipt32.regs s 14) in *.
    set (s0 := set_mem32 (set_reg32 s 14 (sp - 1)) (sp - 1) v).
    assert (Hsp0 : Mipt32.regs s0 14 = sp - 1) by reflexivity.
    destruct (IH s0) as (s1 & Hrun & Hsp1 & Hvals & Hframe); [rewrite Hsp0; lia |].
    exists s1. rewrite Hsp0 in *.
    split; [exact Hrun |]. split; [lia |]. split.
    + intros i w Hi. cbn [rev] in Hi.
      destruct (decide (i < length (rev vals))%nat) as [Hlt | Hge].
      * rewrite lookup_app_l in Hi by exact Hlt. apply Hvals. exact Hi.
      * rewrite lookup_app_r in Hi by lia.
        rewrite length_rev in *.
        destruct (i - length vals)%nat eqn:E; [| destruct n; discriminate Hi].
        injection Hi as <-.
        replace (Mipt32.regs s1 14 + Z.of_nat i) with (sp - 1) by lia.
        rewrite Hframe by lia.
        cbn [s0 set_mem32 set_reg32 Mipt32.mem]. apply upd_same.
    + intros a Ha. rewrite Hframe by lia.
      cbn [s0 set_mem32 set_reg32 Mipt32.mem]. apply upd_other. lia.
Qed.

Lemma pops32_ok : forall n s,
  0 <= Mipt32.regs s 14 -> Mipt32.regs s 14 + Z.of_nat n <= Mipt32.MEMSIZE ->
  exists l s1,
    pops32 n s = Ret l s1
    /\ Mipt32.regs s1 14 = Mipt32.regs s 14 + Z.of_nat n
    /\ length l = n
    /\ (forall i, (i < n)%nat ->
          l !! i = Some (Mipt32.mem s (Mipt32.regs s 14 + Z.of_nat i))).
Proof.
  induction n as [| n IH]; intros s H0 H1.
  - exists [], s. cbn. repeat split; [lia | intros i Hi; lia].
  - cbn [pops32].
    rewrite (bind_ret _ _ _ _ _ (pop_stack32_ok 1 s ltac:(lia))).
    set (sp := Mipt32.regs s 14) in *.
    rewrite (w64_small (sp + 1)) by (unfold Mipt32.MEMSIZE in H1; lia).
    set (s0 := set_reg32 s 14 (sp + 1)).
    assert (Hsp0 : Mipt32.regs s0 14 = sp + 1) by reflexivity.
    destruct (IH s0) as (l & s1 & Hrun & Hsp1 & Hlen & Hl);
      [rewrite Hsp0; lia | rewrite Hsp0; lia |].
    rewrite (bind_ret _ _ _ _ _ Hrun).
    exists (Mipt32.mem s sp :: l), s1. rewrite Hsp0 in *.
    split; [reflexivity |]. split; [lia |]. split; [cbn; lia |].
    intros i Hi. destruct i as [| i]; cbn.
    + f_equal. f_equal. lia.
    + rewrite Hl by lia. f_equal. cbn. f_equal. lia.
Qed.

Lemma smem64_ok adr val s :
  0 <= adr -> adr + 8 <= Mipt64.MEMSIZE ->
  Mipt64.smem adr val s = Ret tt (set_mem64 s adr val).
Proof.
  intros H0 H8. unfold Mipt64.smem.
  replace ((0 <=? adr) && (adr + 8 <=? Mipt64.MEMSIZE)) with true by lia.
  reflexivity.
Qed.

Lemma set_mem64_other s adr val x :
  x < adr \/ adr + 8 <= x ->
  Mipt64.mem (set_mem64 s adr val) x = Mipt64.mem s x.
Proof.
  intros Hx. cbn [set_mem64 Mipt64.mem]. rewrite smem_low_byte.
  apply load_store_other. simpl. lia.
Qed.

Lemma set_mem64_load s adr val :
  0 <= val < 2 ^ 64 ->
  Mipt64.load_le 8 (Mipt64.mem (set_mem64 s adr val)) adr = val.
Proof.
  intros Hval. cbn [set_mem64 Mipt64.mem].
  rewrite (load_le_ext 8 _ (Mipt64.store_le 8 (Mipt64.mem s) adr val))
    by (intros; apply smem_low_byte).
  rewrite load_store_same. apply Z.mod_small. simpl. lia.
Qed.

Lemma pushes64_ok : forall vals s,
  Forall (fun v => 0 <= v < 2 ^ 64) vals ->
  8 * Z.of_nat (length vals) <= Mipt64.regs s 29 <= Mipt64.MEMSIZE ->
  exists s1,
    pushes64 vals s = Ret tt s1
    /\ Mipt64.regs s1 29 = Mipt64.regs s 29 - 8 * Z.of_nat (length vals)
    /\ (forall (i : nat) v, rev vals !! i = Some v ->
          Mipt64.load_le 8 (Mipt64.mem s1) (Mipt64.regs s1 29 + 8 * Z.of_nat i) = v)
    /\ (forall a, Mipt64.regs s 29 <= a -> Mipt64.mem s1 a = Mipt64.mem s a).
Proof.
  induction vals as [| v vals IH]; intros s Hvals H.
  - exists s. cbn. repeat split.
    + lia.
    + intros i w Hi. destruct i; discriminate Hi.
  - cbn [pushes64 length] in *.
    apply Forall_cons in Hvals as [Hv Hvals].
    set (sp := Mipt64.regs s 29) in *.
    rewrite (bind_ret _ _ _ tt (set_mem64 (set_reg64 s 29 (sp - 8)) (sp - 8) v)).
    2:{ rewrite push_stack64_ok by (fold sp; lia). fold sp.
        apply smem64_ok; lia. }
    set (s0 := set_mem64 (set_reg64 s 29 (sp - 8)) (sp - 8) v).
    assert (Hsp0 : Mipt64.regs s0 29 = sp - 8) by reflexivity.
    destruct (IH s0 Hvals) as (s1 & Hrun & Hsp1 & Hlook & Hframe);
      [rewrite Hsp0; lia |].
    exists s1. rewrite Hsp0 in *.
    split; [exact Hrun |]. split; [lia |]. split.
    + intros i w Hi. cbn [rev] in Hi.
      destruct (decide (i < length (rev vals))%nat) as [Hlt | Hge].
      * rewrite lookup_app_l in Hi by exact Hlt. apply Hlook. exact Hi.
      * rewrite lookup_app_r in Hi by lia.
        rewrite length_rev in *.
        destruct (i - length vals)%nat eqn:E; [| destruct n; discriminate Hi].
        injection Hi as <-.
        replace (Mipt64.regs s1 29 + 8 * Z.of_nat i) with (sp - 8) by lia.
        rewrite (load_le_ext 8 _ (Mipt64.mem s0)).
        -- apply set_mem64_load. exact Hv.
        -- intros x Hx. apply Hframe. lia.
    + intros a Ha. rewrite Hframe by lia.
      unfold s0. rewrite set_mem64_other by lia. reflexivity.
Qed.

Lemma pops64_ok : forall n s,
  0 <= Mipt64.regs s 29 -> Mipt64.regs s 29 + 8 * Z.of_nat n <= Mipt64.MEMSIZE ->
  exists l s1,
    pops64 n s = Ret l s1
    /\ Mipt64.regs s1 29 = Mipt64.regs s 29 + 8 * Z.of_nat n
    /\ length l = n
    /\ (forall i, (i < n)%nat ->
          l !! i = Some (Mipt64.load_le 8 (Mipt64.mem s)
                           (Mipt64.regs s 29 + 8 * Z.of_nat i))).
Proof.
  induction n as [| n IH]; intros s H0 H1.
  - exists [], s. cbn. repeat split; [lia | intros i Hi; lia].
  - cbn [pops64].
    rewrite (bind_ret _ _ _ _ _ (pop_stack64_ok 8 s ltac:(lia) ltac:(lia))).
    set (sp := Mipt64.regs s 29) in *.
    rewrite (w64_small (sp + 8)) by (unfold Mipt64.MEMSIZE in H1; lia).
    set (s0 := set_reg64 s 29 (sp + 8)).
    assert (Hsp0 : Mipt64.regs s0 29 = sp + 8) by reflexivity.
    destruct (IH s0) as (l & s1 & Hrun & Hsp1 & Hlen & Hl);
      [rewrite Hsp0; lia | rewrite Hsp0; lia |].
    rewrite (bind_ret _ _ _ _ _ Hrun).
    exists (Mipt64.load_le 8 (Mipt64.mem s) sp :: l), s1. rewrite Hsp0 in *.
    split; [reflexivity |]. split; [lia |]. split; [cbn [length]; lia |].
    intros i Hi. destruct i as [| i]; cbn [lookup list_lookup].
    + f_equal. f_equal. lia.
    + rewrite Hl by lia. f_equal. cbn [s0 set_reg64 Mipt64.mem]. f_equal. lia.
Qed.

Lemma pushes_pops32 vals s :
  Z.of_nat (length vals) <= Mipt32.regs s 14 <= Mipt32.MEMSIZE ->
  exists s',
    (run pushes32 vals ;; pops32 (length vals))%machine s = Ret (rev vals) s'
    /\ Mipt32.regs s' 14 = Mipt32.regs s 14.
Proof.
  intros H.
  destruct (pushes32_ok vals s H) as (s1 & Hpush & Hsp1 & Hvals & _).
  destruct (pops32_ok (length vals) s1) as (l & s2 & Hpop & Hsp2 & Hlen & Hl);
    [lia | lia |].
  exists s2. rewrite (bind_ret _ _ _ _ _ Hpush), Hpop.
  split; [| lia]. f_equal.
  apply list_eq. intros i.
  destruct (decide (i < length vals)%nat) as [Hlt | Hge].
  - rewrite Hl by exact Hlt.
    destruct (lookup_lt_is_Some_2 (rev vals) i) as [v Hv];
      [rewrite length_rev; exact Hlt |].
    rewrite Hv. f_equal. apply Hvals. exact Hv.
  - rewrite !lookup_ge_None_2; [reflexivity | rewrite length_rev; lia | lia].
Qed.

Lemma pushes_pops64 vals s :
  Forall (fun v => 0 <= v < 2 ^ 64) vals ->
  8 * Z.of_nat (length vals) <= Mipt64.regs s 29 <= Mipt64.MEMSIZE ->
  exists s',
    (run pushes64 vals ;; pops64 (length vals))%machine s = Ret (rev vals) s'
    /\ Mipt64.regs s' 29 = Mipt64.regs s 29.
Proof.
  intros Hrange H.
  destruct (pushes64_ok vals s Hrange H) as (s1 & Hpush & Hsp1 & Hvals & _).
  destruct (pops64_ok (length vals) s1) as (l & s2 & Hpop & Hsp2 & Hlen & Hl);
    [lia | lia |].
  exists s2. rewrite (bind_ret _ _ _ _ _ Hpush), Hpop.
  split; [| lia]. f_equal.
  apply list_eq. intros i.
  destruct (decide (i < length vals)%nat) as [Hlt | Hge].
  - rewrite Hl by exact Hlt.
    destruct (lookup_lt_is_Some_2 (rev vals) i) as [v Hv];
      [rewrite length_rev; exact Hlt |].
    rewrite Hv. f_equal. apply Hvals. exact Hv.
  - rewrite !lookup_ge_None_2; [reflexivity | rewrite length_rev; lia | lia].
Qed.

(** C5. [push_stack] first lowers the stack pointer by one unit (1 word in
    Profile A, 8 bytes in Profile B) and then stores at the new pointer;
    [pop_stack] first loads at the pointer and then raises it by one unit.
    Hence [N] pushes followed by [N] pops, while the stack stays inside the
    memory, return the pushed values in reverse order and leave the stack
    pointer where it was. *)
Theorem stack_discipline :
  (forall val s,
     1 <= Mipt32.regs s 14 <= Mipt32.MEMSIZE ->
     Mipt32.push_stack val s
     = Ret tt (set_mem32 (set_reg32 s 14 (Mipt32.regs s 14 - 1))
                         (Mipt32.regs s 14 - 1) val))
  /\ (forall s,
     0 <= Mipt32.regs s 14 < Mipt32.MEMSIZE ->
     Mipt32.pop_stack 1 s
     = Ret (Mipt32.mem s (Mipt32.regs s 14))
           (set_reg32 s 14 (Mipt32.regs s 14 + 1)))
  /\ (forall val s,
     8 <= Mipt64.regs s 29 <= Mipt64.MEMSIZE ->
     Mipt64.push_stack val 8 s
     = Ret tt (set_mem64 (set_reg64 s 29 (Mipt64.regs s 29 - 8))
                         (Mipt64.regs s 29 - 8) val))
  /\ (forall s,
     0 <= Mipt64.regs s 29 -> Mipt64.regs s 29 + 8 <= Mipt64.MEMSIZE ->
     Mipt64.pop_stack 8 s
     = Ret (Mipt64.load_le 8 (Mipt64.mem s) (Mipt64.regs s 29))
           (set_reg64 s 29 (Mipt64.regs s 29 + 8)))
  /\ (forall vals s,
     Z.of_nat (length vals) <= Mipt32.regs s 14 <= Mipt32.MEMSIZE ->
     exists s',
       (run pushes32 vals ;; pops32 (length vals))%machine s = Ret (rev vals) s'
       /\ Mipt32.regs s' 14 = Mipt32.regs s 14)
  /\ (forall vals s,
     Forall (fun v => 0 <= v < 2 ^ 64) vals ->
     8 * Z.of_nat (length vals) <= Mipt64.regs s 29 <= Mipt64.MEMSIZE ->
     exists s',
       (run pushes64 vals ;; pops64 (length vals))%machine s = Ret (rev vals) s'
       /\ Mipt64.regs s' 29 = Mipt64.regs s 29).
Proof.
  split; [exact push_stack32_ok |].
  split.
  { intros s H. rewrite (pop_stack32_ok 1 s H).
    rewrite w64_small by (unfold Mipt32.MEMSIZE in H; lia). reflexivity. }
  split.
  { intros val s H. rewrite push_stack64_ok by lia. apply smem64_ok; lia. }
  split.
  { intros s H0 H8. rewrite (pop_stack64_ok 8 s H0 H8).
    rewrite w64_small by (unfold Mipt64.MEMSIZE in H8; lia). reflexivity. }
  split; [exact pushes_pops32 | exact pushes_pops64].
Qed.

Lemma stack_discipline_witness :
  let s := set_reg32 (start32 []) 14 (Mipt32.MEMSIZE - 1) in
  let t := set_reg64 (start64 []) 29 (Mipt64.MEMSIZE - 8) in
  (exists s', (run pushes32 [11; 22; 33] ;; pops32 3)%machine s = Ret [33; 22; 11] s'
              /\ Mipt32.regs s' 14 = Mipt32.MEMSIZE - 1)
  /\ (exists t', (run pushes64 [11; 2 ^ 64 - 1; 33] ;; pops64 3)%machine t
                 = Ret [33; 2 ^ 64 - 1; 11] t'
                 /\ Mipt64.regs t' 29 = Mipt64.MEMSIZE - 8).
Proof.
  intros s t.
  destruct stack_discipline as (_ & _ & _ & _ & HA & HB).
  split.
  - apply (HA [11; 22; 33] s). vm_compute. split; discriminate.
  - apply (HB [11; 2 ^ 64 - 1; 33] t).
    + repeat constructor; vm_compute; discriminate.
    + vm_compute. split; discriminate.
Defined.

(** ** The label pass *)

(** C1 on a failing input: two label-only lines in a row.  Erasing
    ["a:"] moves ["b:"] into slot 0, and the loop counter then steps over
    it: ["b:"] stays among the instructions and [b] is never bound, in
    both profiles. *)
Theorem label_pass_skips_shifted_line :
  (exists label,
     Mipt32.parse_labels ["a:"; "b:"; "halt 0"]%string ∅
     = Val (["b:"; "halt 0"]%string, label)
     /\ label !! "a"%string = Some 0
     /\ label !! "b"%string = None)
  /\ (exists label,
     Mipt64.parse_labels ["a:"; "b:"; "halt r0, rz, 0"]%string ∅
     = Val (["b:"; "halt r0, rz, 0"]%string, label)
     /\ label !! "a"%string = Some (2 ^ 64 - 8)
     /\ label !! "b"%string = None).
Proof.
  split.
  - exists (<["a"%string := 0]> ∅). repeat split; vm_compute; reflexivity.
  - exists (<["a"%string := 2 ^ 64 - 8]> ∅). repeat split; vm_compute; reflexivity.
Qed.

Lemma parse_labels64_inv : forall fuel i cur lab out label,
  0 <= i ->
  Mipt64.parse_labels_loop fuel i cur lab = Val (out, label) ->
  (forall p, (p < Z.to_nat i)%nat -> out !! p = cur !! p)
  /\ (forall n v, label !! n = Some v ->
        lab !! n = Some v
        \/ exists (k j : nat) line first_part rest,
             (Z.to_nat i <= k)%nat /\ (Z.to_nat i <= j)%nat
             /\ v = w64 (8 * (Z.of_nat k - 1))
             /\ cur !! j = Some line
             /\ split line = Some (first_part :: rest)
             /\ last_char first_part = Some ":"%char
             /\ n = substr first_part 0 (len first_part - 1)
             /\ out !! k =
                  if bool_decide (rest = []) then cur !! S j
                  else Some (substr line (len first_part)
                               (len line - len first_part))).
Proof.
  induction fuel as [| fuel IH]; intros i cur lab out label Hi Hrun;
    cbn [Mipt64.parse_labels_loop] in Hrun.
  - destruct (i <? Z.of_nat (length cur)); [discriminate Hrun |].
    injection Hrun as <- <-. split; [reflexivity | intros n v Hv; left; exact Hv].
  - destruct (Z.ltb_spec i (Z.of_nat (length cur))) as [Hlt | Hge].
    2:{ injection Hrun as <- <-.
        split; [reflexivity | intros n v Hv; left; exact Hv]. }
    set (I := Z.to_nat i) in *.
    assert (HI : (I < length cur)%nat) by lia.
    destruct (cur !! I) as [line |] eqn:Hline; [| discriminate Hrun].
    destruct (INT_MAX <? i + 1); [discriminate Hrun |].
    destruct (split line) as [[| first_part rest] |] eqn:Hsplit;
      try discriminate Hrun.
    assert (HI1 : Z.to_nat (i + 1) = S I) by lia.
    case_bool_decide as Hcolon.
    + destruct (INT_MAX <? 8 * (i - 1)); [discriminate Hrun |].
      set (name := substr first_part 0 (len first_part - 1)) in *.
      case_bool_decide as Hrest.
      * (* a line holding the label alone: erased *)
        apply IH in Hrun as [Hpre Hlab]; [| lia]. rewrite HI1 in *.
        split.
        -- intros p Hp. rewrite Hpre by lia.
           apply list_lookup_delete_lt. exact Hp.
        -- intros n v Hv. apply Hlab in Hv as [Hv | Hv].
           ++ destruct (decide (name = n)) as [<- | Hne].
              ** rewrite lookup_insert_eq in Hv. injection Hv as <-.
                 right. exists I, I, line, first_part, rest.
                 repeat split; try assumption; try lia.
                 { unfold Mipt64.dword. do 3 f_equal. lia. }
                 rewrite bool_decide_true by exact Hrest.
                 rewrite Hpre by lia. apply list_lookup_delete_ge. lia.
              ** rewrite lookup_insert_ne in Hv by exact Hne. left. exact Hv.
           ++ destruct Hv as (k & j & l & fp & r & Hk & Hj & Hv & Hl & Hs & Hc & Hn & Ho).
              right. exists k, (S j), l, fp, r.
              rewrite list_lookup_delete_ge in Hl by lia.
              rewrite list_lookup_delete_ge in Ho by lia.
              repeat split; try assumption; lia.
      * (* a label followed by an instruction: the prefix is stripped *)
        apply IH in Hrun as [Hpre Hlab]; [| lia]. rewrite HI1 in *.
        split.
        -- intros p Hp. rewrite Hpre by lia.
           apply list_lookup_insert_ne. lia.
        -- intros n v Hv. apply Hlab in Hv as [Hv | Hv].
           ++ destruct (decide (name = n)) as [<- | Hne].
              ** rewrite lookup_insert_eq in Hv. injection Hv as <-.
                 right. exists I, I, line, first_part, rest.
                 repeat split; try assumption; try lia.
                 { unfold Mipt64.dword. do 3 f_equal. lia. }
                 rewrite bool_decide_false by exact Hrest.
                 rewrite Hpre by lia. apply list_lookup_insert_eq. exact HI.
              ** rewrite lookup_insert_ne in Hv by exact Hne. left. exact Hv.
           ++ destruct Hv as (k & j & l & fp & r & Hk & Hj & Hv & Hl & Hs & Hc & Hn & Ho).
              right. exists k, j, l, fp, r.
              rewrite list_lookup_insert_ne in Hl by lia.
              rewrite list_lookup_insert_ne in Ho by lia.
              repeat split; try assumption; lia.
    + (* not a label *)
      apply IH in Hrun as [Hpre Hlab]; [| lia]. rewrite HI1 in *.
      split.
      * intros p Hp. apply Hpre. lia.
      * intros n v Hv. apply Hlab in Hv as [Hv | Hv]; [left; exact Hv |].
        destruct Hv as (k & j & l & fp & r & Hk & Hj & Hv & Hrest).
        right. exists k, j, l, fp, r. repeat split; try apply Hrest; try assumption; lia.
Qed.

(** ** The recursion bounds are large enough *)

Lemma substring_length_le : forall s n m,
  (String.length (String.substring n m s) <= String.length s - n)%nat.
Proof.
  induction s as [| c s IH]; intros n m.
  - destruct n, m; cbn; lia.
  - destruct n as [| n].
    + destruct m as [| m]; cbn; [lia |]. specialize (IH 0%nat m). lia.
    + cbn. apply IH.
Qed.

Lemma find_from_nonneg c : forall s i, 0 <= i -> 0 <= find_from c s i.
Proof.
  induction s as [| a s IH]; intros i Hi; cbn.
  - unfold npos. lia.
  - destruct (Ascii.eqb a c); [exact Hi | apply IH; lia].
Qed.

Lemma split_loop_total : forall fuel command res,
  (String.length command <= fuel)%nat ->
  exists toks, split_loop fuel command res = Some toks.
Proof.
  induction fuel as [| fuel IH]; intros command res Hlen.
  - destruct command; [| cbn in Hlen; lia].
    cbn. eexists. reflexivity.
  - cbn [split_loop].
    destruct (find " " command =? find "," command) eqn:E; [eexists; reflexivity |].
    apply IH.
    assert (Hne : command <> EmptyString).
    { intros ->. cbn in E. discriminate E. }
    assert (Hpos : forall c, 0 <= find c command).
    { intros c. apply find_from_nonneg. lia. }
    assert (Hcut : forall pos count, 0 <= pos ->
              (String.length (substr command (pos + 1) count) <= fuel)%nat).
    { intros pos count Hp. unfold substr.
      pose proof (substring_length_le command (Z.to_nat (pos + 1)) (Z.to_nat count)).
      lia. }
    destruct (_ && _); apply Hcut; apply Hpos.
Qed.

Lemma split_total command : exists toks, split command = Some toks.
Proof. apply split_loop_total. lia. Qed.

Lemma parse_labels64_fuel : forall fuel i cur lab,
  0 <= i -> (length cur <= fuel + Z.to_nat i)%nat ->
  Mipt64.parse_labels_loop fuel i cur lab <> Err NoFuel.
Proof.
  induction fuel as [| fuel IH]; intros i cur lab Hi Hlen;
    cbn [Mipt64.parse_labels_loop].
  - destruct (Z.ltb_spec i (Z.of_nat (length cur))); [lia | discriminate].
  - destruct (Z.ltb_spec i (Z.of_nat (length cur))) as [Hlt | _]; [| discriminate].
    destruct (cur !! Z.to_nat i) as [line |] eqn:Hline; [| discriminate].
    destruct (INT_MAX <? i + 1); [discriminate |].
    destruct (split_total line) as [toks ->].
    destruct toks as [| first_part rest]; [discriminate |].
    assert (Hdel : length (delete (Z.to_nat i) cur) = (length cur - 1)%nat).
    { apply length_delete. rewrite Hline. eexists. reflexivity. }
    case_bool_decide.
    + destruct (INT_MAX <? 8 * (i - 1)); [discriminate |].
      case_bool_decide; apply IH; try lia.
      rewrite length_insert. lia.
    + apply IH; lia.
Qed.

(** * Further properties of the two programs *)

(** ** Bit fields of an instruction word *)

Lemma extract_field x k n :
  0 <= k -> 0 <= n ->
  Z.shiftr (Z.land x (Z.shiftl (Z.ones n) k)) k = (x / 2 ^ k) mod 2 ^ n.
Proof.
  intros Hk Hn.
  rewrite Z.shiftr_land, Z.shiftr_shiftl_l by lia.
  rewrite Z.sub_diag, Z.shiftl_0_r, Z.land_ones by lia.
  rewrite Z.shiftr_div_pow2 by lia. reflexivity.
Qed.

Lemma low_field x n : 0 <= n -> Z.land x (Z.ones n) = x mod 2 ^ n.
Proof. intros Hn. apply Z.land_ones. exact Hn. Qed.

Lemma pack_div hi lo k : 0 <= k -> 0 <= lo < 2 ^ k -> (hi * 2 ^ k + lo) / 2 ^ k = hi.
Proof.
  intros Hk Hlo. rewrite Z.add_comm, Z.div_add by lia.
  rewrite Z.div_small by lia. lia.
Qed.

Lemma pack_mod hi lo k : 0 <= k -> 0 <= lo < 2 ^ k -> (hi * 2 ^ k + lo) mod 2 ^ k = lo.
Proof.
  intros Hk Hlo. rewrite Z.add_comm, Z.mod_add by lia.
  apply Z.mod_small. lia.
Qed.

Lemma TYPE32_range t f : Mipt32.TYPE t = Some f -> 0 <= t <= 71.
Proof.
  intros H. destruct t as [| p | p]; [lia | | discriminate H].
  do 7 (try (destruct p as [p | p |]; try discriminate H)); lia.
Qed.

Lemma opcode_field op t :
  0 <= op < 256 -> 0 <= t < 2 ^ 24 ->
  Mipt32.tf8 (op * 2 ^ 24 + t) = op /\ Mipt32.tl24 (op * 2 ^ 24 + t) = t.
Proof.
  intros Hop Ht. unfold Mipt32.tf8, Mipt32.tl24.
  change Mipt32.f8 with (Z.shiftl (Z.ones 8) 24).
  change Mipt32.l24 with (Z.ones 24).
  rewrite extract_field, low_field by lia.
  rewrite pack_div, pack_mod by lia. split; [apply Z.mod_small; lia | reflexivity].
Qed.

Lemma register_field r1 m :
  0 <= r1 < 16 -> 0 <= m < 2 ^ 20 ->
  Mipt32.ts4 (r1 * 2 ^ 20 + m) = r1 /\ Mipt32.tl20 (r1 * 2 ^ 20 + m) = m.
Proof.
  intros Hr Hm. unfold Mipt32.ts4, Mipt32.tl20.
  change Mipt32.s4 with (Z.shiftl (Z.ones 4) 20).
  change Mipt32.l20 with (Z.ones 20).
  rewrite extract_field, low_field by lia.
  rewrite pack_div, pack_mod by lia. split; [apply Z.mod_small; lia | reflexivity].
Qed.

Lemma second_register_field r1 r2 md :
  0 <= r1 < 16 -> 0 <= r2 < 16 -> 0 <= md < 2 ^ 16 ->
  Mipt32.tt4 (r1 * 2 ^ 20 + (r2 * 2 ^ 16 + md)) = r2
  /\ Mipt32.tl16 (r1 * 2 ^ 20 + (r2 * 2 ^ 16 + md)) = md.
Proof.
  intros Hr1 Hr2 Hmd. unfold Mipt32.tt4, Mipt32.tl16.
  change Mipt32.t4 with (Z.shiftl (Z.ones 4) 16).
  change Mipt32.l16 with (Z.ones 16).
  rewrite extract_field, low_field by lia.
  replace (r1 * 2 ^ 20 + (r2 * 2 ^ 16 + md)) with ((r1 * 16 + r2) * 2 ^ 16 + md) by lia.
  rewrite pack_div, pack_mod by lia. split; [| reflexivity].
  rewrite Z.add_comm, Z.mod_add by lia. apply Z.mod_small. lia.
Qed.

Lemma tail_str_ok l :
  0 < len l -> Asm32.tail_str l = Val (substr l 1 (len l - 1)).
Proof.
  intros H. unfold Asm32.tail_str. destruct (Z.ltb_spec (len l) 1); [lia | reflexivity].
Qed.

Lemma coded_opcode op f :
  Mipt32.TYPE op = Some f ->
  Mipt32.word (Z.shiftl op 24) = op * 2 ^ 24
  /\ Z.shiftr (Mipt32.word (Z.shiftl op 24)) 24 = op
  /\ 0 <= op < 256.
Proof.
  intros H. apply TYPE32_range in H.
  unfold Mipt32.word. rewrite Z.shiftl_mul_pow2 by lia.
  rewrite w64_small by lia. rewrite Z.shiftr_div_pow2 by lia.
  rewrite Z.div_mul by lia. repeat split; lia.
Qed.

Lemma make_comm_RR label mn a b c rest op junk :
  Asm32.CODE !! mn = Some op -> Mipt32.TYPE op = Some Mipt32.RR ->
  0 < len a -> 0 < len b ->
  let r1 := strtol (substr a 1 (len a - 1)) in
  let r2 := strtol (substr b 1 (len b - 1)) in
  let md := strtol c in
  0 <= r1 < 16 -> 0 <= r2 < 16 -> 0 <= md < 2 ^ 16 ->
  exists coded,
    Asm32.make_comm label (mn :: a :: b :: c :: rest) = Val coded
    /\ Mipt32.tf8 coded = op
    /\ Mipt32.decode junk Mipt32.RR (Mipt32.tl24 coded) = (r1, r2, md).
Proof.
  intros Hcode Htype Ha Hb r1 r2 md Hr1 Hr2 Hmd.
  destruct (coded_opcode op _ Htype) as (Hsh & Hback & Hop).
  exists (op * 2 ^ 24 + (r1 * 2 ^ 20 + (r2 * 2 ^ 16 + md))).
  split.
  - unfold Asm32.make_comm. cbn [Asm32.lexeme lookup list_lookup rbind].
    rewrite Hcode. cbn zeta. rewrite Hback, Htype, Hsh.
    cbn [Asm32.lexeme lookup list_lookup rbind].
    rewrite (tail_str_ok a Ha), (tail_str_ok b Hb). cbn [rbind].
    fold r1 r2 md. unfold Mipt32.word.
    rewrite (w64_small r1), (w64_small r2), (w64_small md) by lia.
    rewrite !Z.shiftl_mul_pow2 by lia.
    rewrite (w64_small (r1 * 2 ^ 20)), (w64_small (r2 * 2 ^ 16)) by lia.
    rewrite (w64_small (r1 * 2 ^ 20 + r2 * 2 ^ 16)) by lia.
    rewrite (w64_small (r1 * 2 ^ 20 + r2 * 2 ^ 16 + md)) by lia.
    f_equal. rewrite w64_small by lia. lia.
  - destruct (opcode_field op (r1 * 2 ^ 20 + (r2 * 2 ^ 16 + md))) as [-> ->];
      [lia | lia |].
    split; [reflexivity |].
    destruct junk as [[j1 j2] j3]. cbn [Mipt32.decode].
    destruct (register_field r1 (r2 * 2 ^ 16 + md)) as [-> _]; [lia | lia |].
    destruct (second_register_field r1 r2 md) as [-> ->]; [lia | lia | lia |].
    reflexivity.
Qed.

Lemma make_comm_RM label mn a c rest op junk :
  Asm32.CODE !! mn = Some op -> Mipt32.TYPE op = Some Mipt32.RM ->
  0 < len a ->
  let r1 := strtol (substr a 1 (len a - 1)) in
  let md := strtol c in
  0 <= r1 < 16 -> 0 <= md < 2 ^ 20 ->
  exists coded,
    Asm32.make_comm label (mn :: a :: c :: rest) = Val coded
    /\ Mipt32.tf8 coded = op
    /\ Mipt32.decode junk Mipt32.RM (Mipt32.tl24 coded) = (r1, junk.1.2, md).
Proof.
  intros Hcode Htype Ha r1 md Hr1 Hmd.
  destruct (coded_opcode op _ Htype) as (Hsh & Hback & Hop).
  exists (op * 2 ^ 24 + (r1 * 2 ^ 20 + md)).
  split.
  - unfold Asm32.make_comm. cbn [Asm32.lexeme lookup list_lookup rbind].
    rewrite Hcode. cbn zeta. rewrite Hback, Htype, Hsh.
    cbn [Asm32.lexeme lookup list_lookup rbind].
    rewrite (tail_str_ok a Ha). cbn [rbind].
    fold r1 md. unfold Mipt32.word.
    rewrite (w64_small r1), (w64_small md) by lia.
    rewrite !Z.shiftl_mul_pow2 by lia.
    rewrite (w64_small (r1 * 2 ^ 20)) by lia.
    rewrite (w64_small (r1 * 2 ^ 20 + md)) by lia.
    f_equal. rewrite w64_small by lia. lia.
  - destruct (opcode_field op (r1 * 2 ^ 20 + md)) as [-> ->]; [lia | lia |].
    split; [reflexivity |].
    destruct junk as [[j1 j2] j3]. cbn [Mipt32.decode fst snd].
    destruct (register_field r1 md) as [-> ->]; [lia | lia |].
    reflexivity.
Qed.

Lemma make_comm_RI label mn a c rest op junk :
  Asm32.CODE !! mn = Some op -> Mipt32.TYPE op = Some Mipt32.RI -> op <> 42 ->
  0 < len a ->
  let r1 := strtol (substr a 1 (len a - 1)) in
  let md := Asm32.resolve label c in
  0 <= r1 < 16 -> 0 <= md < 2 ^ 20 ->
  exists coded,
    Asm32.make_comm label (mn :: a :: c :: rest) = Val coded
    /\ Mipt32.tf8 coded = op
    /\ Mipt32.ts4 (Mipt32.tl24 coded) = r1
    /\ Mipt32.decode junk Mipt32.RI (Mipt32.tl24 coded) = (junk.1.1, junk.1.2, md).
Proof.
  intros Hcode Htype Hret Ha r1 md Hr1 Hmd.
  destruct (coded_opcode op _ Htype) as (Hsh & Hback & Hop).
  exists (op * 2 ^ 24 + (r1 * 2 ^ 20 + md)).
  split.
  - unfold Asm32.make_comm. cbn [Asm32.lexeme lookup list_lookup rbind].
    rewrite Hcode. cbn zeta. rewrite Hback, Htype, Hsh.
    destruct (Z.eqb_spec op 42) as [E | _]; [contradiction |].
    cbn [Asm32.lexeme lookup list_lookup rbind].
    rewrite (tail_str_ok a Ha). cbn [rbind].
    fold r1 md. unfold Mipt32.word.
    rewrite (w64_small r1) by lia.
    rewrite !Z.shiftl_mul_pow2 by lia.
    rewrite (w64_small (r1 * 2 ^ 20)) by lia.
    rewrite (w64_small (r1 * 2 ^ 20 + md)) by lia.
    f_equal. rewrite w64_small by lia. lia.
  - destruct (opcode_field op (r1 * 2 ^ 20 + md)) as [-> ->]; [lia | lia |].
    split; [reflexivity |].
    destruct (register_field r1 md) as [Hreg Himm]; [lia | lia |].
    split; [exact Hreg |].
    destruct junk as [[j1 j2] j3]. cbn [Mipt32.decode fst snd].
    rewrite Himm. reflexivity.
Qed.

Lemma make_comm_ret label c rest junk :
  let md := Asm32.resolve label c in
  0 <= md < 2 ^ 20 ->
  exists coded,
    Asm32.make_comm label ("ret"%string :: c :: rest) = Val coded
    /\ Mipt32.tf8 coded = 42
    /\ Mipt32.ts4 (Mipt32.tl24 coded) = 0
    /\ Mipt32.decode junk Mipt32.RI (Mipt32.tl24 coded) = (junk.1.1, junk.1.2, md).
Proof.
  intros md Hmd.
  exists (42 * 2 ^ 24 + (0 * 2 ^ 20 + md)).
  split.
  - unfold Asm32.make_comm. cbn [Asm32.lexeme lookup list_lookup rbind].
    change (Asm32.CODE !! "ret"%string) with (Some 42).
    destruct (coded_opcode 42 Mipt32.RI eq_refl) as (Hsh & Hback & _).
    cbn zeta. rewrite Hback, Hsh.
    cbn [Mipt32.TYPE Z.eqb Pos.eqb Asm32.lexeme lookup list_lookup rbind].
    fold md. unfold Mipt32.word.
    change (strtol "0") with 0. rewrite (w64_small 0) by lia.
    rewrite Z.shiftl_0_l, (w64_small 0) by lia.
    rewrite (w64_small (0 + md)) by lia.
    f_equal. rewrite w64_small by lia. lia.
  - destruct (opcode_field 42 (0 * 2 ^ 20 + md)) as [-> ->]; [lia | lia |].
    split; [reflexivity |].
    destruct (register_field 0 md) as [Hreg Himm]; [lia | lia |].
    split; [exact Hreg |].
    destruct junk as [[j1 j2] j3]. cbn [Mipt32.decode fst snd].
    rewrite Himm. reflexivity.
Qed.

Lemma make_comm_J label mn c rest op :
  Asm32.CODE !! mn = Some op -> Mipt32.TYPE op = Some Mipt32.J ->
  let target := Asm32.resolve label c in
  0 <= target < 2 ^ 24 ->
  exists coded,
    Asm32.make_comm label (mn :: c :: rest) = Val coded
    /\ Mipt32.tf8 coded = op
    /\ Mipt32.tl24 coded = target.
Proof.
  intros Hcode Htype target Ht.
  destruct (coded_opcode op _ Htype) as (Hsh & Hback & Hop).
  exists (op * 2 ^ 24 + target).
  split.
  - unfold Asm32.make_comm. cbn [Asm32.lexeme lookup list_lookup rbind].
    rewrite Hcode. cbn zeta. rewrite Hback, Htype, Hsh.
    cbn [Asm32.lexeme lookup list_lookup rbind].
    fold target. unfold Mipt32.word. f_equal. apply w64_small. lia.
  - apply opcode_field; lia.
Qed.

(** X1. Encoding a line with Profile A's [make_comm] and taking the word
    apart again with the field extractors of the dispatcher gives back what
    was written: the opcode of the mnemonic in the top byte and, by format,
    both registers and the 16-bit literal (RR), the register and the 20-bit
    literal (RM), the 20-bit literal or label value with the register in its
    field (RI; [ret] encodes register 0), the 24-bit target (J), whenever
    the operands fit their fields. *)
Theorem make_comm_decode_round_trip :
  (forall label mn a b c rest op junk,
     Asm32.CODE !! mn = Some op -> Mipt32.TYPE op = Some Mipt32.RR ->
     0 < len a -> 0 < len b ->
     let r1 := strtol (substr a 1 (len a - 1)) in
     let r2 := strtol (substr b 1 (len b - 1)) in
     let md := strtol c in
     0 <= r1 < 16 -> 0 <= r2 < 16 -> 0 <= md < 2 ^ 16 ->
     exists coded,
       Asm32.make_comm label (mn :: a :: b :: c :: rest) = Val coded
       /\ Mipt32.tf8 coded = op
       /\ Mipt32.decode junk Mipt32.RR (Mipt32.tl24 coded) = (r1, r2, md))
  /\ (forall label mn a c rest op junk,
     Asm32.CODE !! mn = Some op -> Mipt32.TYPE op = Some Mipt32.RM ->
     0 < len a ->
     let r1 := strtol (substr a 1 (len a - 1)) in
     let md := strtol c in
     0 <= r1 < 16 -> 0 <= md < 2 ^ 20 ->
     exists coded,
       Asm32.make_comm label (mn :: a :: c :: rest) = Val coded
       /\ Mipt32.tf8 coded = op
       /\ Mipt32.decode junk Mipt32.RM (Mipt32.tl24 coded) = (r1, junk.1.2, md))
  /\ (forall label mn a c rest op junk,
     Asm32.CODE !! mn = Some op -> Mipt32.TYPE op = Some Mipt32.RI -> op <> 42 ->
     0 < len a ->
     let r1 := strtol (substr a 1 (len a - 1)) in
     let md := Asm32.resolve label c in
     0 <= r1 < 16 -> 0 <= md < 2 ^ 20 ->
     exists coded,
       Asm32.make_comm label (mn :: a :: c :: rest) = Val coded
       /\ Mipt32.tf8 coded = op
       /\ Mipt32.ts4 (Mipt32.tl24 coded) = r1
       /\ Mipt32.decode junk Mipt32.RI (Mipt32.tl24 coded)
          = (junk.1.1, junk.1.2, md))
  /\ (forall label c rest junk,
     let md := Asm32.resolve label c in
     0 <= md < 2 ^ 20 ->
     exists coded,
       Asm32.make_comm label ("ret"%string :: c :: rest) = Val coded
       /\ Mipt32.tf8 coded = 42
       /\ Mipt32.ts4 (Mipt32.tl24 coded) = 0
       /\ Mipt32.decode junk Mipt32.RI (Mipt32.tl24 coded)
          = (junk.1.1, junk.1.2, md))
  /\ (forall label mn c rest op,
     Asm32.CODE !! mn = Some op -> Mipt32.TYPE op = Some Mipt32.J ->
     let target := Asm32.resolve label c in
     0 <= target < 2 ^ 24 ->
     exists coded,
       Asm32.make_comm label (mn :: c :: rest) = Val coded
       /\ Mipt32.tf8 coded = op
       /\ Mipt32.tl24 coded = target).
Proof.
  split; [exact make_comm_RR |].
  split; [exact make_comm_RM |].
  split; [exact make_comm_RI |].
  split; [exact make_comm_ret | exact make_comm_J].
Qed.

Lemma make_comm_decode_round_trip_witness :
  (exists coded,
     Asm32.make_comm ∅ ["add"; "r1,"; "r2,"; "5"]%string = Val coded
     /\ Mipt32.tf8 coded = 2
     /\ Mipt32.decode (9, 9, 9) Mipt32.RR (Mipt32.tl24 coded) = (1, 2, 5))
  /\ (exists coded,
     Asm32.make_comm (<["loop"%string := 7]> ∅) ["jne"; "loop"]%string = Val coded
     /\ Mipt32.tf8 coded = 47
     /\ Mipt32.tl24 coded = 7).
Proof.
  destruct make_comm_decode_round_trip as (HRR & _ & _ & _ & HJ).
  split.
  - apply (HRR ∅ "add"%string "r1,"%string "r2,"%string "5"%string [] 2 (9, 9, 9));
      vm_compute; try reflexivity; split; first [reflexivity | discriminate].
  - destruct (HJ (<["loop"%string := 7]> ∅) "jne"%string "loop"%string [] 47)
      as (coded & Hc & Hop & Ht);
      [vm_compute; reflexivity | reflexivity
      | vm_compute; split; first [reflexivity | discriminate] |].
    exists coded. split; [exact Hc |]. split; [exact Hop |].
    rewrite Ht. vm_compute. reflexivity.
Defined.

(** ** Dispatch *)

Lemma TYPE32_RI_cases t :
  Mipt32.TYPE t = Some Mipt32.RI ->
  In t [0; 1; 3; 5; 7; 9; 12; 14; 16; 18; 20; 22; 23; 38; 39; 42; 44].
Proof.
  intros H. destruct t as [| p | p]; [cbn; tauto | | discriminate H].
  do 7 (try (destruct p as [p | p |]; try discriminate H)); cbn; tauto.
Qed.

(** X2. Profile A's dispatcher never reads the register field of an
    instruction of format RI: two instruction words with the same opcode and
    the same low 20 bits are executed identically whatever their bits 20 to
    23 are, and the operation is applied to whatever the unassigned local
    [r1] holds (so [addi], [lc] and [syscall] act on that register, not on
    the one the assembler encoded). *)
Theorem ri_register_field_ignored fpu junk type tail tail' :
  Mipt32.TYPE type = Some Mipt32.RI ->
  Mipt32.tl20 tail = Mipt32.tl20 tail' ->
  Mipt32.switch_c fpu junk type tail = Mipt32.switch_c fpu junk type tail'
  /\ Mipt32.switch_c fpu junk 3 tail = Mipt32.addi junk.1.1 (Mipt32.tl20 tail)
  /\ Mipt32.switch_c fpu junk 12 tail = Mipt32.lc junk.1.1 (Mipt32.tl20 tail)
  /\ Mipt32.switch_c fpu junk 1 tail = Mipt32.syscall junk.1.1 (Mipt32.tl20 tail).
Proof.
  intros Htype Hlow. destruct junk as [[j1 j2] j3].
  split; [| repeat split].
  apply TYPE32_RI_cases in Htype. cbn [In] in Htype.
  unfold Mipt32.switch_c.
  repeat (destruct Htype as [<- | Htype];
          [cbn [Mipt32.TYPE Mipt32.decode]; rewrite ?Hlow; reflexivity |]).
  contradiction.
Qed.

Lemma ri_register_field_ignored_witness :
  let addi_r0 := Z.lor (Z.shiftl 3 24) 1 in
  let addi_r5 := Z.lor (Z.shiftl 3 24) (Z.lor (Z.shiftl 5 20) 1) in
  Mipt32.switch_c null_fpu (7, 0, 0) 3 (Mipt32.tl24 addi_r0)
  = Mipt32.switch_c null_fpu (7, 0, 0) 3 (Mipt32.tl24 addi_r5).
Proof.
  intros addi_r0 addi_r5.
  apply (ri_register_field_ignored null_fpu (7, 0, 0) 3
           (Mipt32.tl24 addi_r0) (Mipt32.tl24 addi_r5)); reflexivity.
Defined.

Lemma t0_5_range x : 0 <= Mipt64.t0_5 x < 64.
Proof.
  unfold Mipt64.t0_5. change Mipt64.m0_5 with (Z.shiftl (Z.ones 6) 26).
  rewrite extract_field by lia. apply Z.mod_pos_bound. lia.
Qed.

Lemma switch_c64_unknown fpu row s :
  30 <= Mipt64.t0_5 row -> Mipt64.switch_c fpu row s = Ret tt s.
Proof.
  intros H. pose proof (t0_5_range row) as Hr.
  unfold Mipt64.switch_c. generalize dependent (Mipt64.t0_5 row). intros t Ht Hr.
  destruct t as [| p | p]; try lia.
  do 6 (try (destruct p as [p | p |]; try lia)); reflexivity.
Qed.

(** X3. An opcode that is in no table: Profile A's dispatcher looks it up
    with [TYPE.at], so the iteration ends in the uncaught [std::out_of_range]
    exception, the state being whatever it was; Profile B's dispatcher looks
    it up with [operator[]] and falls through its [switch], so the
    instruction does nothing and the iteration only moves the program counter
    8 bytes on. *)
Theorem unknown_opcode :
  (forall fpu junk s,
     0 <= Mipt32.regs s 15 < Mipt32.MEMSIZE ->
     Mipt32.TYPE (Mipt32.tf8 (Mipt32.mem s (Mipt32.regs s 15))) = None ->
     Mipt32.emulate_step fpu junk s = Fail OutOfRange)
  /\ (forall fpu s,
     0 <= Mipt64.regs s 31 -> Mipt64.regs s 31 + 8 <= Mipt64.MEMSIZE ->
     30 <= Mipt64.t0_5 (Mipt64.load_le 8 (Mipt64.mem s) (Mipt64.regs s 31)) ->
     Mipt64.emulate_step fpu s
     = Ret tt (set_reg64 s 31 (Mipt64.regs s 31 + 8))).
Proof.
  split.
  - intros fpu junk s Hpc Hnone. unfold Mipt32.emulate_step.
    rewrite (bind_ret _ _ _ _ _ (greg32_ok 15 s ltac:(lia))).
    unfold Mipt32.gmem at 1. unfold bind at 1. in_range.
    apply bind_fail. unfold Mipt32.switch_c. rewrite Hnone. reflexivity.
  - intros fpu s Hpc Hpc' Hop.
    rewrite (emulate_step64_adds_eight fpu s s Hpc Hpc' (switch_c64_unknown fpu _ s Hop)).
    rewrite w64_small by (unfold Mipt64.MEMSIZE in Hpc'; lia). reflexivity.
Qed.

Lemma unknown_opcode_witness :
  Mipt32.emulate_step null_fpu (0, 0, 0) (set_mem32 (start32 []) 0 (Z.shiftl 10 24))
  = Fail OutOfRange
  /\ (let t := Mipt64.mkState (Mipt64.store_le 8 (fun _ => 0) 0 (Z.shiftl 40 26))
                              (fun _ => 0) [] [] in
      Mipt64.emulate_step null_fpu t = Ret tt (set_reg64 t 31 8)).
Proof.
  destruct unknown_opcode as [HA HB]. split.
  - apply HA; [vm_compute; split; [discriminate | reflexivity] | reflexivity].
  - intros t. apply (HB null_fpu t); vm_compute; discriminate.
Defined.

(** ** Conditional execution in Profile B *)

(** X4. Each conditional operation of Profile B ([cne], [ceq], [cle],
    [clt], [cge], [cgt]) performs the [add] of its operands exactly when the
    flag left by the last comparison satisfies its predicate, and otherwise
    changes nothing; run right after [cmp], it therefore acts exactly when
    the compared register relates in that way to source register plus
    immediate. *)
Theorem conditional_execution j rd rs imm s :
  (forall f, Mipt64.regs s 32 = flag_code f ->
     exec_op j rd rs imm s
     = if branches_on j f then Mipt64.add rd rs imm s else Ret tt s)
  /\ (forall r1 r2 i, 0 <= r1 < 32 -> 0 <= r2 < 32 ->
     let f := compare_flag (Mipt64.regs s r1) (w64 (Mipt64.regs s r2 + i)) in
     (run Mipt64.cmp r1 r2 i ;; exec_op j rd rs imm) s
     = if branches_on j f
       then Mipt64.add rd rs imm (set_reg64 s 32 (flag_code f))
       else Ret tt (set_reg64 s 32 (flag_code f))).
Proof.
  assert (Hfire : forall t f, Mipt64.regs t 32 = flag_code f ->
            exec_op j rd rs imm t
            = if branches_on j f then Mipt64.add rd rs imm t else Ret tt t).
  { intros t f Hf.
    destruct j; cbn [exec_op];
      unfold Mipt64.cne, Mipt64.ceq, Mipt64.cle, Mipt64.clt, Mipt64.cge, Mipt64.cgt;
      rewrite (bind_ret _ _ _ _ _ (greg64_ok 32 t ltac:(lia)));
      rewrite Hf; destruct f; reflexivity. }
  split; [apply Hfire |].
  intros r1 r2 i H1 H2 f.
  rewrite (bind_ret _ _ _ _ _ (cmp64_flag r1 r2 i s H1 H2)).
  apply Hfire. reflexivity.
Qed.

Lemma conditional_execution_witness :
  let s := set_reg64 (set_reg64 (start64 []) 1 3) 2 7 in
  (run Mipt64.cmp 1 2 0 ;; exec_op JL 5 27 9)%machine s
  = Ret tt (set_reg64 (set_reg64 s 32 1) 5 9)
  /\ (run Mipt64.cmp 1 2 0 ;; exec_op JG 5 27 9)%machine s
     = Ret tt (set_reg64 s 32 1).
Proof.
  intros s. split.
  - apply (proj2 (conditional_execution JL 5 27 9 s) 1 2 0); lia.
  - apply (proj2 (conditional_execution JG 5 27 9 s) 1 2 0); lia.
Defined.

(** ** Multiplication and division in Profile A *)

Lemma lo32_mod z : 0 <= z < 2 ^ 64 -> lo32 z = z mod 2 ^ 32.
Proof.
  intros Hz. unfold lo32, w64.
  rewrite Z.shiftl_mul_pow2, Z.shiftr_div_pow2 by lia.
  change (2 ^ 64) with (2 ^ 32 * 2 ^ 32).
  rewrite Z.mul_mod_distr_r by lia.
  apply Z.div_mul. lia.
Qed.

Lemma halves_recompose z :
  0 <= z < 2 ^ 64 ->
  w64 (w64 (Z.shiftl (Z.shiftr z 32) 32) + lo32 z) = z.
Proof.
  intros Hz. rewrite lo32_mod by exact Hz.
  rewrite Z.shiftl_mul_pow2, Z.shiftr_div_pow2 by lia.
  pose proof (Z.div_mod z (2 ^ 32) ltac:(lia)) as Hdm.
  pose proof (Z.mod_pos_bound z (2 ^ 32) ltac:(lia)) as Hm.
  assert (0 <= z / 2 ^ 32 < 2 ^ 32)
    by (split; [apply Z.div_pos; lia | apply Z.div_lt_upper_bound; lia]).
  rewrite (w64_small (z / 2 ^ 32 * 2 ^ 32)) by lia.
  rewrite w64_small by lia. lia.
Qed.

Lemma sreg2_ok r1 res s :
  0 <= r1 < 16 ->
  Mipt32.sreg2 r1 res s
  = Ret tt (set_reg32 (set_reg32 s r1 (lo32 res)) (r1 + 1) (Z.shiftr res 32)).
Proof.
  intros H. unfold Mipt32.sreg2, Mipt32.word.
  rewrite (bind_ret _ _ _ _ _ (sreg32_ok r1 _ s ltac:(lia))).
  rewrite (w64_small (r1 + 1)) by lia. apply sreg32_ok. lia.
Qed.

(** X5. Profile A's [mul] of two 32-bit register values leaves the exact
    64-bit product in the register pair (low half in [r1], high half in
    [r1 + 1]), and a [div] of that pair by the same, non-zero, second
    register gives the first factor back in [r1] with remainder 0 in
    [r1 + 1]. *)
Theorem mul_then_div (r1 r2 : Z) (s : Mipt32.state) :
  0 <= r1 < 16 -> 0 <= r2 < 17 -> r2 <> r1 -> r2 <> r1 + 1 ->
  let a := Mipt32.regs s r1 in
  let b := Mipt32.regs s r2 in
  0 <= a < 2 ^ 32 -> 0 < b < 2 ^ 32 ->
  exists s1 s2,
    Mipt32.mul r1 r2 s = Ret tt s1
    /\ Mipt32.regs s1 (r1 + 1) * 2 ^ 32 + Mipt32.regs s1 r1 = a * b
    /\ 0 <= Mipt32.regs s1 r1 < 2 ^ 32
    /\ Mipt32.div r1 r2 s1 = Ret tt s2
    /\ Mipt32.regs s2 r1 = a
    /\ Mipt32.regs s2 (r1 + 1) = 0.
Proof.
  intros Hr1 Hr2 Hne Hne' a b Ha Hb.
  assert (Hprod : 0 <= a * b < 2 ^ 64) by nia.
  set (s1 := set_reg32 (set_reg32 s r1 (lo32 (a * b))) (r1 + 1) (Z.shiftr (a * b) 32)).
  assert (Hmul : Mipt32.mul r1 r2 s = Ret tt s1).
  { unfold Mipt32.mul.
    rewrite (bind_ret _ _ _ _ _ (greg32_ok r1 s ltac:(lia))).
    rewrite (bind_ret _ _ _ _ _ (greg32_ok r2 s Hr2)).
    fold a b. rewrite (w64_small (a * b)) by exact Hprod.
    apply sreg2_ok. exact Hr1. }
  assert (Hlo : Mipt32.regs s1 r1 = lo32 (a * b)).
  { cbn [s1 set_reg32 Mipt32.regs]. rewrite upd_other by lia. apply upd_same. }
  assert (Hhi : Mipt32.regs s1 (r1 + 1) = Z.shiftr (a * b) 32).
  { cbn [s1 set_reg32 Mipt32.regs]. apply upd_same. }
  assert (Hd : Mipt32.regs s1 r2 = b).
  { cbn [s1 set_reg32 Mipt32.regs]. rewrite !upd_other by lia. reflexivity. }
  set (s2 := set_reg32 (set_reg32 s1 r1 (a * b / b)) (r1 + 1) ((a * b) mod b)).
  exists s1, s2.
  split; [exact Hmul |].
  split.
  { rewrite Hlo, Hhi, lo32_mod by exact Hprod.
    rewrite Z.shiftr_div_pow2 by lia.
    pose proof (Z.div_mod (a * b) (2 ^ 32) ltac:(lia)). lia. }
  split; [rewrite Hlo, lo32_mod by exact Hprod; apply Z.mod_pos_bound; lia |].
  split.
  { unfold Mipt32.div.
    rewrite (bind_ret _ _ _ _ _ (greg2_ok r1 s1 Hr1)).
    rewrite (bind_ret _ _ _ _ _ (greg32_ok r2 s1 Hr2)).
    rewrite Hlo, Hhi, Hd, halves_recompose by exact Hprod.
    destruct (Z.eqb_spec b 0) as [E | _]; [lia |].
    rewrite (bind_ret _ _ _ _ _ (sreg32_ok r1 _ s1 ltac:(lia))).
    unfold Mipt32.word. rewrite (w64_small (r1 + 1)) by lia.
    apply sreg32_ok. lia. }
  split.
  - cbn [s2 set_reg32 Mipt32.regs]. rewrite upd_other by lia. rewrite upd_same.
    apply Z.div_mul. lia.
  - cbn [s2 set_reg32 Mipt32.regs]. rewrite upd_same. apply Z.mod_mul. lia.
Qed.

Lemma mul_then_div_witness :
  let s := set_reg32 (set_reg32 (start32 []) 2 100000) 5 70000 in
  exists s1 s2,
    Mipt32.mul 2 5 s = Ret tt s1
    /\ Mipt32.regs s1 3 * 2 ^ 32 + Mipt32.regs s1 2 = 100000 * 70000
    /\ Mipt32.div 2 5 s1 = Ret tt s2
    /\ Mipt32.regs s2 2 = 100000
    /\ Mipt32.regs s2 3 = 0.
Proof.
  intros s.
  destruct (mul_then_div 2 5 s) as (s1 & s2 & H1 & H2 & _ & H3 & H4 & H5).
  - lia.
  - lia.
  - lia.
  - lia.
  - vm_compute. split; [discriminate | reflexivity].
  - vm_compute. split; reflexivity.
  - exists s1, s2. repeat split; assumption.
Defined.

(** ** Call and return in Profile A *)

Lemma tl20_range x : 0 <= Mipt32.tl20 x < 2 ^ 20.
Proof.
  unfold Mipt32.tl20. change Mipt32.l20 with (Z.ones 20).
  rewrite Z.land_ones by lia. apply Z.mod_pos_bound. lia.
Qed.

Lemma calli_state tail s :
  1 <= Mipt32.regs s 14 <= Mipt32.MEMSIZE ->
  Mipt32.calli tail s
  = Ret tt (set_reg32
              (set_mem32 (set_reg32 s 14 (Mipt32.regs s 14 - 1))
                         (Mipt32.regs s 14 - 1) (w64 (Mipt32.regs s 15 + 1)))
              15 (w64 (tail - 1))).
Proof.
  intros H. unfold Mipt32.calli, Mipt32.word.
  rewrite (bind_ret _ _ _ _ _ (greg32_ok 15 s ltac:(lia))).
  rewrite (bind_ret _ _ _ _ _ (push_stack32_ok _ s H)).
  apply sreg32_ok. lia.
Qed.

(** X6. Profile A's calling convention over two iterations of the engine:
    executing [calli T] at address [p] continues at [T] with the return
    address [p + 1] on the stack, and a [ret n] found at [T] continues at
    [p + 1], the instruction after the call, leaving the stack pointer [n]
    words above where it was before the call. *)
Theorem call_then_return fpu junk1 junk2 (s : Mipt32.state) :
  let p := Mipt32.regs s 15 in
  let sp := Mipt32.regs s 14 in
  let T := Mipt32.tl24 (Mipt32.mem s p) in
  let n := Mipt32.tl20 (Mipt32.tl24 (Mipt32.mem s T)) in
  0 <= p < Mipt32.MEMSIZE -> 1 <= sp <= Mipt32.MEMSIZE ->
  Mipt32.tf8 (Mipt32.mem s p) = 41 ->
  T < Mipt32.MEMSIZE -> T <> sp - 1 ->
  Mipt32.tf8 (Mipt32.mem s T) = 42 ->
  exists s1 s2,
    Mipt32.emulate_step fpu junk1 s = Ret tt s1
    /\ Mipt32.regs s1 15 = T
    /\ Mipt32.mem s1 (Mipt32.regs s1 14) = p + 1
    /\ Mipt32.emulate_step fpu junk2 s1 = Ret tt s2
    /\ Mipt32.regs s2 15 = p + 1
    /\ Mipt32.regs s2 14 = sp + n.
Proof.
  intros p sp T n Hp Hsp Hcall HT HTsp Hret.
  pose proof (tl24_range (Mipt32.mem s p)) as HTr. fold T in HTr.
  pose proof (tl20_range (Mipt32.tl24 (Mipt32.mem s T))) as Hn. fold n in Hn.
  assert (HM : Mipt32.MEMSIZE = 1048576) by reflexivity.
  (* the call *)
  set (sc := set_reg32 (set_mem32 (set_reg32 s 14 (sp - 1)) (sp - 1) (w64 (p + 1)))
               15 (w64 (T - 1))).
  assert (Hsw1 : Mipt32.switch_c fpu junk1 (Mipt32.tf8 (Mipt32.mem s p))
                   (Mipt32.tl24 (Mipt32.mem s p)) s = Ret tt sc).
  { rewrite Hcall. destruct junk1 as [[j1 j2] j3].
    change (Mipt32.calli T s = Ret tt sc). apply calli_state. exact Hsp. }
  pose proof (emulate_step32_adds_one fpu junk1 s sc Hp Hsw1) as Hstep1.
  set (s1 := set_reg32 sc 15 (w64 (Mipt32.regs sc 15 + 1))) in Hstep1.
  assert (Hpc1 : Mipt32.regs s1 15 = T).
  { cbn [s1 sc set_reg32 Mipt32.regs]. rewrite !upd_same.
    rewrite w64_pred_succ. apply w64_small. lia. }
  assert (Hsp1 : Mipt32.regs s1 14 = sp - 1).
  { cbn [s1 sc set_reg32 set_mem32 Mipt32.regs].
    rewrite !(upd_other _ 15) by lia. apply upd_same. }
  assert (Hmem1 : forall x, Mipt32.mem s1 x = Mipt32.upd (Mipt32.mem s) (sp - 1) (w64 (p + 1)) x).
  { intros x. reflexivity. }
  (* the return *)
  assert (Hrow : Mipt32.mem s1 (Mipt32.regs s1 15) = Mipt32.mem s T).
  { rewrite Hpc1, Hmem1. apply upd_other. exact HTsp. }
  assert (Hpop : Mipt32.mem s1 (Mipt32.regs s1 14) = p + 1).
  { rewrite Hsp1, Hmem1, upd_same. apply w64_small. lia. }
  set (sr := set_reg32 (set_reg32 s1 14 (w64 (sp - 1 + w64 (n + 1)))) 15
               (w64 (p + 1 - 1))).
  assert (Hsw2 : Mipt32.switch_c fpu junk2 (Mipt32.tf8 (Mipt32.mem s1 (Mipt32.regs s1 15)))
                   (Mipt32.tl24 (Mipt32.mem s1 (Mipt32.regs s1 15))) s1 = Ret tt sr).
  { rewrite Hrow, Hret. destruct junk2 as [[j1 j2] j3].
    change (Mipt32.ret_ n s1 = Ret tt sr).
    unfold Mipt32.ret_, Mipt32.word.
    rewrite (bind_ret _ _ _ _ _ (pop_stack32_ok _ s1 ltac:(rewrite Hsp1; lia))).
    rewrite Hpop, Hsp1. apply sreg32_ok. lia. }
  pose proof (emulate_step32_adds_one fpu junk2 s1 sr ltac:(rewrite Hpc1; lia) Hsw2)
    as Hstep2.
  exists s1, (set_reg32 sr 15 (w64 (Mipt32.regs sr 15 + 1))).
  split; [exact Hstep1 |]. split; [exact Hpc1 |]. split; [exact Hpop |].
  split; [exact Hstep2 |]. split.
  - cbn [sr set_reg32 Mipt32.regs]. rewrite !upd_same.
    replace (p + 1 - 1) with p by lia.
    rewrite (w64_small p) by lia. apply w64_small. lia.
  - cbn [sr set_reg32 Mipt32.regs]. rewrite !(upd_other _ 15) by lia.
    rewrite upd_same. rewrite (w64_small (n + 1)) by lia.
    rewrite w64_small by lia. lia.
Qed.

Lemma call_then_return_witness :
  let calli9 := Z.lor (Z.shiftl 41 24) 9 in
  let ret2 := Z.lor (Z.shiftl 42 24) 2 in
  let s := set_reg32 (set_reg32 (set_mem32 (set_mem32 (start32 []) 4 calli9) 9 ret2)
                        15 4) 14 1000 in
  exists s1 s2,
    Mipt32.emulate_step null_fpu (0, 0, 0) s = Ret tt s1
    /\ Mipt32.regs s1 15 = 9
    /\ Mipt32.emulate_step null_fpu (0, 0, 0) s1 = Ret tt s2
    /\ Mipt32.regs s2 15 = 5
    /\ Mipt32.regs s2 14 = 1002.
Proof.
  intros calli9 ret2 s.
  destruct (call_then_return null_fpu (0, 0, 0) (0, 0, 0) s)
    as (s1 & s2 & H1 & H2 & _ & H3 & H4 & H5).
  - vm_compute. split; [discriminate | reflexivity].
  - vm_compute. split; discriminate.
  - reflexivity.
  - reflexivity.
  - vm_compute. discriminate.
  - reflexivity.
  - exists s1, s2. repeat split; assumption.
Defined.

(** ** Reading and writing a double *)

Lemma scan32_ok d rest s :
  Mipt32.stdin s = d :: rest ->
  Mipt32.scan s
  = Ret d (Mipt32.mkState (Mipt32.mem s) (Mipt32.regs s) rest (Mipt32.stdout s)).
Proof. intros H. unfold Mipt32.scan. rewrite H. reflexivity. Qed.

Lemma scan64_ok d rest s :
  Mipt64.stdin s = d :: rest ->
  Mipt64.scan s
  = Ret d (Mipt64.mkState (Mipt64.mem s) (Mipt64.regs s) rest (Mipt64.stdout s)).
Proof. intros H. unfold Mipt64.scan. rewrite H. reflexivity. Qed.

(** X7. In Profile A a double read by service 101 into the register pair
    ([reg]: low 32 bits, [reg + 1]: high 32 bits) and written by service 103
    from the same pair comes out with the bit pattern that went in. *)
Theorem double_read_write_32 reg d rest (s : Mipt32.state) :
  0 <= reg < 16 -> Mipt32.stdin s = d :: rest -> 0 <= d < 2 ^ 64 ->
  exists s',
    (run Mipt32.syscall reg 101 ;; Mipt32.syscall reg 103)%machine s = Ret tt s'
    /\ Mipt32.stdout s' = Mipt32.stdout s ++ [PrintDouble d]
    /\ Mipt32.stdin s' = rest
    /\ Mipt32.regs s' reg = d mod 2 ^ 32
    /\ Mipt32.regs s' (reg + 1) = d / 2 ^ 32.
Proof.
  intros Hreg Hin Hd.
  set (s0 := Mipt32.mkState (Mipt32.mem s) (Mipt32.regs s) rest (Mipt32.stdout s)).
  set (s1 := set_reg32 (set_reg32 s0 reg (lo32 d)) (reg + 1) (Z.shiftr d 32)).
  assert (Hread : Mipt32.syscall reg 101 s = Ret tt s1).
  { cbn [Mipt32.syscall].
    rewrite (bind_ret _ _ _ _ _ (scan32_ok d rest s Hin)). fold s0.
    rewrite (bind_ret _ _ _ _ _ (sreg32_ok reg _ s0 ltac:(lia))).
    unfold Mipt32.word. rewrite (w64_small (reg + 1)) by lia.
    apply sreg32_ok. lia. }
  assert (Hlo : Mipt32.regs s1 reg = lo32 d).
  { cbn [s1 set_reg32 Mipt32.regs]. rewrite upd_other by lia. apply upd_same. }
  assert (Hhi : Mipt32.regs s1 (reg + 1) = Z.shiftr d 32).
  { cbn [s1 set_reg32 Mipt32.regs]. apply upd_same. }
  exists (printed32 s1 (PrintDouble d)).
  split.
  - rewrite (bind_ret _ _ _ _ _ Hread). cbn [Mipt32.syscall].
    rewrite (bind_ret _ _ _ _ _ (greg32_ok reg s1 ltac:(lia))).
    unfold Mipt32.word. rewrite (w64_small (reg + 1)) by lia.
    rewrite (bind_ret _ _ _ _ _ (greg32_ok (reg + 1) s1 ltac:(lia))).
    rewrite Hlo, Hhi, Z.add_comm, halves_recompose by exact Hd.
    reflexivity.
  - split; [reflexivity |]. split; [reflexivity |].
    cbn [printed32 Mipt32.regs]. rewrite Hlo, Hhi.
    rewrite lo32_mod by exact Hd. rewrite Z.shiftr_div_pow2 by lia.
    split; reflexivity.
Qed.

Lemma double_read_write_32_witness :
  let d := 4621819117588971520 in
  exists s',
    (run Mipt32.syscall 2 101 ;; Mipt32.syscall 2 103)%machine (start32 [d]) = Ret tt s'
    /\ Mipt32.stdout s' = [PrintDouble d].
Proof.
  intros d.
  destruct (double_read_write_32 2 d [] (start32 [d])) as (s' & H & Hout & _).
  - lia.
  - reflexivity.
  - lia.
  - exists s'. split; [exact H | exact Hout].
Defined.

(** X8. In Profile B service 101 splits the double it reads over two
    registers ([rd]: low 32 bits, [rd + 1]: high 32 bits) while service 103
    prints register [rd] alone as the whole 64-bit pattern: a double read
    and written back through the same register comes out with its high
    32 bits replaced by zero. *)
Theorem double_read_write_64 rd rs d rest (s : Mipt64.state) :
  0 <= rd < 32 -> Mipt64.stdin s = d :: rest -> 0 <= d < 2 ^ 64 ->
  exists s',
    (run Mipt64.svc rd rs 101 ;; Mipt64.svc rd rs 103)%machine s = Ret tt s'
    /\ Mipt64.stdout s' = Mipt64.stdout s ++ [PrintDouble (d mod 2 ^ 32)]
    /\ Mipt64.regs s' (rd + 1) = d / 2 ^ 32
    /\ (2 ^ 32 <= d -> d mod 2 ^ 32 <> d).
Proof.
  intros Hrd Hin Hd.
  set (s0 := Mipt64.mkState (Mipt64.mem s) (Mipt64.regs s) rest (Mipt64.stdout s)).
  set (s1 := set_reg64 (set_reg64 s0 rd (lo32 d)) (rd + 1) (Z.shiftr d 32)).
  assert (Hread : Mipt64.svc rd rs 101 s = Ret tt s1).
  { cbn [Mipt64.svc].
    rewrite (bind_ret _ _ _ _ _ (scan64_ok d rest s Hin)). fold s0.
    rewrite (bind_ret _ _ _ _ _ (sreg64_ok rd _ s0 ltac:(lia))).
    unfold Mipt64.dword. rewrite (w64_small (rd + 1)) by lia.
    apply sreg64_ok. lia. }
  assert (Hlo : Mipt64.regs s1 rd = lo32 d).
  { cbn [s1 set_reg64 Mipt64.regs]. rewrite upd64_other by lia. apply upd64_same. }
  exists (printed64 s1 (PrintDouble (d mod 2 ^ 32))).
  split; [| split; [reflexivity | split]].
  - rewrite (bind_ret _ _ _ _ _ Hread). cbn [Mipt64.svc].
    rewrite (bind_ret _ _ _ _ _ (greg64_ok rd s1 ltac:(lia))).
    rewrite Hlo, lo32_mod by exact Hd. reflexivity.
  - cbn [printed64 s1 set_reg64 Mipt64.regs]. rewrite upd64_same.
    apply Z.shiftr_div_pow2. lia.
  - intros Hbig Heq.
    pose proof (Z.mod_pos_bound d (2 ^ 32) ltac:(lia)). lia.
Qed.

Lemma double_read_write_64_witness :
  let d := 4621819117588971520 in
  exists s',
    (run Mipt64.svc 2 27 101 ;; Mipt64.svc 2 27 103)%machine (start64 [d]) = Ret tt s'
    /\ Mipt64.stdout s' = [PrintDouble 0].
Proof.
  intros d.
  destruct (double_read_write_64 2 27 d [] (start64 [d])) as (s' & H & Hout & _).
  - lia.
  - reflexivity.
  - lia.
  - exists s'. split; [exact H | exact Hout].
Defined.

(** ** Store and load *)

Lemma smem32_ok adr val s :
  0 <= adr < Mipt32.MEMSIZE -> Mipt32.smem adr val s = Ret tt (set_mem32 s adr val).
Proof. intros H. unfold Mipt32.smem. in_range. reflexivity. Qed.

Lemma gmem32_ok adr s :
  0 <= adr < Mipt32.MEMSIZE -> Mipt32.gmem adr s = Ret (Mipt32.mem s adr) s.
Proof. intros H. unfold Mipt32.gmem. in_range. reflexivity. Qed.

Lemma gmem64_ok adr s :
  0 <= adr -> adr + 8 <= Mipt64.MEMSIZE ->
  Mipt64.gmem adr s = Ret (Mipt64.load_le 8 (Mipt64.mem s) adr) s.
Proof.
  intros H0 H8. unfold Mipt64.gmem.
  replace ((0 <=? adr) && (adr + 8 <=? Mipt64.MEMSIZE)) with true by lia.
  reflexivity.
Qed.

(** X9. In Profile A what [store] writes, [load] reads back from the same
    address into any register; the same holds for the register-indexed pair
    [storer]/[loadr] with the same base register and offset, and for the
    two-word pair [store2]/[load2]. *)
Theorem store_then_load (s : Mipt32.state) :
  (forall r1 r2 md,
     0 <= r1 < 17 -> 0 <= r2 < 17 -> 0 <= md < Mipt32.MEMSIZE ->
     exists s',
       (run Mipt32.store r1 md ;; Mipt32.load r2 md)%machine s = Ret tt s'
       /\ Mipt32.regs s' r2 = Mipt32.regs s r1
       /\ Mipt32.mem s' md = Mipt32.regs s r1)
  /\ (forall r1 r2 r3 md,
     0 <= r1 < 17 -> 0 <= r2 < 17 -> 0 <= r3 < 17 ->
     0 <= Mipt32.regs s r2 + md < Mipt32.MEMSIZE ->
     exists s',
       (run Mipt32.storer r1 r2 md ;; Mipt32.loadr r3 r2 md)%machine s = Ret tt s'
       /\ Mipt32.regs s' r3 = Mipt32.regs s r1)
  /\ (forall r1 r2 md,
     0 <= r1 < 16 -> 0 <= r2 < 16 -> 0 <= md -> md + 1 < Mipt32.MEMSIZE ->
     exists s',
       (run Mipt32.store2 r1 md ;; Mipt32.load2 r2 md)%machine s = Ret tt s'
       /\ Mipt32.regs s' r2 = Mipt32.regs s r1
       /\ Mipt32.regs s' (r2 + 1) = Mipt32.regs s (r1 + 1)).
Proof.
  assert (HM : Mipt32.MEMSIZE = 1048576) by reflexivity.
  split; [| split].
  - intros r1 r2 md H1 H2 Hmd.
    eexists. split.
    + unfold Mipt32.store, Mipt32.load.
      rewrite (bind_ret _ _ _ tt (set_mem32 s md (Mipt32.regs s r1))).
      2:{ rewrite (bind_ret _ _ _ _ _ (greg32_ok r1 s H1)).
          apply smem32_ok. exact Hmd. }
      rewrite (bind_ret _ _ _ _ _ (gmem32_ok md _ Hmd)).
      apply sreg32_ok. exact H2.
    + cbn [set_reg32 set_mem32 Mipt32.regs Mipt32.mem].
      rewrite !upd_same. split; reflexivity.
  - intros r1 r2 r3 md H1 H2 H3 Hadr.
    eexists. split.
    + unfold Mipt32.storer, Mipt32.loadr, Mipt32.word.
      rewrite (bind_ret _ _ _ tt (set_mem32 s (Mipt32.regs s r2 + md) (Mipt32.regs s r1))).
      2:{ rewrite (bind_ret _ _ _ _ _ (greg32_ok r2 s H2)).
          rewrite (bind_ret _ _ _ _ _ (greg32_ok r1 s H1)).
          rewrite (Z.add_comm md), w64_small by lia. apply smem32_ok. exact Hadr. }
      rewrite (bind_ret _ _ _ _ _ (greg32_ok r2 _ H2)).
      cbn [set_mem32 Mipt32.regs]. rewrite w64_small by lia.
      rewrite (bind_ret _ _ _ _ _ (gmem32_ok _ _ Hadr)).
      apply sreg32_ok. exact H3.
    + cbn [set_reg32 set_mem32 Mipt32.regs Mipt32.mem]. rewrite !upd_same. reflexivity.
  - intros r1 r2 md H1 H2 Hmd Hmd'.
    set (m1 := set_mem32 (set_mem32 s md (Mipt32.regs s r1)) (md + 1) (Mipt32.regs s (r1 + 1))).
    assert (Hst : Mipt32.store2 r1 md s = Ret tt m1).
    { unfold Mipt32.store2, Mipt32.word.
      rewrite (bind_ret _ _ _ _ _ (greg32_ok r1 s ltac:(lia))).
      rewrite (bind_ret _ _ _ _ _ (smem32_ok md _ s ltac:(lia))).
      rewrite (w64_small (r1 + 1)), (w64_small (md + 1)) by lia.
      rewrite (bind_ret _ _ _ _ _ (greg32_ok (r1 + 1) _ ltac:(lia))).
      apply smem32_ok. lia. }
    assert (Hm0 : Mipt32.mem m1 md = Mipt32.regs s r1).
    { cbn [m1 set_mem32 Mipt32.mem]. rewrite upd_other by lia. apply upd_same. }
    assert (Hm1 : Mipt32.mem m1 (md + 1) = Mipt32.regs s (r1 + 1)).
    { cbn [m1 set_mem32 Mipt32.mem]. apply upd_same. }
    eexists. split.
    + rewrite (bind_ret _ _ _ _ _ Hst). unfold Mipt32.load2, Mipt32.word.
      rewrite (bind_ret _ _ _ _ _ (gmem32_ok md m1 ltac:(lia))).
      rewrite (bind_ret _ _ _ _ _ (sreg32_ok r2 _ m1 ltac:(lia))).
      rewrite (w64_small (r2 + 1)), (w64_small (md + 1)) by lia.
      rewrite (bind_ret _ _ _ _ _ (gmem32_ok (md + 1) _ ltac:(lia))).
      apply sreg32_ok. lia.
    + cbn [set_reg32 Mipt32.regs Mipt32.mem]. rewrite upd_same.
      rewrite upd_other by lia. rewrite upd_same. split; assumption.
Qed.

Lemma store_then_load_witness :
  let s := set_reg32 (set_reg32 (start32 []) 1 77) 2 88 in
  (exists s', (run Mipt32.store 1 500 ;; Mipt32.load 3 500)%machine s = Ret tt s'
              /\ Mipt32.regs s' 3 = 77)
  /\ (exists s', (run Mipt32.store2 1 500 ;; Mipt32.load2 5 500)%machine s = Ret tt s'
                 /\ Mipt32.regs s' 5 = 77 /\ Mipt32.regs s' 6 = 88).
Proof.
  intros s. destruct (store_then_load s) as (H1 & _ & H2).
  split.
  - destruct (H1 1 3 500) as (s' & Hrun & Hr & _);
      [lia | lia | unfold Mipt32.MEMSIZE; lia |].
    exists s'. split; [exact Hrun | exact Hr].
  - destruct (H2 1 5 500) as (s' & Hrun & Hr & Hr');
      [lia | lia | lia | unfold Mipt32.MEMSIZE; lia |].
    exists s'. repeat split; assumption.
Defined.

(** X10. In Profile B what [st] writes, [ld] reads back: with an ordinary
    base register, from the same address; with the stack pointer as base,
    [st] pushes with the immediate as step and [ld] with the same immediate
    pops the value again and puts the stack pointer back where it was. *)
Theorem st_then_ld (s : Mipt64.state) :
  (forall rd rd' ra imm,
     0 <= rd < 33 -> 0 <= rd' < 33 -> 0 <= ra < 33 -> ra <> 29 ->
     0 <= Mipt64.regs s ra + imm -> Mipt64.regs s ra + imm + 8 <= Mipt64.MEMSIZE ->
     0 <= Mipt64.regs s rd < 2 ^ 64 ->
     exists s',
       (run Mipt64.st rd ra imm ;; Mipt64.ld rd' ra imm)%machine s = Ret tt s'
       /\ Mipt64.regs s' rd' = Mipt64.regs s rd)
  /\ (forall rd rd' imm,
     0 <= rd < 33 -> 0 <= rd' < 33 -> rd' <> 29 ->
     0 <= imm <= Mipt64.regs s 29 -> Mipt64.regs s 29 < 2 ^ 64 ->
     Mipt64.regs s 29 - imm + 8 <= Mipt64.MEMSIZE ->
     0 <= Mipt64.regs s rd < 2 ^ 64 ->
     exists s',
       (run Mipt64.st rd 29 imm ;; Mipt64.ld rd' 29 imm)%machine s = Ret tt s'
       /\ Mipt64.regs s' rd' = Mipt64.regs s rd
       /\ Mipt64.regs s' 29 = Mipt64.regs s 29).
Proof.
  assert (HM : Mipt64.MEMSIZE = 2097152) by reflexivity.
  split.
  - intros rd rd' ra imm Hrd Hrd' Hra Hne H0 H8 Hv.
    set (adr := Mipt64.regs s ra + imm) in *.
    set (s1 := set_mem64 s adr (Mipt64.regs s rd)).
    assert (Hst : Mipt64.st rd ra imm s = Ret tt s1).
    { unfold Mipt64.st. destruct (Z.eqb_spec ra 29) as [E | _]; [contradiction |].
      rewrite (bind_ret _ _ _ _ _ (greg64_ok ra s Hra)).
      rewrite (bind_ret _ _ _ _ _ (greg64_ok rd s Hrd)).
      unfold Mipt64.dword. fold adr. rewrite w64_small by lia.
      apply smem64_ok; lia. }
    eexists. split.
    + rewrite (bind_ret _ _ _ _ _ Hst). unfold Mipt64.ld.
      destruct (Z.eqb_spec ra 29) as [E | _]; [contradiction |].
      rewrite (bind_ret _ _ _ _ _ (greg64_ok ra s1 Hra)).
      cbn [s1 set_mem64 Mipt64.regs]. fold adr. fold s1.
      unfold Mipt64.dword. rewrite w64_small by lia.
      rewrite (bind_ret _ _ _ _ _ (gmem64_ok adr s1 H0 H8)).
      apply sreg64_ok. exact Hrd'.
    + cbn [set_reg64 Mipt64.regs]. rewrite upd64_same.
      apply set_mem64_load. exact Hv.
  - intros rd rd' imm Hrd Hrd' Hne Himm Hsp H8 Hv.
    set (sp := Mipt64.regs s 29) in *.
    set (s1 := set_mem64 (set_reg64 s 29 (sp - imm)) (sp - imm) (Mipt64.regs s rd)).
    assert (Hst : Mipt64.st rd 29 imm s = Ret tt s1).
    { unfold Mipt64.st. cbn [Z.eqb Pos.eqb].
      rewrite (bind_ret _ _ _ _ _ (greg64_ok rd s Hrd)).
      rewrite push_stack64_ok by (fold sp; lia). fold sp.
      apply smem64_ok; lia. }
    assert (Hsp1 : Mipt64.regs s1 29 = sp - imm).
    { cbn [s1 set_mem64 set_reg64 Mipt64.regs]. apply upd64_same. }
    eexists. split.
    + rewrite (bind_ret _ _ _ _ _ Hst). unfold Mipt64.ld. cbn [Z.eqb Pos.eqb].
      rewrite (bind_ret _ _ _ _ _ (pop_stack64_ok imm s1 ltac:(rewrite Hsp1; lia)
                                     ltac:(rewrite Hsp1; lia))).
      apply sreg64_ok. exact Hrd'.
    + cbn [set_reg64 Mipt64.regs]. rewrite upd64_same.
      rewrite upd64_other by lia. rewrite upd64_same.
      rewrite Hsp1. split.
      * apply set_mem64_load. exact Hv.
      * replace (sp - imm + imm) with sp by lia. apply w64_small. lia.
Qed.

Lemma st_then_ld_witness :
  let s := set_reg64 (set_reg64 (start64 []) 29 (Mipt64.MEMSIZE - 8)) 4 123456789 in
  (exists s', (run Mipt64.st 4 27 64 ;; Mipt64.ld 6 27 64)%machine s = Ret tt s'
              /\ Mipt64.regs s' 6 = 123456789)
  /\ (exists s', (run Mipt64.st 4 29 8 ;; Mipt64.ld 6 29 8)%machine s = Ret tt s'
                 /\ Mipt64.regs s' 6 = 123456789
                 /\ Mipt64.regs s' 29 = Mipt64.MEMSIZE - 8).
Proof.
  intros s. destruct (st_then_ld s) as (H1 & H2).
  split.
  - destruct (H1 4 6 27 64) as (s' & Hrun & Hr);
      [lia | lia | lia | lia | vm_compute; discriminate | vm_compute; discriminate
      | vm_compute; split; [discriminate | reflexivity] |].
    exists s'. split; [exact Hrun | exact Hr].
  - destruct (H2 4 6 8) as (s' & Hrun & Hr & Hsp);
      [lia | lia | lia | vm_compute; split; discriminate | vm_compute; reflexivity
      | vm_compute; discriminate
      | vm_compute; split; [discriminate | reflexivity] |].
    exists s'. repeat split; assumption.
Defined.

(** ** split *)

Lemma find_from_index c : forall s i,
  find_from c s i
  = match index_of c s with Some k => i + Z.of_nat k | None => npos end.
Proof.
  induction s as [| a s IH]; intros i; cbn.
  - reflexivity.
  - destruct (Ascii.eqb a c); [lia |].
    rewrite IH. destruct (index_of c s); cbn; [lia | reflexivity].
Qed.

Lemma find_index c s :
  find c s = match index_of c s with Some k => Z.of_nat k | None => npos end.
Proof. unfold find. rewrite find_from_index. destruct (index_of c s); reflexivity. Qed.

Lemma index_of_lt c : forall s k, index_of c s = Some k -> (k < String.length s)%nat.
Proof.
  induction s as [| a s IH]; intros k H; cbn in *; [discriminate H |].
  destruct (Ascii.eqb a c).
  - injection H as <-. lia.
  - destruct (index_of c s) as [k' |]; [| discriminate H].
    injection H as <-. specialize (IH k' eq_refl). lia.
Qed.

Lemma index_of_get c : forall s k, index_of c s = Some k -> String.get k s = Some c.
Proof.
  induction s as [| a s IH]; intros k H; cbn in *; [discriminate H |].
  destruct (Ascii.eqb_spec a c) as [-> | Hne].
  - injection H as <-. reflexivity.
  - destruct (index_of c s) as [k' |]; [| discriminate H].
    injection H as <-. cbn. apply IH. reflexivity.
Qed.

Lemma prefix_length : forall s n,
  String.length (String.substring 0 n s) = Nat.min n (String.length s).
Proof.
  induction s as [| a s IH]; intros n; destruct n; cbn; try reflexivity.
  rewrite IH. reflexivity.
Qed.

Lemma prefix_index c : forall s n,
  index_of c (String.substring 0 n s)
  = match index_of c s with
    | Some k => if (k <? n)%nat then Some k else None
    | None => None
    end.
Proof.
  induction s as [| a s IH]; intros n; destruct n; cbn [String.substring index_of];
    try reflexivity.
  - destruct (Ascii.eqb a c); [reflexivity |].
    destruct (index_of c s); reflexivity.
  - destruct (Ascii.eqb a c); [reflexivity |].
    rewrite IH. destruct (index_of c s) as [k |]; [| reflexivity].
    cbn [fmap option_fmap option_map].
    change (S k <? S n)%nat with (k <? n)%nat.
    destruct (k <? n)%nat; reflexivity.
Qed.

Lemma token_of_indexes t :
  t <> EmptyString ->
  index_of " " t = None ->
  index_of "," t = None \/ index_of "," t = Some (String.length t - 1)%nat ->
  token t.
Proof.
  intros Hne Hsp Hcm. split; [exact Hne |]. split.
  - rewrite find_index, Hsp. reflexivity.
  - rewrite !find_index. destruct Hcm as [-> | ->]; [left; reflexivity | right].
    unfold len. destruct t; [contradiction | cbn; lia].
Qed.

Lemma different_chars_different_places command ks kc :
  index_of " " command = Some ks -> index_of "," command = Some kc -> ks <> kc.
Proof.
  intros Es Ec ->.
  pose proof (index_of_get _ _ _ Es) as G1.
  pose proof (index_of_get _ _ _ Ec) as G2.
  rewrite G1 in G2. discriminate G2.
Qed.

Lemma prefix_nonempty command n :
  0 < Z.of_nat (String.length (String.substring 0 n command)) ->
  String.substring 0 (S n) command <> EmptyString
  /\ String.substring 0 n command <> EmptyString.
Proof.
  rewrite prefix_length. intros H. split; intros E;
    apply (f_equal String.length) in E; rewrite prefix_length in E;
    cbn [String.length] in E; lia.
Qed.

Lemma split_last_token command res :
  len command < npos ->
  find " " command = find "," command ->
  Forall token res ->
  Forall token (if 0 <? len command then res ++ [command] else res).
Proof.
  intros Hlen Heq Hres. rewrite !find_index in Heq. unfold len, npos in *.
  destruct (Z.ltb_spec 0 (Z.of_nat (String.length command))) as [Hpos | _];
    [| exact Hres].
  apply Forall_app. split; [exact Hres |].
  apply Forall_cons. split; [| apply Forall_nil_2].
  destruct (index_of " " command) as [ks |] eqn:Es;
    destruct (index_of "," command) as [kc |] eqn:Ec.
  - exfalso. apply (different_chars_different_places command ks kc Es Ec). lia.
  - apply index_of_lt in Es. lia.
  - apply index_of_lt in Ec. lia.
  - apply token_of_indexes; [intros ->; cbn in Hpos; lia | exact Es | left; exact Ec].
Qed.

Lemma split_pushed_token command res :
  len command < npos ->
  find " " command <> find "," command ->
  Forall token res ->
  let sp := find " " command in
  let cm := find "," command in
  let coma := (w64 (cm + 1) <? sp) && negb (cm =? npos) in
  let pos := if coma then cm else sp in
  Forall token
    (if 0 <? len (substr command 0 pos) then
       if coma then res ++ [substr command 0 (pos + 1)]
       else res ++ [substr command 0 pos]
     else res).
Proof.
  intros Hlen Hneq Hres sp cm coma pos.
  assert (Hadd : forall t, token t -> Forall token (res ++ [t])).
  { intros t Ht. apply Forall_app. split; [exact Hres |].
    apply Forall_cons. split; [exact Ht | apply Forall_nil_2]. }
  subst sp cm coma pos. rewrite !find_index in *. unfold len, npos, substr in *.
  change (Z.to_nat 0) with 0%nat.
  destruct (index_of " " command) as [ks |] eqn:Es;
    destruct (index_of "," command) as [kc |] eqn:Ec;
    try (pose proof (index_of_lt _ _ _ Es) as Hks);
    try (pose proof (index_of_lt _ _ _ Ec) as Hkc).
  - (* a blank at ks and a comma at kc *)
    rewrite w64_small by lia.
    replace (Z.of_nat kc =? 2 ^ 64 - 1) with false by lia.
    cbn [negb]. rewrite andb_true_r.
    destruct (Z.ltb_spec (Z.of_nat kc + 1) (Z.of_nat ks)) as [Hcoma | Hcoma].
    + rewrite Nat2Z.id. replace (Z.to_nat (Z.of_nat kc + 1)) with (S kc) by lia.
      destruct (Z.ltb_spec 0 (Z.of_nat (String.length (String.substring 0 kc command))))
        as [Hne | _]; [| exact Hres].
      apply Hadd, token_of_indexes.
      * exact (proj1 (prefix_nonempty _ _ Hne)).
      * rewrite prefix_index, Es. destruct (Nat.ltb_spec ks (S kc)); [lia | reflexivity].
      * right. rewrite prefix_index, Ec, prefix_length.
        destruct (Nat.ltb_spec kc (S kc)); [f_equal; lia | lia].
    + rewrite Nat2Z.id.
      destruct (Z.ltb_spec 0 (Z.of_nat (String.length (String.substring 0 ks command))))
        as [Hne | _]; [| exact Hres].
      apply Hadd, token_of_indexes.
      * exact (proj2 (prefix_nonempty _ _ Hne)).
      * rewrite prefix_index, Es, Nat.ltb_irrefl. reflexivity.
      * rewrite prefix_index, Ec, prefix_length.
        destruct (Nat.ltb_spec kc ks); [right; f_equal; lia | left; reflexivity].
  - (* a blank and no comma *)
    change (2 ^ 64 - 1 =? 2 ^ 64 - 1) with true. cbn [negb]. rewrite andb_false_r.
    rewrite Nat2Z.id.
    destruct (Z.ltb_spec 0 (Z.of_nat (String.length (String.substring 0 ks command))))
      as [Hne | _]; [| exact Hres].
    apply Hadd, token_of_indexes.
    + exact (proj2 (prefix_nonempty _ _ Hne)).
    + rewrite prefix_index, Es, Nat.ltb_irrefl. reflexivity.
    + left. rewrite prefix_index, Ec. reflexivity.
  - (* a comma and no blank *)
    rewrite w64_small by lia.
    replace (Z.of_nat kc =? 2 ^ 64 - 1) with false by lia.
    cbn [negb]. rewrite andb_true_r.
    replace (Z.of_nat kc + 1 <? 2 ^ 64 - 1) with true by lia.
    rewrite Nat2Z.id. replace (Z.to_nat (Z.of_nat kc + 1)) with (S kc) by lia.
    destruct (Z.ltb_spec 0 (Z.of_nat (String.length (String.substring 0 kc command))))
      as [Hne | _]; [| exact Hres].
    apply Hadd, token_of_indexes.
    + exact (proj1 (prefix_nonempty _ _ Hne)).
    + rewrite prefix_index, Es. reflexivity.
    + right. rewrite prefix_index, Ec, prefix_length.
      destruct (Nat.ltb_spec kc (S kc)); [f_equal; lia | lia].
  - contradiction.
Qed.

Lemma split_rest_shorter command pos count :
  0 <= pos -> len command < npos -> len (substr command (pos + 1) count) < npos.
Proof.
  intros Hpos Hlen. unfold len, substr in *.
  pose proof (substring_length_le command (Z.to_nat (pos + 1)) (Z.to_nat count)). lia.
Qed.

Lemma split_loop_tokens : forall fuel command res toks,
  len command < npos ->
  Forall token res ->
  split_loop fuel command res = Some toks ->
  Forall token toks.
Proof.
  induction fuel as [| fuel IH]; intros command res toks Hlen Hres Hrun;
    cbn [split_loop] in Hrun;
    destruct (Z.eqb_spec (find " " command) (find "," command)) as [Heq | Hneq].
  - injection Hrun as <-. apply split_last_token; assumption.
  - discriminate Hrun.
  - injection Hrun as <-. apply split_last_token; assumption.
  - apply IH in Hrun; [exact Hrun | |].
    + destruct (_ && _); apply split_rest_shorter;
        first [exact Hlen | apply find_from_nonneg; lia].
    + exact (split_pushed_token command res Hlen Hneq Hres).
Qed.

(** X11. [split] always returns, and every token it returns is non-empty,
    contains no blank, and contains a comma at most as its last character
    (a command shorter than [npos], as every string is). *)
Theorem split_tokens command :
  len command < npos ->
  exists toks, split command = Some toks /\ Forall token toks.
Proof.
  intros Hlen. destruct (split_total command) as [toks Hsplit].
  exists toks. split; [exact Hsplit |].
  apply (split_loop_tokens _ command [] toks Hlen (Forall_nil_2 _) Hsplit).
Qed.

Lemma split_tokens_witness :
  exists toks, split "main: add r0,r1 ,  5" = Some toks /\ Forall token toks.
Proof.
  apply (split_tokens "main: add r0,r1 ,  5"). vm_compute. reflexivity.
Defined.

(** ** How a run ends *)

Lemma never_exits_ret {S A} (a : A) : never_exits (ret a : M S A).
Proof. intros s c s' H. discriminate H. Qed.

Lemma never_exits_fail {S A} (f : fault) : never_exits (fail f : M S A).
Proof. intros s c s' H. discriminate H. Qed.

Lemma never_exits_bind {S A B} (m : M S A) (k : A -> M S B) :
  never_exits m -> (forall a, never_exits (k a)) -> never_exits (bind m k).
Proof.
  intros Hm Hk s c s' H. unfold bind in H.
  destruct (m s) as [a s1 | c1 s1 | f] eqn:E.
  - exact (Hk a _ _ _ H).
  - exact (Hm _ _ _ E).
  - discriminate H.
Qed.

Lemma greg32_never_exits adr : never_exits (Mipt32.greg adr).
Proof.
  intros s c s' H. unfold Mipt32.greg in H. destruct (_ && _); discriminate H.
Qed.

Lemma sreg32_never_exits adr val : never_exits (Mipt32.sreg adr val).
Proof.
  intros s c s' H. unfold Mipt32.sreg in H. destruct (_ && _); discriminate H.
Qed.

Lemma gmem32_never_exits adr : never_exits (Mipt32.gmem adr).
Proof.
  intros s c s' H. unfold Mipt32.gmem in H. destruct (_ && _); discriminate H.
Qed.

Lemma smem32_never_exits adr val : never_exits (Mipt32.smem adr val).
Proof.
  intros s c s' H. unfold Mipt32.smem in H. destruct (_ && _); discriminate H.
Qed.

Lemma scan32_never_exits : never_exits Mipt32.scan.
Proof.
  intros s c s' H. unfold Mipt32.scan in H. destruct (Mipt32.stdin s); discriminate H.
Qed.

Lemma print32_never_exits e : never_exits (Mipt32.print e).
Proof. intros s c s' H. discriminate H. Qed.

Lemma greg64_never_exits adr : never_exits (Mipt64.greg adr).
Proof.
  intros s c s' H. unfold Mipt64.greg in H. destruct (_ && _); discriminate H.
Qed.

Lemma sreg64_never_exits adr val : never_exits (Mipt64.sreg adr val).
Proof.
  intros s c s' H. unfold Mipt64.sreg in H. destruct (_ && _); discriminate H.
Qed.

Lemma gmem64_never_exits adr : never_exits (Mipt64.gmem adr).
Proof.
  intros s c s' H. unfold Mipt64.gmem in H. destruct (_ && _); discriminate H.
Qed.

Lemma smem64_never_exits adr val : never_exits (Mipt64.smem adr val).
Proof.
  intros s c s' H. unfold Mipt64.smem in H. destruct (_ && _); discriminate H.
Qed.

Lemma scan64_never_exits : never_exits Mipt64.scan.
Proof.
  intros s c s' H. unfold Mipt64.scan in H. destruct (Mipt64.stdin s); discriminate H.
Qed.

Lemma print64_never_exits e : never_exits (Mipt64.print e).
Proof. intros s c s' H. discriminate H. Qed.

Create HintDb operations.

#[local] Hint Unfold
  Mipt32.push_stack Mipt32.pop_stack Mipt32.add Mipt32.addi Mipt32.sub
  Mipt32.subi Mipt32.sreg2 Mipt32.mul Mipt32.muli Mipt32.greg2 Mipt32.div
  Mipt32.divi Mipt32.lc Mipt32.shift_left Mipt32.shift_right Mipt32.shl
  Mipt32.shli Mipt32.shr Mipt32.shri Mipt32.and1 Mipt32.andi Mipt32.or1
  Mipt32.ori Mipt32.xor1 Mipt32.xori Mipt32.not1 Mipt32.mov Mipt32.darith
  Mipt32.addd Mipt32.subd Mipt32.muld Mipt32.divd Mipt32.itod Mipt32.dtoi
  Mipt32.cmpd Mipt32.push Mipt32.pop Mipt32.call Mipt32.calli Mipt32.ret_
  Mipt32.cmp Mipt32.cmpi Mipt32.jmp Mipt32.jne Mipt32.jeq Mipt32.jle
  Mipt32.jl Mipt32.jge Mipt32.jg Mipt32.load Mipt32.store Mipt32.load2
  Mipt32.store2 Mipt32.loadr Mipt32.loadr2 Mipt32.storer Mipt32.storer2
  Mipt64.push_stack Mipt64.pop_stack Mipt64.add Mipt64.sub Mipt64.mul
  Mipt64.div Mipt64.mod_ Mipt64.And Mipt64.Or Mipt64.Xor Mipt64.nand
  Mipt64.shl Mipt64.shr Mipt64.darith Mipt64.addd Mipt64.subd Mipt64.muld
  Mipt64.divd Mipt64.itod Mipt64.dtoi Mipt64.cmpd Mipt64.bl Mipt64.cmp
  Mipt64.cne Mipt64.ceq Mipt64.cle Mipt64.clt Mipt64.cge Mipt64.cgt
  Mipt64.ld Mipt64.st Mipt64.composite : operations.

Ltac no_exit :=
  repeat (autounfold with operations;
          first [ apply never_exits_ret
                | apply never_exits_fail
                | apply greg32_never_exits | apply sreg32_never_exits
                | apply gmem32_never_exits | apply smem32_never_exits
                | apply scan32_never_exits | apply print32_never_exits
                | apply greg64_never_exits | apply sreg64_never_exits
                | apply gmem64_never_exits | apply smem64_never_exits
                | apply scan64_never_exits | apply print64_never_exits
                | apply never_exits_bind; [| intros ?]
                | match goal with
                  | |- never_exits (if ?b then _ else _) => destruct b
                  | |- never_exits (match ?x with _ => _ end) => destruct x
                  end ]).

Ltac exit_impossible H :=
  exfalso;
  match type of H with
  | ?m ?s = Exit _ _ =>
      let Hn := fresh "Hn" in
      assert (Hn : never_exits m) by no_exit; exact (Hn _ _ _ H)
  end.

Lemma syscall_exit reg arg s c s' :
  Mipt32.syscall reg arg s = Exit c s' -> arg = 0 /\ c = 0 /\ s' = s.
Proof.
  intros H. unfold Mipt32.syscall in H.
  destruct arg as [| p | p].
  - injection H as <- <-. repeat split.
  - do 7 (try (destruct p as [p | p |])); exit_impossible H.
  - exit_impossible H.
Qed.

Lemma svc_exit rd rs imm s c s' :
  Mipt64.svc rd rs imm s = Exit c s' -> imm = 0 /\ c = 0 /\ s' = s.
Proof.
  intros H. unfold Mipt64.svc in H.
  destruct imm as [| p | p].
  - injection H as <- <-. repeat split.
  - do 7 (try (destruct p as [p | p |])); exit_impossible H.
  - exit_impossible H.
Qed.

Lemma switch_c32_exit fpu junk type tail s c s' :
  Mipt32.switch_c fpu junk type tail s = Exit c s' ->
  s' = s
  /\ ((type = 0 /\ c = to_int (Mipt32.tl20 tail))
      \/ (type = 1 /\ Mipt32.tl20 tail = 0 /\ c = 0)).
Proof.
  intros H. unfold Mipt32.switch_c in H. destruct junk as [[j1 j2] j3].
  destruct type as [| p | p].
  - cbn [Mipt32.TYPE Mipt32.decode] in H. injection H as <- <-.
    split; [reflexivity | left; split; reflexivity].
  - do 7 (try (destruct p as [p | p |]));
      cbn [Mipt32.TYPE] in H; try discriminate H;
      try (destruct (Mipt32.decode _ _ _) as [[r1 r2] md] eqn:Hd;
           cbv beta iota in H).
    all: try (exit_impossible H).
    cbn [Mipt32.decode] in Hd. injection Hd as <- <- <-.
    apply syscall_exit in H as (Hz & -> & ->).
    split; [reflexivity | right; repeat split; exact Hz].
  - discriminate H.
Qed.

Lemma decode64_pure fpu type row s ops s1 :
  Mipt64.decode fpu type row s = Ret ops s1 -> s1 = s.
Proof.
  unfold Mipt64.decode. intros H.
  destruct (Mipt64.TYPE type) as [[] |];
    repeat match type of H with
           | context [if ?b then _ else _] => destruct b
           end;
    unfold Mipt64.composite, bind, ret, Mipt64.greg in H;
    repeat match type of H with
           | context [if ?b then _ else _] => destruct b
           end;
    try discriminate H; injection H as _ <-; reflexivity.
Qed.

Lemma switch_c64_exit fpu row s c s' :
  Mipt64.switch_c fpu row s = Exit c s' ->
  s' = s
  /\ exists rd rs imm ra,
       Mipt64.decode fpu (Mipt64.t0_5 row) row s = Ret (rd, rs, imm, ra) s
       /\ ((Mipt64.t0_5 row = 0 /\ c = to_int imm)
           \/ (Mipt64.t0_5 row = 1 /\ imm = 0 /\ c = 0)).
Proof.
  intros H. unfold Mipt64.switch_c in H. unfold bind at 1 in H.
  assert (Hn : never_exits (Mipt64.decode fpu (Mipt64.t0_5 row) row))
    by (unfold Mipt64.decode; no_exit).
  specialize (Hn s).
  destruct (Mipt64.decode fpu (Mipt64.t0_5 row) row s)
    as [[[[rd rs] imm] ra] s1 | c1 s1 | f] eqn:Hd.
  - pose proof (decode64_pure _ _ _ _ _ _ Hd) as ->. clear Hd Hn.
    destruct (Mipt64.t0_5 row) as [| p | p].
    + injection H as <- <-. split; [reflexivity |].
      exists rd, rs, imm, ra. split; [reflexivity | left; split; reflexivity].
    + do 6 (try (destruct p as [p | p |])); try (exit_impossible H).
      apply svc_exit in H as (-> & -> & ->). split; [reflexivity |].
      exists rd, rs, 0, ra. split; [reflexivity | right; repeat split].
    + exit_impossible H.
  - exfalso. exact (Hn c1 s1 eq_refl).
  - discriminate H.
Qed.

Lemma emulate_step32_exit fpu junk s c s' :
  Mipt32.emulate_step fpu junk s = Exit c s' ->
  s' = s
  /\ let comm := Mipt32.mem s (Mipt32.regs s 15) in
     (Mipt32.tf8 comm = 0 /\ c = to_int (Mipt32.tl20 (Mipt32.tl24 comm)))
     \/ (Mipt32.tf8 comm = 1 /\ Mipt32.tl20 (Mipt32.tl24 comm) = 0 /\ c = 0).
Proof.
  intros H. unfold Mipt32.emulate_step in H.
  unfold bind at 1 in H. unfold Mipt32.greg at 1 in H.
  destruct (_ && _); [| discriminate H].
  unfold bind at 1 in H. unfold Mipt32.gmem at 1 in H.
  destruct (_ && _); [| discriminate H].
  unfold bind at 1 in H.
  destruct (Mipt32.switch_c fpu junk _ _ s) as [[] s1 | c1 s1 | f] eqn:Hsw.
  - exit_impossible H.
  - injection H as <- <-. apply switch_c32_exit in Hsw. exact Hsw.
  - discriminate H.
Qed.

Lemma emulate_step64_exit fpu s c s' :
  Mipt64.emulate_step fpu s = Exit c s' ->
  s' = s
  /\ let row := Mipt64.load_le 8 (Mipt64.mem s) (Mipt64.regs s 31) in
     exists rd rs imm ra,
       Mipt64.decode fpu (Mipt64.t0_5 row) row s = Ret (rd, rs, imm, ra) s
       /\ ((Mipt64.t0_5 row = 0 /\ c = to_int imm)
           \/ (Mipt64.t0_5 row = 1 /\ imm = 0 /\ c = 0)).
Proof.
  intros H. unfold Mipt64.emulate_step in H.
  unfold bind at 1 in H. unfold Mipt64.greg at 1 in H.
  destruct (_ && _); [| discriminate H].
  unfold bind at 1 in H. unfold Mipt64.gmem at 1 in H.
  destruct (_ && _); [| discriminate H].
  unfold bind at 1 in H.
  destruct (Mipt64.switch_c fpu _ s) as [[] s1 | c1 s1 | f] eqn:Hsw.
  - exit_impossible H.
  - injection H as <- <-. apply switch_c64_exit in Hsw. exact Hsw.
  - discriminate H.
Qed.

(** X12. A run ends with [exit] only through a halt instruction or
    through system call 0, in both profiles, and the state it ends in is the
    one that instruction was fetched from: the program counter still
    addresses it.  The exit code is the halt operand converted to [int]
    (the low 20 bits of the word in Profile A, the decoded immediate in
    Profile B) and 0 for the system call. *)
Theorem run_ends_by_halt :
  (forall fpu fuel junk s c s',
     Mipt32.emulate fpu fuel junk s = Exit c s' ->
     let comm := Mipt32.mem s' (Mipt32.regs s' 15) in
     (Mipt32.tf8 comm = 0 /\ c = to_int (Mipt32.tl20 (Mipt32.tl24 comm)))
     \/ (Mipt32.tf8 comm = 1 /\ Mipt32.tl20 (Mipt32.tl24 comm) = 0 /\ c = 0))
  /\ (forall fpu fuel s c s',
     Mipt64.emulate fpu fuel s = Exit c s' ->
     let row := Mipt64.load_le 8 (Mipt64.mem s') (Mipt64.regs s' 31) in
     exists rd rs imm ra,
       Mipt64.decode fpu (Mipt64.t0_5 row) row s' = Ret (rd, rs, imm, ra) s'
       /\ ((Mipt64.t0_5 row = 0 /\ c = to_int imm)
           \/ (Mipt64.t0_5 row = 1 /\ imm = 0 /\ c = 0))).
Proof.
  split.
  - intros fpu fuel. induction fuel as [| fuel IH]; intros junk s c s' H;
      cbn [Mipt32.emulate] in H; [discriminate H |].
    destruct (Mipt32.emulate_step fpu (junk O) s) as [[] s1 | c1 s1 | f] eqn:Hstep.
    + exact (IH _ _ _ _ H).
    + injection H as <- <-.
      apply emulate_step32_exit in Hstep as [-> Hstep]. exact Hstep.
    + discriminate H.
  - intros fpu fuel. induction fuel as [| fuel IH]; intros s c s' H;
      cbn [Mipt64.emulate] in H; [discriminate H |].
    destruct (Mipt64.emulate_step fpu s) as [[] s1 | c1 s1 | f] eqn:Hstep.
    + exact (IH _ _ _ H).
    + injection H as <- <-.
      apply emulate_step64_exit in Hstep as [-> Hstep]. exact Hstep.
    + discriminate H.
Qed.

Lemma run_ends_by_halt_witness :
  let s := set_mem32 (set_mem32 (start32 []) 0 (Z.shiftl 46 24 + 7)) 7 5 in
  let s' := set_reg32 (set_reg32 s 15 6) 15 7 in
  let comm := Mipt32.mem s' (Mipt32.regs s' 15) in
  (Mipt32.tf8 comm = 0 /\ 5 = to_int (Mipt32.tl20 (Mipt32.tl24 comm)))
  \/ (Mipt32.tf8 comm = 1 /\ Mipt32.tl20 (Mipt32.tl24 comm) = 0 /\ 5 = 0).
Proof.
  intros s s'.
  apply (proj1 run_ends_by_halt null_fpu 2%nat (fun _ => (0, 0, 0)) s 5 s').
  vm_compute. reflexivity.
Defined.

(** ** The encode pass of Profile A *)

Lemma smem32_bind_inv {A} adr val (k : unit -> M Mipt32.state A) s o :
  bind (Mipt32.smem adr val) k s = o ->
  (exists a s', o = Ret a s') ->
  0 <= adr < Mipt32.MEMSIZE /\ k tt (set_mem32 s adr val) = o.
Proof.
  intros H [a [s' Ho]]. unfold bind, Mipt32.smem in H.
  destruct (Z.leb_spec 0 adr); destruct (Z.ltb_spec adr Mipt32.MEMSIZE);
    cbn [andb] in H; try (rewrite Ho in H; discriminate H).
  split; [lia | exact H].
Qed.

Section EncodePass32.
Context (strtod : string -> Z).

Lemma assemble_loop32_step line rest label pc s s' :
  0 <= pc ->
  Asm32.assemble_loop strtod (line :: rest) label pc s = Ret tt s' ->
  (is_end line = true /\ Mipt32.mem s' = Mipt32.mem s)
  \/ (is_end line = false
      /\ pc < Mipt32.MEMSIZE
      /\ exists c s1,
           stored_word strtod label line = Some c
           /\ Mipt32.mem s1 pc = c
           /\ (forall a, a < pc -> Mipt32.mem s1 a = Mipt32.mem s a)
           /\ Asm32.assemble_loop strtod rest label (pc + 1) s1 = Ret tt s').
Proof.
  intros Hpc H. cbn [Asm32.assemble_loop] in H.
  unfold is_end, stored_word.
  destruct (split line) as [[| op args] |]; try discriminate H.
  change (Asm32.lexeme (op :: args) 0) with (Val op) in H.
  change (Asm32.lexeme (op :: args) 1) with (Asm32.lexeme args 0) in H.
  unfold bind at 1 in H. cbn [Asm32.lift] in H.
  destruct (String.eqb op "end").
  { left. split; [reflexivity |].
    destruct args as [| name args]; [discriminate H |].
    change (Asm32.lexeme (name :: args) 0) with (Val name) in H.
    unfold bind, Mipt32.sreg in H. cbn [Asm32.lift] in H.
    destruct (_ && _); [| discriminate H]. injection H as <-. reflexivity. }
  right. split; [reflexivity |].
  destruct (String.eqb op "word").
  { destruct args as [| arg args]; [discriminate H |].
    change (Asm32.lexeme (arg :: args) 0) with (Val arg) in H.
    unfold bind at 1 in H. cbn [Asm32.lift] in H.
    apply smem32_bind_inv in H as [Hr H]; [| eauto].
    unfold Mipt32.word in H at 1. rewrite w64_small in H
      by (unfold Mipt32.MEMSIZE in Hr; lia).
    split; [lia |]. eexists _, _. split; [reflexivity |].
    split; [| split; [| exact H]].
    - cbn [set_mem32 Mipt32.mem]. apply upd_same.
    - intros a Ha. cbn [set_mem32 Mipt32.mem]. apply upd_other. lia. }
  destruct (String.eqb op "double").
  { destruct args as [| arg args]; [discriminate H |].
    change (Asm32.lexeme (arg :: args) 0) with (Val arg) in H.
    unfold bind at 1 in H. cbn [Asm32.lift] in H. cbv zeta in H.
    apply smem32_bind_inv in H as [Hr H]; [| eauto].
    apply smem32_bind_inv in H as [Hr' H]; [| eauto].
    unfold Mipt32.word in H, Hr'. rewrite w64_small in H, Hr'
      by (unfold Mipt32.MEMSIZE in Hr; lia).
    split; [lia |]. eexists _, _. split; [reflexivity |].
    split; [| split; [| exact H]].
    - cbn [set_mem32 Mipt32.mem]. rewrite upd_other by lia. apply upd_same.
    - intros a Ha. cbn [set_mem32 Mipt32.mem]. rewrite !upd_other by lia.
      reflexivity. }
  unfold bind at 1 in H.
  destruct (Asm32.make_comm label (op :: args)) as [comm | f];
    cbn [Asm32.lift] in H; [| discriminate H].
  apply smem32_bind_inv in H as [Hr H]; [| eauto].
  unfold Mipt32.word in H at 1. rewrite w64_small in H
    by (unfold Mipt32.MEMSIZE in Hr; lia).
  split; [lia |]. eexists _, _. split; [reflexivity |].
  split; [| split; [| exact H]].
  - cbn [set_mem32 Mipt32.mem]. apply upd_same.
  - intros a Ha. cbn [set_mem32 Mipt32.mem]. apply upd_other. lia.
Qed.

Lemma assemble_loop32_frame : forall lines label pc s s',
  0 <= pc ->
  Asm32.assemble_loop strtod lines label pc s = Ret tt s' ->
  forall a, a < pc -> Mipt32.mem s' a = Mipt32.mem s a.
Proof.
  induction lines as [| line rest IH]; intros label pc s s' Hpc H a Ha.
  - injection H as <-. reflexivity.
  - apply assemble_loop32_step in H as [[_ Hm] | (_ & _ & c & s1 & _ & _ & Hf & H)];
      [| | exact Hpc].
    + rewrite Hm. reflexivity.
    + rewrite (IH label (pc + 1) s1 s' ltac:(lia) H a ltac:(lia)). apply Hf. exact Ha.
Qed.

Lemma assemble_loop32_image : forall lines label pc s s' (k : nat) line,
  0 <= pc ->
  Asm32.assemble_loop strtod lines label pc s = Ret tt s' ->
  lines !! k = Some line ->
  (forall (q : nat) l, (q <= k)%nat -> lines !! q = Some l -> is_end l = false) ->
  exists c,
    stored_word strtod label line = Some c
    /\ Mipt32.mem s' (pc + Z.of_nat k) = c.
Proof.
  induction lines as [| first rest IH]; intros label pc s s' k line Hpc H Hk Hend;
    [discriminate Hk |].
  apply assemble_loop32_step in H
    as [[He _] | (_ & Hr & c & s1 & Hc & Hm & _ & H)]; [| | exact Hpc].
  - rewrite (Hend O first ltac:(lia) eq_refl) in He. discriminate He.
  - destruct k as [| k].
    + injection Hk as <-. exists c. split; [exact Hc |].
      rewrite Z.add_0_r.
      rewrite (assemble_loop32_frame rest label (pc + 1) s1 s' ltac:(lia) H pc ltac:(lia)).
      exact Hm.
    + destruct (IH label (pc + 1) s1 s' k line ltac:(lia) H Hk) as (c' & Hc' & Hm').
      * intros q l Hq Hl. apply (Hend (S q) l); [lia | exact Hl].
      * exists c'. split; [exact Hc' |].
        replace (pc + Z.of_nat (S k)) with (pc + 1 + Z.of_nat k) by lia. exact Hm'.
Qed.

End EncodePass32.

Lemma parse_labels32_inv : forall fuel i cur lab out label,
  0 <= i ->
  Mipt32.parse_labels_loop fuel i cur lab = Val (out, label) ->
  (forall p, (p < Z.to_nat i)%nat -> out !! p = cur !! p)
  /\ (forall n v, label !! n = Some v ->
        lab !! n = Some v
        \/ exists (k j : nat) line first_part rest,
             (Z.to_nat i <= k < length cur)%nat /\ (Z.to_nat i <= j)%nat
             /\ v = Z.of_nat k
             /\ cur !! j = Some line
             /\ split line = Some (first_part :: rest)
             /\ last_char first_part = Some ":"%char
             /\ n = substr first_part 0 (len first_part - 1)
             /\ out !! k =
                  if bool_decide (rest = []) then cur !! S j
                  else Some (substr line (len first_part)
                               (len line - len first_part))).
Proof.
  induction fuel as [| fuel IH]; intros i cur lab out label Hi Hrun;
    cbn [Mipt32.parse_labels_loop] in Hrun.
  - destruct (i <? Z.of_nat (length cur)); [discriminate Hrun |].
    injection Hrun as <- <-. split; [reflexivity | intros n v Hv; left; exact Hv].
  - destruct (Z.ltb_spec i (Z.of_nat (length cur))) as [Hlt | Hge].
    2:{ injection Hrun as <- <-.
        split; [reflexivity | intros n v Hv; left; exact Hv]. }
    set (I := Z.to_nat i) in *.
    assert (HI : (I < length cur)%nat) by lia.
    destruct (cur !! I) as [line |] eqn:Hline; [| discriminate Hrun].
    destruct (Z.ltb_spec INT_MAX (i + 1)) as [| Hint]; [discriminate Hrun |].
    destruct (split line) as [[| first_part rest] |] eqn:Hsplit;
      try discriminate Hrun.
    assert (HI1 : Z.to_nat (i + 1) = S I) by lia.
    assert (Hword : Mipt32.word i = Z.of_nat I).
    { unfold Mipt32.word. rewrite w64_small by (unfold INT_MAX in Hint; lia). lia. }
    case_bool_decide as Hcolon.
    + rewrite Hword in Hrun.
      set (name := substr first_part 0 (len first_part - 1)) in *.
      case_bool_decide as Hrest.
      * (* a line holding the label alone: erased *)
        apply IH in Hrun as [Hpre Hlab]; [| lia]. rewrite HI1 in *.
        rewrite length_delete in Hlab by (rewrite Hline; eauto).
        split.
        -- intros p Hp. rewrite Hpre by lia.
           apply list_lookup_delete_lt. exact Hp.
        -- intros n v Hv. apply Hlab in Hv as [Hv | Hv].
           ++ destruct (decide (name = n)) as [<- | Hne].
              ** rewrite lookup_insert_eq in Hv. injection Hv as <-.
                 right. exists I, I, line, first_part, rest.
                 repeat split; try assumption; try lia.
                 rewrite bool_decide_true by exact Hrest.
                 rewrite Hpre by lia. apply list_lookup_delete_ge. lia.
              ** rewrite lookup_insert_ne in Hv by exact Hne. left. exact Hv.
           ++ destruct Hv as (k & j & l & fp & r & Hk & Hj & Hv & Hl & Hs & Hc & Hn & Ho).
              right. exists k, (S j), l, fp, r.
              rewrite list_lookup_delete_ge in Hl by lia.
              rewrite list_lookup_delete_ge in Ho by lia.
              repeat split; try assumption; lia.
      * (* a label followed by an instruction: the prefix is stripped *)
        apply IH in Hrun as [Hpre Hlab]; [| lia]. rewrite HI1 in *.
        rewrite length_insert in Hlab.
        split.
        -- intros p Hp. rewrite Hpre by lia.
           apply list_lookup_insert_ne. lia.
        -- intros n v Hv. apply Hlab in Hv as [Hv | Hv].
           ++ destruct (decide (name = n)) as [<- | Hne].
              ** rewrite lookup_insert_eq in Hv. injection Hv as <-.
                 right. exists I, I, line, first_part, rest.
                 repeat split; try assumption; try lia.
                 rewrite bool_decide_false by exact Hrest.
                 rewrite Hpre by lia. apply list_lookup_insert_eq. exact HI.
              ** rewrite lookup_insert_ne in Hv by exact Hne. left. exact Hv.
           ++ destruct Hv as (k & j & l & fp & r & Hk & Hj & Hv & Hl & Hs & Hc & Hn & Ho).
              right. exists k, j, l, fp, r.
              rewrite list_lookup_insert_ne in Hl by lia.
              rewrite list_lookup_insert_ne in Ho by lia.
              repeat split; try assumption; lia.
    + (* not a label *)
      apply IH in Hrun as [Hpre Hlab]; [| lia]. rewrite HI1 in *.
      split.
      * intros p Hp. apply Hpre. lia.
      * intros n v Hv. apply Hlab in Hv as [Hv | Hv]; [left; exact Hv |].
        destruct Hv as (k & j & l & fp & r & Hk & Hj & Hv & Hrest).
        right. exists k, j, l, fp, r. repeat split; try apply Hrest; try assumption; lia.
Qed.

Lemma assemble32_inv strtod input s out label s' :
  Asm32.assemble strtod input s = Ret (out, label) s' ->
  exists s1,
    Mipt32.parse_labels input ∅ = Val (out, label)
    /\ Asm32.assemble_loop strtod out label 0 s = Ret tt s1
    /\ s' = set_reg32 s1 14 (Mipt32.MEMSIZE - 1).
Proof.
  intros H. unfold Asm32.assemble in H. unfold bind at 1 in H.
  destruct (Mipt32.parse_labels input ∅) as [[out' label'] | f];
    cbn [Asm32.lift] in H; [| discriminate H].
  unfold bind at 1 in H.
  destruct (Asm32.assemble_loop strtod out' label' 0 s) as [[] s1 | c s1 | f] eqn:Hloop;
    try discriminate H.
  unfold bind, Mipt32.sreg, ret in H. cbn in H.
  injection H as <- <- <-. exists s1. repeat split. exact Hloop.
Qed.

(** X13. The memory image the assembler of Profile A leaves: the word at
    address [k] is the word of line [k] of the label-stripped program (the
    encoded instruction, the number of a [word] directive, the low half of a
    [double]), for every line up to the first [end] directive.  Later lines
    never overwrite it, and the high half a [double] directive stores at
    [k + 1] is overwritten by the line that follows it. *)
Theorem encode_pass_image strtod input s out label s' (k : nat) line :
  Asm32.assemble strtod input s = Ret (out, label) s' ->
  out !! k = Some line ->
  (forall (q : nat) l, (q <= k)%nat -> out !! q = Some l -> is_end l = false) ->
  exists c,
    stored_word strtod label line = Some c
    /\ Mipt32.mem s' (Z.of_nat k) = c.
Proof.
  intros H Hk Hend.
  apply assemble32_inv in H as (s1 & _ & Hloop & ->).
  destruct (assemble_loop32_image strtod out label 0 s s1 k line
              ltac:(lia) Hloop Hk Hend) as (c & Hc & Hm).
  exists c. split; [exact Hc | exact Hm].
Qed.

Lemma encode_pass_image_witness :
  exists c,
    stored_word (fun _ => 0) (<["loop" := 1]> ∅) "jmp loop" = Some c
    /\ Mipt32.mem
         (set_reg32
            (set_mem32
               (set_mem32
                  (set_mem32 (set_mem32 (start32 []) 0 0) 1 0)
                  1 (Z.shiftl 3 24 + 1))
               2 (Z.shiftl 46 24 + 1))
            14 (Mipt32.MEMSIZE - 1))
         (Z.of_nat 2) = c.
Proof.
  apply (encode_pass_image (fun _ => 0)
           ["double 0"; "loop:"; "addi r0, 1"; "jmp loop"]%string (start32 [])
           ["double 0"; "addi r0, 1"; "jmp loop"]%string (<["loop"%string := 1]> ∅)
           _ 2%nat "jmp loop"%string).
  - vm_compute. reflexivity.
  - reflexivity.
  - intros q l Hq Hl.
    destruct q as [| [| [| q]]]; [| | | lia]; injection Hl as <-; reflexivity.
Defined.

(** X14. In Profile A a label is bound to the position of what follows its
    declaration: its value is the index [k], in the label-stripped program,
    of the line after the declaration, and, when the encode pass reaches that
    line, the memory word the label addresses is the word of that line. *)
Theorem label_is_position strtod input s out label s' n v :
  Asm32.assemble strtod input s = Ret (out, label) s' ->
  label !! n = Some v ->
  exists k : nat,
    follows_declaration input out n k
    /\ v = Z.of_nat k
    /\ forall line,
         out !! k = Some line ->
         (forall (q : nat) l, (q <= k)%nat -> out !! q = Some l -> is_end l = false) ->
         exists c, stored_word strtod label line = Some c /\ Mipt32.mem s' v = c.
Proof.
  intros H Hv.
  apply assemble32_inv in H as (s1 & Hparse & Hloop & ->).
  apply parse_labels32_inv in Hparse as [_ Hlab]; [| lia].
  apply Hlab in Hv as [Hv | (k & j & line & fp & rest & _ & _ & Hv & Hline & Hs & Hc & Hn & Ho)].
  { rewrite lookup_empty in Hv. discriminate Hv. }
  exists k. split; [exists j, line, fp, rest; repeat split; assumption |].
  split; [exact Hv |].
  intros l Hk Hend. subst v.
  destruct (assemble_loop32_image strtod out label 0 s s1 k l
              ltac:(lia) Hloop Hk Hend) as (c & Hcw & Hm).
  exists c. split; [exact Hcw | exact Hm].
Qed.

Lemma label_is_position_witness :
  exists k : nat,
    follows_declaration
      ["double 0"; "loop:"; "addi r0, 1"; "jmp loop"]%string
      ["double 0"; "addi r0, 1"; "jmp loop"]%string "loop" k
    /\ 1 = Z.of_nat k.
Proof.
  destruct (label_is_position (fun _ => 0)
              ["double 0"; "loop:"; "addi r0, 1"; "jmp loop"]%string (start32 [])
              ["double 0"; "addi r0, 1"; "jmp loop"]%string (<["loop"%string := 1]> ∅)
              (set_reg32
                 (set_mem32
                    (set_mem32
                       (set_mem32 (set_mem32 (start32 []) 0 0) 1 0)
                       1 (Z.shiftl 3 24 + 1))
                    2 (Z.shiftl 46 24 + 1))
                 14 (Mipt32.MEMSIZE - 1))
              "loop"%string 1) as (k & Hf & Hv & _).
  - vm_compute. reflexivity.
  - vm_compute. reflexivity.
  - exists k. split; [exact Hf | exact Hv].
Defined.

Lemma assemble_loop32_reach strtod : forall lines label pc s s' (k : nat) line,
  0 <= pc ->
  Asm32.assemble_loop strtod lines label pc s = Ret tt s' ->
  lines !! k = Some line ->
  (forall (q : nat) l, (q <= k)%nat -> lines !! q = Some l -> is_end l = false) ->
  pc + Z.of_nat k < Mipt32.MEMSIZE.
Proof.
  induction lines as [| first rest IH]; intros label pc s s' k line Hpc H Hk Hend;
    [discriminate Hk |].
  apply assemble_loop32_step in H
    as [[He _] | (_ & Hr & c & s1 & _ & _ & _ & H)]; [| | exact Hpc].
  - rewrite (Hend O first ltac:(lia) eq_refl) in He. discriminate He.
  - destruct k as [| k]; [lia |].
    assert (Hb : pc + 1 + Z.of_nat k < Mipt32.MEMSIZE); [| lia].
    apply (IH label (pc + 1) s1 s' k line ltac:(lia) H Hk).
    intros q l Hq Hl. apply (Hend (S q) l); [lia | exact Hl].
Qed.

(** X15. Assembling and running agree on a jump in Profile A: when the
    program counter is at a line [jmp n] of the assembled program and [n] is
    a label, executing the stored word leaves the program counter at the
    index of the line that follows the declaration of [n], so that line is
    fetched next (a program of at most 2^24 lines, the width of the jump
    field). *)
Theorem jump_reaches_label fpu strtod junk input s out label t (k : nat)
    line n rest v u :
  Asm32.assemble strtod input s = Ret (out, label) t ->
  Z.of_nat (length input) <= 2 ^ 24 ->
  out !! k = Some line ->
  split line = Some ("jmp" :: n :: rest)%string ->
  (forall (q : nat) l, (q <= k)%nat -> out !! q = Some l -> is_end l = false) ->
  label !! n = Some v ->
  Mipt32.mem u (Z.of_nat k) = Mipt32.mem t (Z.of_nat k) ->
  Mipt32.regs u 15 = Z.of_nat k ->
  exists u' (m : nat),
    Mipt32.emulate_step fpu junk u = Ret tt u'
    /\ Mipt32.regs u' 15 = Z.of_nat m
    /\ follows_declaration input out n m.
Proof.
  intros H Hlen Hk Hsplit Hend Hv Hmem Hpc.
  apply assemble32_inv in H as (s1 & Hparse & Hloop & ->).
  unfold Mipt32.parse_labels in Hparse.
  apply parse_labels32_inv in Hparse as [_ Hlab]; [| lia].
  pose proof Hv as Hbound.
  apply Hlab in Hv as [Hv | (m & j & dl & fp & r & Hm & _ & Hv & Hline & Hs & Hc & Hn & Ho)].
  { rewrite lookup_empty in Hv. discriminate Hv. }
  pose proof (assemble_loop32_reach strtod out label 0 s s1 k line
                ltac:(lia) Hloop Hk Hend) as Hreach.
  destruct (assemble_loop32_image strtod out label 0 s s1 k line
              ltac:(lia) Hloop Hk Hend) as (c & Hc' & Hm').
  unfold stored_word in Hc'. rewrite Hsplit in Hc'.
  change (String.eqb "jmp" "end") with false in Hc'.
  change (String.eqb "jmp" "word") with false in Hc'.
  change (String.eqb "jmp" "double") with false in Hc'.
  cbv iota in Hc'.
  destruct (make_comm_J label "jmp" n rest 46 eq_refl eq_refl) as (coded & Hmk & Hop & Htail).
  { unfold Asm32.resolve. rewrite Hbound. lia. }
  rewrite Hmk in Hc'. injection Hc' as <-.
  unfold Asm32.resolve in Htail. rewrite Hbound in Htail.
  assert (Hrow : Mipt32.mem u (Mipt32.regs u 15) = coded).
  { rewrite Hpc, Hmem. cbn [set_reg32 Mipt32.mem]. rewrite <- Hm'. f_equal; lia. }
  destruct (emulate_step32_jmp fpu junk u) as (u' & Hstep & Hnext).
  - rewrite Hpc. lia.
  - rewrite Hrow. exact Hop.
  - exists u', m. split; [exact Hstep |]. split.
    + rewrite Hnext, Hrow, Htail. exact Hv.
    + exists j, dl, fp, r. repeat split; assumption.
Qed.

Lemma jump_reaches_label_witness :
  let t := set_reg32
             (set_mem32
                (set_mem32
                   (set_mem32 (set_mem32 (start32 []) 0 0) 1 0)
                   1 (Z.shiftl 3 24 + 1))
                2 (Z.shiftl 46 24 + 1))
             14 (Mipt32.MEMSIZE - 1) in
  exists u' (m : nat),
    Mipt32.emulate_step null_fpu (0, 0, 0) (set_reg32 t 15 2) = Ret tt u'
    /\ Mipt32.regs u' 15 = Z.of_nat m
    /\ follows_declaration
         ["double 0"; "loop:"; "addi r0, 1"; "jmp loop"]%string
         ["double 0"; "addi r0, 1"; "jmp loop"]%string "loop" m.
Proof.
  intros t.
  apply (jump_reaches_label null_fpu (fun _ => 0) (0, 0, 0)
           ["double 0"; "loop:"; "addi r0, 1"; "jmp loop"]%string (start32 [])
           ["double 0"; "addi r0, 1"; "jmp loop"]%string (<["loop"%string := 1]> ∅)
           t 2%nat "jmp loop"%string "loop"%string [] 1 (set_reg32 t 15 2)).
  - vm_compute. reflexivity.
  - vm_compute. discriminate.
  - reflexivity.
  - vm_compute. reflexivity.
  - intros q l Hq Hl.
    destruct q as [| [| [| q]]]; [| | | lia]; injection Hl as <-; reflexivity.
  - vm_compute. reflexivity.
  - reflexivity.
  - reflexivity.
Defined.

(** ** The label pass on a program without labels *)

Lemma parse_labels32_label_free : forall fuel i input label,
  Forall label_free input ->
  0 <= i -> Z.of_nat (length input) <= INT_MAX ->
  (length input - Z.to_nat i <= fuel)%nat ->
  Mipt32.parse_labels_loop fuel i input label = Val (input, label).
Proof.
  induction fuel as [| fuel IH]; intros i input label Hfree Hi Hmax Hfuel;
    cbn [Mipt32.parse_labels_loop];
    destruct (Z.ltb_spec i (Z.of_nat (length input))) as [Hlt | Hge];
    try reflexivity; [lia |].
  destruct (lookup_lt_is_Some_2 input (Z.to_nat i) ltac:(lia)) as [line Hline].
  rewrite Hline.
  destruct (Z.ltb_spec INT_MAX (i + 1)) as [Hover | _]; [lia |].
  rewrite Forall_lookup in Hfree.
  destruct (Hfree _ _ Hline) as (first_part & rest & -> & Hlast).
  rewrite bool_decide_false by exact Hlast.
  apply IH; [rewrite Forall_lookup; exact Hfree | lia | exact Hmax | lia].
Qed.

Lemma parse_labels64_label_free : forall fuel i input label,
  Forall label_free input ->
  0 <= i -> Z.of_nat (length input) <= INT_MAX ->
  (length input - Z.to_nat i <= fuel)%nat ->
  Mipt64.parse_labels_loop fuel i input label = Val (input, label).
Proof.
  induction fuel as [| fuel IH]; intros i input label Hfree Hi Hmax Hfuel;
    cbn [Mipt64.parse_labels_loop];
    destruct (Z.ltb_spec i (Z.of_nat (length input))) as [Hlt | Hge];
    try reflexivity; [lia |].
  destruct (lookup_lt_is_Some_2 input (Z.to_nat i) ltac:(lia)) as [line Hline].
  rewrite Hline.
  destruct (Z.ltb_spec INT_MAX (i + 1)) as [Hover | _]; [lia |].
  rewrite Forall_lookup in Hfree.
  destruct (Hfree _ _ Hline) as (first_part & rest & -> & Hlast).
  rewrite bool_decide_false by exact Hlast.
  apply IH; [rewrite Forall_lookup; exact Hfree | lia | exact Hmax | lia].
Qed.

(** X16. On a program in which no line begins with a token that ends in a
    colon, the label pass of either profile returns, removes and rewrites no
    line and binds no label (a program of at most [INT_MAX] lines, the range
    of the loop counter). *)
Theorem label_pass_without_labels input label :
  Forall label_free input ->
  Z.of_nat (length input) <= INT_MAX ->
  Mipt32.parse_labels input label = Val (input, label)
  /\ Mipt64.parse_labels input label = Val (input, label).
Proof.
  intros Hfree Hmax. split.
  - apply parse_labels32_label_free; [exact Hfree | lia | exact Hmax | lia].
  - apply parse_labels64_label_free; [exact Hfree | lia | exact Hmax | lia].
Qed.

Lemma label_pass_without_labels_witness :
  Mipt32.parse_labels ["lc r0, 5"; "halt 0"]%string ∅
  = Val (["lc r0, 5"; "halt 0"]%string, ∅)
  /\ Mipt64.parse_labels ["lc r0, 5"; "halt 0"]%string ∅
     = Val (["lc r0, 5"; "halt 0"]%string, ∅).
Proof.
  apply (label_pass_without_labels ["lc r0, 5"; "halt 0"]%string ∅).
  - repeat apply Forall_cons_2; [| | apply Forall_nil_2].
    + exists "lc"%string, ["r0,"; "5"]%string. split; [reflexivity | discriminate].
    + exists "halt"%string, ["0"]%string. split; [reflexivity | discriminate].
  - vm_compute. discriminate.
Defined.

(** ** Reading the program text *)

Lemma erase_blanks_idempotent : forall t,
  Input.erase_blanks (Input.erase_blanks t) = Input.erase_blanks t.
Proof.
  induction t as [| a t IH]; [reflexivity |].
  cbn [Input.erase_blanks].
  destruct (Ascii.eqb a " " || Ascii.eqb a "009") eqn:E; [exact IH |].
  cbn [Input.erase_blanks]. rewrite E. reflexivity.
Qed.

Lemma index_of_erase_blanks c : forall t,
  index_of c t = None -> index_of c (Input.erase_blanks t) = None.
Proof.
  induction t as [| a t IH]; intros H; [reflexivity |].
  cbn [Input.erase_blanks].
  destruct (Ascii.eqb a " " || Ascii.eqb a "009"); [| exact H].
  apply IH. cbn [index_of] in H.
  destruct (Ascii.eqb a c); [discriminate H |].
  destruct (index_of c t); [discriminate H | reflexivity].
Qed.

Lemma index_of_substring c : forall s p n,
  index_of c s = None -> index_of c (String.substring p n s) = None.
Proof.
  induction s as [| a s IH]; intros p n H.
  - destruct p, n; reflexivity.
  - cbn [index_of] in H.
    destruct (Ascii.eqb a c) eqn:E; [discriminate H |].
    destruct (index_of c s) eqn:Es; [discriminate H |].
    destruct p as [| p]; [destruct n as [| n] |]; cbn [String.substring index_of].
    + reflexivity.
    + rewrite E, (IH 0%nat n eq_refl). reflexivity.
    + apply IH. reflexivity.
Qed.

Lemma comment_removed temp :
  index_of ";" (substr temp 0 (Z.min (find ";" temp) (len temp))) = None.
Proof.
  unfold substr. change (Z.to_nat 0) with 0%nat.
  rewrite prefix_index, find_index.
  destruct (index_of ";" temp) as [k |] eqn:E; [| reflexivity].
  pose proof (index_of_lt _ _ _ E) as Hk. unfold len.
  replace (Z.to_nat (Z.min (Z.of_nat k) (Z.of_nat (String.length temp)))) with k by lia.
  rewrite Nat.ltb_irrefl. reflexivity.
Qed.

Lemma keep_clean temp : 0 < len (Input.keep temp) -> clean (Input.keep temp).
Proof.
  intros Hpos. split; [| split].
  - intros E. rewrite E in Hpos. unfold len in Hpos.
    cbn [String.length] in Hpos. lia.
  - unfold Input.keep. cbv zeta. apply erase_blanks_idempotent.
  - rewrite find_index.
    replace (index_of ";" (Input.keep temp)) with (@None nat); [reflexivity |].
    symmetry. unfold Input.keep. cbv zeta.
    pose proof (comment_removed temp) as Hc.
    set (t := substr temp 0 (Z.min (find ";" temp) (len temp))) in *.
    apply index_of_erase_blanks.
    destruct (negb (find ":" t =? npos)); [| exact Hc].
    destruct (3 <? _).
    + apply index_of_erase_blanks, index_of_substring, Hc.
    + apply index_of_substring, Hc.
Qed.

Lemma file_input_loop_clean : forall lines input,
  Forall clean input -> Forall clean (Input.file_input_loop lines input).
Proof.
  induction lines as [| temp lines IH]; intros input Hin; [exact Hin |].
  cbn [Input.file_input_loop]. cbv zeta. apply IH.
  destruct (Z.ltb_spec 0 (len (Input.keep temp))) as [Hpos | _]; [| exact Hin].
  apply Forall_app. split; [exact Hin |].
  apply Forall_cons_2; [apply keep_clean; exact Hpos | apply Forall_nil_2].
Qed.

(** X17. Whatever the text of the file, every line [file_input] stores in
    the program vector is non-empty, begins with neither a blank nor a tab,
    and holds no semicolon: comments and indentation never reach the label
    pass. *)
Theorem stored_lines_clean lines : Forall clean (Input.file_input lines).
Proof. apply file_input_loop_clean. apply Forall_nil_2. Qed.

Lemma append_nil b : ("" ++ b)%string = b.
Proof. reflexivity. Qed.

Lemma append_cons x a b : (String x a ++ b)%string = String x (a ++ b).
Proof. reflexivity. Qed.

Lemma index_of_append c : forall a b,
  index_of c (a ++ b)
  = match index_of c a with
    | Some k => Some k
    | None => (fun k => (String.length a + k)%nat) <$> index_of c b
    end.
Proof.
  induction a as [| x a IH]; intros b;
    rewrite ?append_nil, ?append_cons; cbn [index_of String.length].
  - destruct (index_of c b); reflexivity.
  - destruct (Ascii.eqb x c); [reflexivity |].
    rewrite IH. destruct (index_of c a); [reflexivity |].
    destruct (index_of c b); reflexivity.
Qed.

Lemma find_none c s : len s < npos -> find c s = npos -> index_of c s = None.
Proof.
  intros Hlen H. rewrite find_index in H.
  destruct (index_of c s) as [k |] eqn:E; [| reflexivity].
  apply index_of_lt in E. unfold len in Hlen. lia.
Qed.

Lemma length_append : forall a b,
  String.length (a ++ b) = (String.length a + String.length b)%nat.
Proof.
  induction a as [| x a IH]; intros b;
    rewrite ?append_nil, ?append_cons; cbn [String.length];
    [reflexivity | rewrite IH; reflexivity].
Qed.

Lemma prefix_all : forall s n,
  (String.length s <= n)%nat -> String.substring 0 n s = s.
Proof.
  induction s as [| a s IH]; intros n H; destruct n; cbn in *;
    try reflexivity; try lia.
  rewrite IH by lia. reflexivity.
Qed.

Lemma prefix_of_append : forall a b,
  String.substring 0 (String.length a) (a ++ b) = a.
Proof.
  induction a as [| x a IH]; intros b;
    rewrite ?append_nil, ?append_cons; cbn [String.length].
  - destruct b; reflexivity.
  - cbn [String.substring]. rewrite IH. reflexivity.
Qed.

Lemma suffix_of_append : forall a b,
  String.substring (String.length a) (String.length b) (a ++ b) = b.
Proof.
  induction a as [| x a IH]; intros b;
    rewrite ?append_nil, ?append_cons; cbn [String.length].
  - apply prefix_all. lia.
  - cbn [String.substring]. apply IH.
Qed.

(** X18. A label and an instruction on one line do not both survive
    [file_input].  Of a line [name: rest] without comment, [name] holding no
    colon, only [rest] is stored when [rest], without its leading blanks,
    is longer than 3 characters, so the label is never declared; otherwise
    only [name:] is stored, so a short instruction such as [ret] after a
    label is dropped. *)
Theorem label_or_instruction name rest :
  len (name ++ ":" ++ rest) < npos ->
  find ":" name = npos -> find ";" name = npos -> find ";" rest = npos ->
  Input.keep (name ++ ":" ++ rest)
  = if 3 <? len (Input.erase_blanks rest) then Input.erase_blanks rest
    else Input.erase_blanks (name ++ ":").
Proof.
  change (":" ++ rest)%string with (String ":" rest).
  intros Hlen Hcolon Hsemi Hsemi'.
  assert (Hl : String.length (name ++ String ":" rest)
               = (String.length name + S (String.length rest))%nat).
  { rewrite length_append. reflexivity. }
  unfold len in Hlen. rewrite Hl in Hlen.
  apply find_none in Hcolon; [| unfold len; lia].
  apply find_none in Hsemi; [| unfold len; lia].
  apply find_none in Hsemi'; [| unfold len; lia].
  assert (Hsplit : (name ++ String ":" rest)%string = ((name ++ ":") ++ rest)%string).
  { clear. induction name as [| x name IH]; [reflexivity |].
    rewrite !append_cons, IH. reflexivity. }
  assert (Hfind : find ":" (name ++ String ":" rest) = Z.of_nat (String.length name)).
  { rewrite find_index, index_of_append, Hcolon.
    cbn [index_of Ascii.eqb Bool.eqb fmap option_fmap option_map].
    f_equal. lia. }
  assert (Hnone : find ";" (name ++ String ":" rest) = npos).
  { rewrite find_index, index_of_append, Hsemi.
    cbn [index_of Ascii.eqb Bool.eqb]. rewrite Hsemi'. reflexivity. }
  unfold Input.keep. cbv zeta.
  assert (Hwhole : substr (name ++ String ":" rest) 0
                     (Z.min (find ";" (name ++ String ":" rest))
                            (len (name ++ String ":" rest)))
                   = (name ++ String ":" rest)%string).
  { unfold substr. change (Z.to_nat 0) with 0%nat. apply prefix_all.
    rewrite Hnone. unfold len, npos in *. rewrite Hl. lia. }
  rewrite Hwhole, Hfind.
  replace (Z.of_nat (String.length name) =? npos) with false by (unfold npos in *; lia).
  cbn [negb]. unfold substr, len. rewrite Hl.
  change (Z.to_nat 0) with 0%nat.
  replace (Z.to_nat (Z.of_nat (String.length name) + 1))
    with (String.length (name ++ ":"))
    by (rewrite length_append; cbn [String.length]; lia).
  replace (Z.to_nat (Z.of_nat (String.length name + S (String.length rest))
                     - Z.of_nat (String.length name) - 1))
    with (String.length rest) by lia.
  rewrite Hsplit, prefix_of_append, suffix_of_append.
  destruct (3 <? _); [apply erase_blanks_idempotent | reflexivity].
Qed.

Lemma label_or_instruction_witness :
  Input.keep ("loop" ++ ":" ++ " ret")
  = (if 3 <? len (Input.erase_blanks " ret") then Input.erase_blanks " ret"
     else Input.erase_blanks ("loop" ++ ":"))
  /\ Input.keep ("loop" ++ ":" ++ " halt 0")
     = (if 3 <? len (Input.erase_blanks " halt 0") then Input.erase_blanks " halt 0"
        else Input.erase_blanks ("loop" ++ ":")).
Proof.
  split.
  - apply (label_or_instruction "loop" " ret"); reflexivity.
  - apply (label_or_instruction "loop" " halt 0"); reflexivity.
Defined.

(** ** The assembler of Profile B *)

Lemma lor_fields base lim k n :
  0 <= k -> 0 <= n ->
  Z.shiftr (Z.land (Z.lor base lim) (Z.shiftl (Z.ones n) k)) k
  = Z.lor ((base / 2 ^ k) mod 2 ^ n) ((lim / 2 ^ k) mod 2 ^ n).
Proof.
  intros Hk Hn. rewrite Z.land_lor_distr_l, Z.shiftr_lor.
  rewrite !extract_field by lia. reflexivity.
Qed.

Lemma bl_word base lim :
  base = 19 * 2 ^ 26 \/ base = 19 * 2 ^ 26 + 2 ^ 20 ->
  0 <= lim < 2 ^ 11 ->
  Mipt64.t0_5 (Z.lor base lim) = 19
  /\ Mipt64.t6_10 (Z.lor base lim) = 0
  /\ Mipt64.t21_31 (Z.lor base lim) = lim.
Proof.
  intros Hbase Hlim.
  unfold Mipt64.t0_5, Mipt64.t6_10, Mipt64.t21_31.
  change Mipt64.m0_5 with (Z.shiftl (Z.ones 6) 26).
  change Mipt64.m6_10 with (Z.shiftl (Z.ones 5) 21).
  change Mipt64.m21_31 with (Z.ones 11).
  rewrite !lor_fields by lia.
  rewrite Z.land_lor_distr_l, !Z.land_ones by lia.
  rewrite (Z.div_small lim (2 ^ 26)), (Z.div_small lim (2 ^ 21)) by lia.
  rewrite (Z.mod_small lim (2 ^ 11)) by lia.
  destruct Hbase as [-> | ->]; repeat split; reflexivity.
Qed.

Lemma switch_c64_bl fpu row s :
  Mipt64.t0_5 row = 19 -> Mipt64.t6_10 row = 0 ->
  Mipt64.switch_c fpu row s = Mipt64.bl 0 (Mipt64.t21_31 row) s.
Proof.
  intros Hop Hra. unfold Mipt64.switch_c, Mipt64.decode.
  rewrite Hop. cbn [Mipt64.TYPE]. rewrite Hra. reflexivity.
Qed.

(** X19. A branch to a label in Profile B, assembled by [make_comm] at
    position [pc] and executed with the program counter at [pc]: the offset
    is stored without its direction (the dispatcher keeps the low 11 bits,
    the direction bit is bit 20) and [bl] always subtracts it.  With [d] the
    signed distance from [pc] to the label's value, less than 2^11 either
    way, the program counter becomes [pc - |d|]: the label's value when the
    label is not ahead ([d <= 0]), and a position [d] below [pc], not the
    label, when the label is ahead.  The link register receives [pc]. *)
Theorem bl_to_label fpu label n rest pc v s :
  label !! n = Some v ->
  0 <= v < 2 ^ 64 -> 0 <= pc < 2 ^ 64 ->
  let d := to_llong (w64 (v - pc)) in
  - 2 ^ 11 < d < 2 ^ 11 ->
  Mipt64.regs s 31 = pc ->
  exists coded s',
    Asm64.make_comm label ("bl" :: n :: rest)%string pc s = Ret (coded, label) s
    /\ Mipt64.switch_c fpu coded s = Ret tt s'
    /\ Mipt64.regs s' 30 = pc
    /\ Mipt64.regs s' 31 = w64 (pc - Z.abs d)
    /\ (d <= 0 -> Mipt64.regs s' 31 = v)
    /\ (0 < d -> Mipt64.regs s' 31 = w64 (v - 2 * d) /\ Mipt64.regs s' 31 <> v).
Proof.
  intros Hv Hvr Hpcr d Hd Hpc.
  assert (Hmk : exists base,
             (base = 19 * 2 ^ 26 \/ base = 19 * 2 ^ 26 + 2 ^ 20)
             /\ Asm64.make_comm label ("bl" :: n :: rest)%string pc s
                = Ret (Z.lor base (Z.abs d), label) s).
  { unfold Asm64.make_comm.
    change (Asm64.lexeme ("bl" :: n :: rest)%string 0) with (Val "bl"%string).
    unfold bind at 1. cbn [Asm64.lift].
    replace (default 0 (Asm64.CODE !! "bl"%string)) with 19 by (vm_compute; reflexivity).
    change (Mipt64.dword (Z.shiftl 19 26)) with (19 * 2 ^ 26).
    change (Mipt64.TYPE (Z.shiftr (19 * 2 ^ 26) 26)) with (Some Mipt64.B).
    cbv beta iota.
    change (Asm64.lexeme ("bl" :: n :: rest)%string 1) with (Val n).
    unfold bind at 1. cbn [Asm64.lift]. rewrite Hv.
    unfold Asm64.branch_offset, Mipt64.dword. fold d.
    destruct (Z.ltb_spec d 0) as [Hneg | Hpos].
    - replace (d =? LONG_MIN) with false by (unfold LONG_MIN; lia).
      exists (19 * 2 ^ 26 + 2 ^ 20). split; [right; reflexivity |].
      unfold bind, ret. cbn [Asm64.lift].
      rewrite (w64_small (- d)) by lia.
      replace (Z.abs d) with (- d) by lia. reflexivity.
    - exists (19 * 2 ^ 26). split; [left; reflexivity |].
      unfold bind, ret. cbn [Asm64.lift].
      rewrite (w64_small d) by lia.
      replace (Z.abs d) with d by lia. reflexivity. }
  destruct Hmk as (base & Hbase & Hmk).
  destruct (bl_word base (Z.abs d) Hbase ltac:(lia)) as (Hop & Hra & Himm).
  destruct (bl_writes 0 (Z.abs d) s) as (s' & Hbl & Hlr & _ & Hrel).
  exists (Z.lor base (Z.abs d)), s'.
  assert (Hnext : Mipt64.regs s' 31 = w64 (pc - Z.abs d)).
  { rewrite Hrel, Hpc by lia. reflexivity. }
  assert (Hdist : w64 (v - pc) = w64 d).
  { subst d. pose proof (w64_range (v - pc)) as Hx.
    set (x := w64 (v - pc)) in *. symmetry.
    unfold to_llong. cbv zeta. rewrite (Z.mod_small x) by lia.
    destruct (x <? 2 ^ 63); [apply w64_small; lia |].
    unfold w64. replace (x - 2 ^ 64) with (x + (-1) * 2 ^ 64) by lia.
    rewrite Z_mod_plus_full. apply Z.mod_small. lia. }
  assert (Hsum : w64 (pc + d) = v).
  { unfold w64 in *. rewrite <- Zplus_mod_idemp_r, <- Hdist, Zplus_mod_idemp_r.
    replace (pc + (v - pc)) with v by lia. apply Z.mod_small. exact Hvr. }
  repeat split.
  - exact Hmk.
  - rewrite (switch_c64_bl fpu _ s Hop Hra), Himm. exact Hbl.
  - rewrite Hlr. exact Hpc.
  - exact Hnext.
  - intros Hle. rewrite Hnext. replace (pc - Z.abs d) with (pc + d) by lia. exact Hsum.
  - rewrite Hnext. rewrite <- Hsum. unfold w64.
    rewrite Zminus_mod_idemp_l. f_equal. lia.
  - intros Heq.
    assert (E : w64 (pc - Z.abs d) = w64 (pc + d))
      by (rewrite <- Hnext, Heq, Hsum; reflexivity).
    unfold w64 in E.
    assert (Hz : (2 * d) mod 2 ^ 64 = 0).
    { replace (2 * d) with ((pc + d) - (pc - Z.abs d)) by lia.
      rewrite Zminus_mod, E, Z.sub_diag. reflexivity. }
    rewrite Z.mod_small in Hz by lia. lia.
Qed.

Lemma bl_to_label_witness :
  let back := set_reg64 (start64 []) 31 24 in
  let ahead := set_reg64 (start64 []) 31 8 in
  (exists coded s',
     Asm64.make_comm (<["loop" := 8]> ∅) ["bl"; "loop"]%string 24 back
     = Ret (coded, <["loop" := 8]> ∅) back
     /\ Mipt64.switch_c null_fpu coded back = Ret tt s'
     /\ Mipt64.regs s' 31 = 8)
  /\ (exists coded s',
     Asm64.make_comm (<["done" := 24]> ∅) ["bl"; "done"]%string 8 ahead
     = Ret (coded, <["done" := 24]> ∅) ahead
     /\ Mipt64.switch_c null_fpu coded ahead = Ret tt s'
     /\ Mipt64.regs s' 31 = w64 (24 - 2 * 16)
     /\ Mipt64.regs s' 31 <> 24).
Proof.
  intros back ahead. split.
  - destruct (bl_to_label null_fpu (<["loop"%string := 8]> ∅) "loop"%string [] 24 8 back)
      as (coded & s' & Hmk & Hsw & _ & _ & Hback & _);
      [reflexivity | lia | lia | vm_compute; split; reflexivity | reflexivity |].
    exists coded, s'. split; [exact Hmk |]. split; [exact Hsw |].
    apply Hback. vm_compute. discriminate.
  - destruct (bl_to_label null_fpu (<["done"%string := 24]> ∅) "done"%string [] 8 24 ahead)
      as (coded & s' & Hmk & Hsw & _ & _ & _ & Hahead);
      [reflexivity | lia | lia | vm_compute; split; reflexivity | reflexivity |].
    exists coded, s'. split; [exact Hmk |]. split; [exact Hsw |].
    apply Hahead. vm_compute. reflexivity.
Defined.

Lemma field_of_sum hi f lo k n :
  0 <= k -> 0 <= n -> 0 <= lo < 2 ^ k -> 0 <= f < 2 ^ n ->
  (((hi * 2 ^ n + f) * 2 ^ k + lo) / 2 ^ k) mod 2 ^ n = f.
Proof.
  intros Hk Hn Hlo Hf. rewrite pack_div by lia. apply pack_mod; lia.
Qed.

Lemma TYPE64_RR_range op : Mipt64.TYPE op = Some Mipt64.RR -> 0 <= op < 28.
Proof.
  intros H. destruct op as [| p | p]; [lia | | discriminate H].
  do 6 (try (destruct p as [p | p |]; try discriminate H)); lia.
Qed.

Lemma register_field64 name sh :
  0 < len name -> 0 <= register_number name < 32 -> 0 <= sh <= 21 ->
  Asm64.register name sh = Val (register_number name * 2 ^ sh).
Proof.
  intros Hlen Hr Hsh. unfold Asm64.register, register_number in *.
  assert (Hpow : 0 < 2 ^ sh <= 2 ^ 21)
    by (split; [apply Z.pow_pos_nonneg; lia | apply Z.pow_le_mono_r; lia]).
  destruct (Asm64.REGISTER !! name) as [r |].
  - unfold Mipt64.dword. rewrite Z.shiftl_mul_pow2 by lia.
    rewrite w64_small by nia. reflexivity.
  - unfold Asm32.tail_str. replace (len name <? 1) with false by lia.
    cbn [rbind]. unfold Mipt64.dword.
    rewrite (w64_small (strtol _)) by lia.
    rewrite Z.shiftl_mul_pow2 by lia. rewrite w64_small by nia. reflexivity.
Qed.

(** X20. Assembler and dispatcher of Profile B agree on an instruction with
    a literal operand.  For a mnemonic of format RR (an unknown mnemonic is
    encoded with opcode 0, that of [halt]), a destination register and [rz]
    as source register, [make_comm] returns a word whose opcode field is the
    mnemonic's opcode and which the dispatcher decodes into the destination
    register, register 27 and the literal, for a literal below 2^16. *)
Theorem literal_operand_round_trip fpu label mn a c rest pc s :
  let op := default 0 (Asm64.CODE !! mn) in
  let rd := register_number (Asm64.chop a) in
  Mipt64.TYPE op = Some Mipt64.RR ->
  0 < len (Asm64.chop a) -> 0 <= rd < 32 ->
  label !! "rz,"%string = None -> label !! Asm64.c_str c = None ->
  0 <= strtol c < 2 ^ 16 ->
  exists coded,
    Asm64.make_comm label (mn :: a :: "rz," :: c :: rest)%string pc s
    = Ret (coded, label) s
    /\ Mipt64.t0_5 coded = op
    /\ Mipt64.decode fpu op coded s = Ret (rd, 27, strtol c, 0) s.
Proof.
  intros op rd Htype Hlen Hrd Hrz Hc Himm.
  pose proof (TYPE64_RR_range op Htype) as Hop.
  set (imm := strtol c) in *.
  exists (((op * 2 ^ 5 + rd) * 2 ^ 5 + 27) * 2 ^ 16 + imm).
  assert (H05 : Mipt64.t0_5 (((op * 2 ^ 5 + rd) * 2 ^ 5 + 27) * 2 ^ 16 + imm) = op).
  { unfold Mipt64.t0_5. change Mipt64.m0_5 with (Z.shiftl (Z.ones 6) 26).
    rewrite extract_field by lia.
    replace (((op * 2 ^ 5 + rd) * 2 ^ 5 + 27) * 2 ^ 16 + imm)
      with ((0 * 2 ^ 6 + op) * 2 ^ 26 + (rd * 2 ^ 21 + 27 * 2 ^ 16 + imm)) by lia.
    apply field_of_sum; lia. }
  assert (H610 : Mipt64.t6_10 (((op * 2 ^ 5 + rd) * 2 ^ 5 + 27) * 2 ^ 16 + imm) = rd).
  { unfold Mipt64.t6_10. change Mipt64.m6_10 with (Z.shiftl (Z.ones 5) 21).
    rewrite extract_field by lia.
    replace (((op * 2 ^ 5 + rd) * 2 ^ 5 + 27) * 2 ^ 16 + imm)
      with ((op * 2 ^ 5 + rd) * 2 ^ 21 + (27 * 2 ^ 16 + imm)) by lia.
    apply field_of_sum; lia. }
  assert (H1115 : Mipt64.t11_15 (((op * 2 ^ 5 + rd) * 2 ^ 5 + 27) * 2 ^ 16 + imm) = 27).
  { unfold Mipt64.t11_15. change Mipt64.m11_15 with (Z.shiftl (Z.ones 5) 16).
    rewrite extract_field by lia. apply field_of_sum; lia. }
  assert (H1631 : Mipt64.t16_31 (((op * 2 ^ 5 + rd) * 2 ^ 5 + 27) * 2 ^ 16 + imm) = imm).
  { unfold Mipt64.t16_31. change Mipt64.m16_31 with (Z.ones 16).
    rewrite Z.land_ones by lia. apply pack_mod; lia. }
  split; [| split; [exact H05 |]].
  - unfold Asm64.make_comm.
    change (Asm64.lexeme (mn :: a :: "rz," :: c :: rest)%string 0) with (Val mn).
    unfold bind at 1. cbn [Asm64.lift]. fold op.
    assert (Hcoded : Mipt64.dword (Z.shiftl op 26) = op * 2 ^ 26).
    { unfold Mipt64.dword. rewrite Z.shiftl_mul_pow2 by lia. apply w64_small. lia. }
    rewrite Hcoded.
    replace (Z.shiftr (op * 2 ^ 26) 26) with op
      by (rewrite Z.shiftr_div_pow2, Z.div_mul by lia; reflexivity).
    rewrite Htype.
    change (Asm64.lexeme (mn :: a :: "rz," :: c :: rest)%string 1) with (Val a).
    unfold bind at 1. cbn [Asm64.lift].
    rewrite (register_field64 (Asm64.chop a) 21 Hlen Hrd ltac:(lia)). fold rd.
    unfold bind at 1. cbn [Asm64.lift].
    change (Asm64.lexeme (mn :: a :: "rz," :: c :: rest)%string 2) with (Val "rz,"%string).
    unfold bind at 1. cbn [Asm64.lift]. rewrite Hrz.
    change (Asm64.register (Asm64.chop "rz,") 16) with (Val (27 * 2 ^ 16)).
    unfold bind at 1. cbn [Asm64.lift].
    change (Asm64.lexeme (mn :: a :: "rz," :: c :: rest)%string 3) with (Val c).
    unfold bind at 1. cbn [Asm64.lift]. rewrite Hc.
    change (Z.shiftr (27 * 2 ^ 16) 16 =? 27) with true. cbv iota. fold imm.
    unfold ret, Mipt64.dword. rewrite (w64_small imm) by lia.
    rewrite (w64_small (rd * 2 ^ 21 + 27 * 2 ^ 16)) by lia.
    rewrite (w64_small (rd * 2 ^ 21 + 27 * 2 ^ 16 + imm)) by lia.
    rewrite w64_small by lia.
    do 2 f_equal. lia.
  - unfold Mipt64.decode. rewrite Htype, H1115, H610, H1631. reflexivity.
Qed.

Lemma literal_operand_round_trip_witness :
  exists coded,
    Asm64.make_comm ∅ ["add"; "r1,"; "rz,"; "5"]%string 0 (start64 [])
    = Ret (coded, ∅) (start64 [])
    /\ Mipt64.t0_5 coded = default 0 (Asm64.CODE !! "add"%string)
    /\ Mipt64.decode null_fpu (default 0 (Asm64.CODE !! "add"%string)) coded (start64 [])
       = Ret (register_number (Asm64.chop "r1,"), 27, strtol "5", 0) (start64 []).
Proof.
  apply (literal_operand_round_trip null_fpu ∅ "add"%string "r1,"%string "5"%string
           [] 0 (start64 [])).
  - reflexivity.
  - reflexivity.
  - vm_compute. split; [discriminate | reflexivity].
  - reflexivity.
  - reflexivity.
  - vm_compute. split; [discriminate | reflexivity].
Defined.

(** ** Memory operands of Profile B *)

Lemma field_range x k n :
  0 <= k -> 0 <= n ->
  0 <= Z.shiftr (Z.land x (Z.shiftl (Z.ones n) k)) k < 2 ^ n.
Proof.
  intros Hk Hn. rewrite extract_field by lia. apply Z.mod_pos_bound. lia.
Qed.

Lemma w64_add_l a b : w64 (w64 a + b) = w64 (a + b).
Proof. unfold w64. apply Zplus_mod_idemp_l. Qed.

Lemma w64_add_r a b : w64 (a + w64 b) = w64 (a + b).
Proof. unfold w64. apply Zplus_mod_idemp_r. Qed.

Lemma composite64_ok ri sh lit s :
  0 <= ri < 33 ->
  Mipt64.composite ri sh lit s
  = Ret (Mipt64.dword (Mipt64.dword (Z.shiftl (Mipt64.regs s ri) sh) + lit)) s.
Proof.
  intros H. unfold Mipt64.composite.
  rewrite (bind_ret _ _ _ _ _ (greg64_ok ri s H)). reflexivity.
Qed.

Lemma decode64_RM_composite fpu type row s :
  Mipt64.TYPE type = Some Mipt64.RM ->
  let ra := Mipt64.t11_15 row in
  let ri := Mipt64.t16_20 row in
  ra <> 27 -> ra <> 29 -> ra <> 31 -> ri <> 27 ->
  Mipt64.decode fpu type row s
  = Ret (Mipt64.t6_10 row, 0,
         w64 (Mipt64.regs s ra + Mipt64.regs s ri * 2 ^ Mipt64.t21_23 row
              + Mipt64.t24_31 row),
         ra) s.
Proof.
  intros Htype ra ri H27 H29 H31 Hri. unfold Mipt64.decode. rewrite Htype.
  fold ra ri.
  replace ((ra =? 27) || (ra =? 29) || (ra =? 31)) with false by lia.
  replace (ri =? 27) with false by lia.
  assert (Hra : 0 <= ra < 32).
  { subst ra. unfold Mipt64.t11_15.
    change Mipt64.m11_15 with (Z.shiftl (Z.ones 5) 16). apply field_range; lia. }
  assert (Hrir : 0 <= ri < 32).
  { subst ri. unfold Mipt64.t16_20.
    change Mipt64.m16_20 with (Z.shiftl (Z.ones 5) 11). apply field_range; lia. }
  assert (Hsh : 0 <= Mipt64.t21_23 row < 8).
  { unfold Mipt64.t21_23.
    change Mipt64.m21_23 with (Z.shiftl (Z.ones 3) 8). apply field_range; lia. }
  rewrite (bind_ret _ _ _ _ _ (greg64_ok ra s ltac:(lia))).
  rewrite (bind_ret _ _ _ _ _ (composite64_ok ri _ _ s ltac:(lia))).
  unfold ret, Mipt64.dword. do 2 f_equal.
  rewrite Z.shiftl_mul_pow2 by lia.
  rewrite w64_add_l, w64_add_r, Z.add_assoc. reflexivity.
Qed.

(** X21. A load or store of Profile B whose base is an ordinary register
    (not [rz], [sp] or [pc]) and whose index register is not [rz] counts the
    base twice: the dispatcher already adds the base register to the
    operand it decodes, and [ld] and [st] add it again, so the address used
    is twice the base plus the shifted index plus the literal. *)
Theorem base_register_counted_twice fpu row s :
  let rd := Mipt64.t6_10 row in
  let ra := Mipt64.t11_15 row in
  let ri := Mipt64.t16_20 row in
  let adr := w64 (2 * Mipt64.regs s ra
                  + Mipt64.regs s ri * 2 ^ Mipt64.t21_23 row
                  + Mipt64.t24_31 row) in
  ra <> 27 -> ra <> 29 -> ra <> 31 -> ri <> 27 ->
  adr + 8 <= Mipt64.MEMSIZE ->
  (Mipt64.t0_5 row = 28 ->
   Mipt64.switch_c fpu row s
   = Ret tt (set_reg64 s rd (Mipt64.load_le 8 (Mipt64.mem s) adr)))
  /\ (Mipt64.t0_5 row = 29 ->
      Mipt64.switch_c fpu row s = Ret tt (set_mem64 s adr (Mipt64.regs s rd))).
Proof.
  intros rd ra ri adr H27 H29 H31 Hri Hadr.
  pose proof (w64_range (2 * Mipt64.regs s ra
                         + Mipt64.regs s ri * 2 ^ Mipt64.t21_23 row
                         + Mipt64.t24_31 row)) as Hlow. fold adr in Hlow.
  assert (Hra : 0 <= ra < 32).
  { subst ra. unfold Mipt64.t11_15.
    change Mipt64.m11_15 with (Z.shiftl (Z.ones 5) 16). apply field_range; lia. }
  assert (Hrd : 0 <= rd < 32).
  { subst rd. unfold Mipt64.t6_10.
    change Mipt64.m6_10 with (Z.shiftl (Z.ones 5) 21). apply field_range; lia. }
  assert (Hsum : forall imm,
             imm = w64 (Mipt64.regs s ra + Mipt64.regs s ri * 2 ^ Mipt64.t21_23 row
                        + Mipt64.t24_31 row) ->
             Mipt64.dword (Mipt64.regs s ra + imm) = adr).
  { intros imm ->. unfold Mipt64.dword. rewrite w64_add_r. subst adr. f_equal. lia. }
  split; intros Hop; unfold Mipt64.switch_c; rewrite Hop;
    [rewrite (bind_ret _ _ _ _ _
                (decode64_RM_composite fpu 28 row s eq_refl H27 H29 H31 Hri))
    |rewrite (bind_ret _ _ _ _ _
                (decode64_RM_composite fpu 29 row s eq_refl H27 H29 H31 Hri))];
    cbv beta iota; fold ra rd ri.
  - unfold Mipt64.ld. replace (ra =? 29) with false by lia.
    rewrite (bind_ret _ _ _ _ _ (greg64_ok ra s ltac:(lia))).
    rewrite (Hsum _ eq_refl).
    rewrite (bind_ret _ _ _ _ _ (gmem64_ok adr s ltac:(lia) Hadr)).
    apply sreg64_ok. lia.
  - unfold Mipt64.st. replace (ra =? 29) with false by lia.
    rewrite (bind_ret _ _ _ _ _ (greg64_ok ra s ltac:(lia))).
    rewrite (bind_ret _ _ _ _ _ (greg64_ok rd s ltac:(lia))).
    rewrite (Hsum _ eq_refl).
    apply smem64_ok; [lia | exact Hadr].
Qed.

Lemma base_register_counted_twice_witness :
  let row := Z.shiftl 28 26 + Z.shiftl 1 21 + Z.shiftl 2 16 + Z.shiftl 3 11 in
  let s := set_reg64 (start64 []) 2 40 in
  Mipt64.switch_c null_fpu row s
  = Ret tt (set_reg64 s (Mipt64.t6_10 row)
              (Mipt64.load_le 8 (Mipt64.mem s)
                 (w64 (2 * Mipt64.regs s (Mipt64.t11_15 row)
                       + Mipt64.regs s (Mipt64.t16_20 row) * 2 ^ Mipt64.t21_23 row
                       + Mipt64.t24_31 row)))).
Proof.
  intros row s.
  apply (proj1 (base_register_counted_twice null_fpu row s
                  ltac:(vm_compute; discriminate) ltac:(vm_compute; discriminate)
                  ltac:(vm_compute; discriminate) ltac:(vm_compute; discriminate)
                  ltac:(vm_compute; discriminate))).
  reflexivity.
Defined.

(** ** What an instruction leaves untouched *)

Lemma preserves_ret {S A X} (f : S -> X) (a : A) : preserves f (ret a).
Proof. intros s b s' H. injection H as _ <-. reflexivity. Qed.

Lemma preserves_fail {S A X} (f : S -> X) (e : fault) :
  preserves f (fail e : M S A).
Proof. intros s b s' H. discriminate H. Qed.

Lemma preserves_exit {S A X} (f : S -> X) (c : Z) :
  preserves f (exit c : M S A).
Proof. intros s b s' H. discriminate H. Qed.

Lemma preserves_bind {S A B X} (f : S -> X) (m : M S A) (k : A -> M S B) :
  preserves f m -> (forall a, preserves f (k a)) -> preserves f (bind m k).
Proof.
  intros Hm Hk s b s' H. unfold bind in H.
  destruct (m s) as [a s1 | c s1 | e] eqn:E; try discriminate H.
  rewrite (Hk a _ _ _ H). exact (Hm _ _ _ E).
Qed.

Lemma greg32_preserves {X} (f : Mipt32.state -> X) adr :
  preserves f (Mipt32.greg adr).
Proof.
  intros s a s' H. unfold Mipt32.greg in H.
  destruct (_ && _); [injection H as _ <-; reflexivity | discriminate H].
Qed.

Lemma gmem32_preserves {X} (f : Mipt32.state -> X) adr :
  preserves f (Mipt32.gmem adr).
Proof.
  intros s a s' H. unfold Mipt32.gmem in H.
  destruct (_ && _); [injection H as _ <-; reflexivity | discriminate H].
Qed.

Lemma sreg32_preserves {X} (f : Mipt32.state -> X) adr val :
  (forall s, f (set_reg32 s adr val) = f s) -> preserves f (Mipt32.sreg adr val).
Proof.
  intros Hf s a s' H. unfold Mipt32.sreg in H.
  destruct (_ && _); [injection H as _ <-; apply Hf | discriminate H].
Qed.

Lemma smem32_preserves {X} (f : Mipt32.state -> X) adr val :
  (forall s, f (set_mem32 s adr val) = f s) -> preserves f (Mipt32.smem adr val).
Proof.
  intros Hf s a s' H. unfold Mipt32.smem in H.
  destruct (_ && _); [injection H as _ <-; apply Hf | discriminate H].
Qed.

Lemma scan32_preserves {X} (f : Mipt32.state -> X) :
  (forall s rest,
     f (Mipt32.mkState (Mipt32.mem s) (Mipt32.regs s) rest (Mipt32.stdout s)) = f s) ->
  preserves f Mipt32.scan.
Proof.
  intros Hf s a s' H. unfold Mipt32.scan in H.
  destruct (Mipt32.stdin s); [discriminate H | injection H as _ <-; apply Hf].
Qed.

Lemma print32_preserves {X} (f : Mipt32.state -> X) e :
  (forall s, f (printed32 s e) = f s) -> preserves f (Mipt32.print e).
Proof. intros Hf s a s' H. injection H as _ <-. apply Hf. Qed.

Lemma greg64_preserves {X} (f : Mipt64.state -> X) adr :
  preserves f (Mipt64.greg adr).
Proof.
  intros s a s' H. unfold Mipt64.greg in H.
  destruct (_ && _); [injection H as _ <-; reflexivity | discriminate H].
Qed.

Lemma gmem64_preserves {X} (f : Mipt64.state -> X) adr :
  preserves f (Mipt64.gmem adr).
Proof.
  intros s a s' H. unfold Mipt64.gmem in H.
  destruct (_ && _); [injection H as _ <-; reflexivity | discriminate H].
Qed.

Lemma sreg64_preserves {X} (f : Mipt64.state -> X) adr val :
  (forall s, f (set_reg64 s adr val) = f s) -> preserves f (Mipt64.sreg adr val).
Proof.
  intros Hf s a s' H. unfold Mipt64.sreg in H.
  destruct (_ && _); [injection H as _ <-; apply Hf | discriminate H].
Qed.

Lemma smem64_preserves {X} (f : Mipt64.state -> X) adr val :
  (forall s, f (set_mem64 s adr val) = f s) -> preserves f (Mipt64.smem adr val).
Proof.
  intros Hf s a s' H. unfold Mipt64.smem in H.
  destruct (_ && _); [injection H as _ <-; apply Hf | discriminate H].
Qed.

Lemma scan64_preserves {X} (f : Mipt64.state -> X) :
  (forall s rest,
     f (Mipt64.mkState (Mipt64.mem s) (Mipt64.regs s) rest (Mipt64.stdout s)) = f s) ->
  preserves f Mipt64.scan.
Proof.
  intros Hf s a s' H. unfold Mipt64.scan in H.
  destruct (Mipt64.stdin s); [discriminate H | injection H as _ <-; apply Hf].
Qed.

Lemma print64_preserves {X} (f : Mipt64.state -> X) e :
  (forall s, f (printed64 s e) = f s) -> preserves f (Mipt64.print e).
Proof. intros Hf s a s' H. injection H as _ <-. apply Hf. Qed.

(** The side condition of a write: the component does not see it. *)
Ltac unseen :=
  intros;
  cbn [set_reg32 set_mem32 printed32 set_reg64 set_mem64 printed64
       Mipt32.mem Mipt32.regs Mipt32.stdin Mipt32.stdout
       Mipt64.mem Mipt64.regs Mipt64.stdin Mipt64.stdout];
  first [ reflexivity
        | apply upd_other; unfold Mipt32.word in *; first [congruence | lia]
        | apply upd64_other; unfold Mipt64.dword in *; first [congruence | lia] ].

Ltac frame :=
  repeat (autounfold with operations;
          first [ apply preserves_ret
                | apply preserves_fail
                | apply preserves_exit
                | apply greg32_preserves | apply gmem32_preserves
                | apply greg64_preserves | apply gmem64_preserves
                | apply sreg32_preserves; unseen
                | apply smem32_preserves; unseen
                | apply scan32_preserves; unseen
                | apply print32_preserves; unseen
                | apply sreg64_preserves; unseen
                | apply smem64_preserves; unseen
                | apply scan64_preserves; unseen
                | apply print64_preserves; unseen
                | apply preserves_bind; [| intros ?]
                | match goal with
                  | |- preserves _ (if ?b then _ else _) => destruct b
                  | |- preserves _ (match ?x with _ => _ end) => destruct x
                  end ]).

Ltac framed H :=
  match type of H with
  | ?m ?s = Ret _ _ =>
      match goal with
      | |- ?g _ = ?g s =>
          let Hp := fresh "Hp" in
          assert (Hp : preserves g m) by frame; exact (Hp _ _ _ H)
      | |- ?g _ ?r = ?g s ?r =>
          let Hp := fresh "Hp" in
          assert (Hp : preserves (fun st => g st r) m) by frame; exact (Hp _ _ _ H)
      end
  end.

Lemma syscall_keeps_memory reg arg : preserves Mipt32.mem (Mipt32.syscall reg arg).
Proof.
  unfold Mipt32.syscall. destruct arg as [| p | p]; [frame | | frame].
  do 7 (try (destruct p as [p | p |])); frame.
Qed.

Lemma svc_keeps_memory rd rs imm : preserves Mipt64.mem (Mipt64.svc rd rs imm).
Proof.
  unfold Mipt64.svc. destruct imm as [| p | p]; [frame | | frame].
  do 7 (try (destruct p as [p | p |])); frame.
Qed.

Lemma decode64_preserves {X} (f : Mipt64.state -> X) fpu type row :
  preserves f (Mipt64.decode fpu type row).
Proof.
  intros s a s' H. apply decode64_pure in H. rewrite H. reflexivity.
Qed.

(** X22. What an instruction never touches.  In Profile A only the system
    call reads or writes the console, and only [push], [call], [calli] and
    the four store operations write memory; in Profile B only [svc] reads or
    writes the console and only [st] writes memory. *)
Theorem instruction_effects :
  (forall fpu junk type tail s s',
     Mipt32.switch_c fpu junk type tail s = Ret tt s' ->
     (type <> 1 ->
      Mipt32.stdin s' = Mipt32.stdin s /\ Mipt32.stdout s' = Mipt32.stdout s)
     /\ (~ In type [38; 40; 41; 65; 67; 70; 71] -> Mipt32.mem s' = Mipt32.mem s))
  /\ (forall fpu row s s',
     Mipt64.switch_c fpu row s = Ret tt s' ->
     (Mipt64.t0_5 row <> 1 ->
      Mipt64.stdin s' = Mipt64.stdin s /\ Mipt64.stdout s' = Mipt64.stdout s)
     /\ (Mipt64.t0_5 row <> 29 -> Mipt64.mem s' = Mipt64.mem s)).
Proof.
  split.
  - intros fpu junk type tail s s' H. unfold Mipt32.switch_c in H.
    destruct junk as [[j1 j2] j3].
    destruct type as [| p | p]; [discriminate H | | discriminate H].
    split.
    + intros Hsys.
      do 7 (try (destruct p as [p | p |]));
        cbn [Mipt32.TYPE] in H; try discriminate H; try congruence;
        destruct (Mipt32.decode _ _ _) as [[r1 r2] md]; cbv beta iota in H;
        (split; framed H).
    + intros Hmem. cbn [In] in Hmem.
      do 7 (try (destruct p as [p | p |]));
        cbn [Mipt32.TYPE] in H; try discriminate H; try (exfalso; tauto);
        destruct (Mipt32.decode _ _ _) as [[r1 r2] md]; cbv beta iota in H;
        first [framed H | exact (syscall_keeps_memory _ _ _ _ _ H)].
  - intros fpu row s s' H. unfold Mipt64.switch_c in H. unfold bind at 1 in H.
    destruct (Mipt64.decode fpu (Mipt64.t0_5 row) row s)
      as [[[[rd rs] imm] ra] s1 | c1 s1 | f] eqn:Hd; try discriminate H.
    apply decode64_pure in Hd. subst s1.
    destruct (Mipt64.t0_5 row) as [| p | p].
    + discriminate H.
    + split.
      * intros Hsys.
        do 6 (try (destruct p as [p | p |])); try congruence; (split; framed H).
      * intros Hmem.
        do 6 (try (destruct p as [p | p |])); try congruence;
          first [framed H | exact (svc_keeps_memory _ _ _ _ _ _ H)].
    + injection H as <-. repeat split.
Qed.

Lemma instruction_effects_witness :
  let s := start32 [] in
  let s' := set_reg32 s 0 1 in
  (3 <> 1 ->
   Mipt32.stdin s' = Mipt32.stdin s /\ Mipt32.stdout s' = Mipt32.stdout s)
  /\ (~ In 3 [38; 40; 41; 65; 67; 70; 71] -> Mipt32.mem s' = Mipt32.mem s).
Proof.
  intros s s'.
  apply (proj1 instruction_effects null_fpu (0, 0, 0) 3 1 s s').
  vm_compute. reflexivity.
Defined.

(** X23. An arithmetic, logic, shift, move or floating-point instruction
    writes its destination and nothing else in the register file: in
    Profile A (opcodes 2 to 37) every register other than [r1] and [r1 + 1]
    keeps its value, [r1] being the register the dispatcher hands to the
    operation; in Profile B (opcodes 2 to 27, the branch apart) every
    register other than the destination and the flag register keeps its
    value. *)
Theorem destination_only :
  (forall fpu junk type tail fmt s s' r,
     Mipt32.TYPE type = Some fmt ->
     Mipt32.switch_c fpu junk type tail s = Ret tt s' ->
     2 <= type <= 37 ->
     let r1 := (Mipt32.decode junk fmt tail).1.1 in
     r <> r1 -> r <> w64 (r1 + 1) ->
     Mipt32.regs s' r = Mipt32.regs s r)
  /\ (forall fpu row s s' r,
     Mipt64.switch_c fpu row s = Ret tt s' ->
     2 <= Mipt64.t0_5 row <= 27 -> Mipt64.t0_5 row <> 19 ->
     r <> Mipt64.t6_10 row -> r <> 32 ->
     Mipt64.regs s' r = Mipt64.regs s r).
Proof.
  split.
  - intros fpu junk type tail fmt s s' r Htype H Hrange r1 Hr1 Hr2.
    unfold Mipt32.switch_c in H. rewrite Htype in H. subst r1.
    destruct (Mipt32.decode junk fmt tail) as [[r1 r2] md].
    cbn [fst] in Hr1, Hr2.
    destruct type as [| p | p]; [lia | | lia].
    do 7 (try (destruct p as [p | p |])); try lia;
      cbn [Mipt32.TYPE] in Htype; try discriminate Htype;
      cbv beta iota in H; framed H.
  - intros fpu row s s' r H Hrange Hbl Hrd Hflag.
    unfold Mipt64.switch_c in H. unfold bind at 1 in H.
    assert (Hdest : forall rd rs imm ra s1,
               Mipt64.decode fpu (Mipt64.t0_5 row) row s = Ret (rd, rs, imm, ra) s1 ->
               rd = Mipt64.t6_10 row).
    { intros rd rs imm ra s1 Hd. unfold Mipt64.decode in Hd.
      assert (Hrr : Mipt64.TYPE (Mipt64.t0_5 row) = Some Mipt64.RR).
      { destruct (Mipt64.t0_5 row) as [| p | p]; try lia.
        do 6 (try (destruct p as [p | p |])); try lia; reflexivity. }
      rewrite Hrr in Hd.
      repeat match type of Hd with
             | context [if ?b then _ else _] => destruct b
             end;
        unfold Mipt64.composite, bind, ret, Mipt64.greg in Hd;
        repeat match type of Hd with
               | context [if ?b then _ else _] => destruct b
               end;
        try discriminate Hd; injection Hd as <- _ _ _ _; reflexivity. }
    destruct (Mipt64.decode fpu (Mipt64.t0_5 row) row s)
      as [[[[rd rs] imm] ra] s1 | c1 s1 | f] eqn:Hd; try discriminate H.
    pose proof (Hdest _ _ _ _ _ eq_refl) as Hrd'. rewrite <- Hrd' in Hrd.
    apply decode64_pure in Hd. subst s1. clear Hdest Hrd'.
    destruct (Mipt64.t0_5 row) as [| p | p]; try lia.
    do 6 (try (destruct p as [p | p |])); try lia; try congruence; framed H.
Qed.

Lemma destination_only_witness :
  let s := set_reg32 (set_reg32 (start32 []) 2 7) 1 5 in
  let s' := set_reg32 s 1 12 in
  Mipt32.regs s' 5 = Mipt32.regs s 5.
Proof.
  intros s s'.
  apply (proj1 destination_only null_fpu (0, 0, 0) 2
           (Z.shiftl 1 20 + Z.shiftl 2 16) Mipt32.RR s s' 5).
  - reflexivity.
  - vm_compute. reflexivity.
  - lia.
  - vm_compute. discriminate.
  - vm_compute. discriminate.
Defined.

(** ** Where a run of Profile A starts *)

Lemma assemble_loop32_step_regs strtod line rest label pc s s' :
  Asm32.assemble_loop strtod (line :: rest) label pc s = Ret tt s' ->
  (exists n args,
     split line = Some ("end" :: n :: args)%string
     /\ s' = set_reg32 s 15 (default 0 (label !! n)))
  \/ (is_end line = false
      /\ exists s1 pc',
           Mipt32.regs s1 = Mipt32.regs s
           /\ Asm32.assemble_loop strtod rest label pc' s1 = Ret tt s').
Proof.
  intros H. cbn [Asm32.assemble_loop] in H. unfold is_end.
  destruct (split line) as [[| op args] |]; try discriminate H.
  change (Asm32.lexeme (op :: args) 0) with (Val op) in H.
  change (Asm32.lexeme (op :: args) 1) with (Asm32.lexeme args 0) in H.
  unfold bind at 1 in H. cbn [Asm32.lift] in H.
  destruct (String.eqb_spec op "end") as [-> | _].
  { left. destruct args as [| name args]; [discriminate H |].
    change (Asm32.lexeme (name :: args) 0) with (Val name) in H.
    unfold bind, Mipt32.sreg in H. cbn [Asm32.lift] in H.
    destruct (_ && _); [| discriminate H]. injection H as <-.
    exists name, args. split; reflexivity. }
  right. split; [reflexivity |].
  destruct (String.eqb op "word").
  { destruct args as [| arg args]; [discriminate H |].
    change (Asm32.lexeme (arg :: args) 0) with (Val arg) in H.
    unfold bind at 1 in H. cbn [Asm32.lift] in H.
    apply smem32_bind_inv in H as [_ H]; [| eauto].
    eexists _, _. split; [| exact H]. reflexivity. }
  destruct (String.eqb op "double").
  { destruct args as [| arg args]; [discriminate H |].
    change (Asm32.lexeme (arg :: args) 0) with (Val arg) in H.
    unfold bind at 1 in H. cbn [Asm32.lift] in H. cbv zeta in H.
    apply smem32_bind_inv in H as [_ H]; [| eauto].
    apply smem32_bind_inv in H as [_ H]; [| eauto].
    eexists _, _. split; [| exact H]. reflexivity. }
  unfold bind at 1 in H.
  destruct (Asm32.make_comm label (op :: args)) as [comm | f];
    cbn [Asm32.lift] in H; [| discriminate H].
  apply smem32_bind_inv in H as [_ H]; [| eauto].
  eexists _, _. split; [| exact H]. reflexivity.
Qed.

Lemma assemble_loop32_regs strtod : forall lines label pc s s',
  Asm32.assemble_loop strtod lines label pc s = Ret tt s' ->
  (forall r, r <> 15 -> Mipt32.regs s' r = Mipt32.regs s r)
  /\ (forall (e : nat) line n args,
        lines !! e = Some line ->
        split line = Some ("end" :: n :: args)%string ->
        (forall (q : nat) l, (q < e)%nat -> lines !! q = Some l -> is_end l = false) ->
        Mipt32.regs s' 15 = default 0 (label !! n))
  /\ (Forall (fun l => is_end l = false) lines ->
      Mipt32.regs s' 15 = Mipt32.regs s 15).
Proof.
  induction lines as [| first rest IH]; intros label pc s s' H.
  - injection H as <-. repeat split. intros e line n args He. discriminate He.
  - apply assemble_loop32_step_regs in H
      as [(n0 & args0 & Hs0 & ->) | (Hne & s1 & pc' & Hregs & H)].
    + assert (Hend0 : is_end first = true) by (unfold is_end; rewrite Hs0; reflexivity).
      split; [| split].
      * intros r Hr. cbn [set_reg32 Mipt32.regs]. apply upd_other. exact Hr.
      * intros e line n args He Hs Hbefore. destruct e as [| e].
        -- injection He as <-. rewrite Hs0 in Hs. injection Hs as <- _.
           cbn [set_reg32 Mipt32.regs]. apply upd_same.
        -- rewrite (Hbefore O first ltac:(lia) eq_refl) in Hend0. discriminate Hend0.
      * intros Hall. apply Forall_cons in Hall as [Hf _].
        rewrite Hf in Hend0. discriminate Hend0.
    + destruct (IH label pc' s1 s' H) as (Hother & Hentry & Hnone).
      split; [| split].
      * intros r Hr. rewrite (Hother r Hr), Hregs. reflexivity.
      * intros e line n args He Hs Hbefore. destruct e as [| e].
        -- injection He as <-. unfold is_end in Hne. rewrite Hs in Hne.
           discriminate Hne.
        -- apply (Hentry e line n args He Hs).
           intros q l Hq Hl. apply (Hbefore (S q) l); [lia | exact Hl].
      * intros Hall. apply Forall_cons in Hall as [_ Hall].
        rewrite (Hnone Hall), Hregs. reflexivity.
Qed.

(** X24. Where a run of Profile A starts.  [assemble] leaves the stack
    pointer at the last word of the memory and, when the program holds a line
    [end n], the program counter at the value of the label [n] (0 for a name
    that is no label); without an [end] line the program counter is left as
    it was.  With [n] a label, the word the program counter then addresses is
    the word of the line that follows the declaration of [n], when that line
    comes before the [end] line: the run starts there. *)
Theorem entry_point strtod input s out label t :
  Asm32.assemble strtod input s = Ret (out, label) t ->
  Mipt32.regs t 14 = Mipt32.MEMSIZE - 1
  /\ (Forall (fun l => is_end l = false) out ->
      Mipt32.regs t 15 = Mipt32.regs s 15)
  /\ (forall (e : nat) line n args,
        out !! e = Some line ->
        split line = Some ("end" :: n :: args)%string ->
        (forall (q : nat) l, (q < e)%nat -> out !! q = Some l -> is_end l = false) ->
        Mipt32.regs t 15 = default 0 (label !! n)
        /\ forall v, label !! n = Some v ->
             exists k : nat,
               follows_declaration input out n k
               /\ Mipt32.regs t 15 = Z.of_nat k
               /\ forall l, out !! k = Some l -> (k < e)%nat ->
                    exists c,
                      stored_word strtod label l = Some c
                      /\ Mipt32.mem t (Mipt32.regs t 15) = c).
Proof.
  intros H.
  apply assemble32_inv in H as (s1 & Hparse & Hloop & ->).
  destruct (assemble_loop32_regs strtod out label 0 s s1 Hloop)
    as (Hother & Hentry & Hnone).
  split; [cbn [set_reg32 Mipt32.regs]; apply upd_same |].
  split.
  - intros Hall. cbn [set_reg32 Mipt32.regs]. rewrite upd_other by lia.
    apply Hnone. exact Hall.
  - intros e line n args He Hs Hbefore.
    assert (Hpc : Mipt32.regs (set_reg32 s1 14 (Mipt32.MEMSIZE - 1)) 15
                  = default 0 (label !! n)).
    { cbn [set_reg32 Mipt32.regs]. rewrite upd_other by lia.
      apply (Hentry e line n args He Hs Hbefore). }
    split; [exact Hpc |].
    intros v Hv. rewrite Hpc, Hv. cbn [default].
    unfold Mipt32.parse_labels in Hparse.
    apply parse_labels32_inv in Hparse as [_ Hlab]; [| lia].
    apply Hlab in Hv
      as [Hv | (k & j & dl & fp & r & _ & _ & Hv & Hline & Hsp & Hc & Hn & Ho)].
    { rewrite lookup_empty in Hv. discriminate Hv. }
    exists k. split; [exists j, dl, fp, r; repeat split; assumption |].
    split; [exact Hv |].
    intros l Hk Hke. subst v.
    destruct (assemble_loop32_image strtod out label 0 s s1 k l
                ltac:(lia) Hloop Hk) as (c & Hcw & Hm).
    + intros q l' Hq Hl'. apply (Hbefore q l'); [lia | exact Hl'].
    + exists c. split; [exact Hcw | exact Hm].
Qed.

Lemma entry_point_witness :
  let t := set_reg32
             (set_reg32
                (set_mem32
                   (set_mem32 (set_mem32 (start32 []) 0 7) 1 (Z.shiftl 3 24 + 1))
                   2 (Z.shiftl 46 24 + 1))
                15 1)
             14 (Mipt32.MEMSIZE - 1) in
  Mipt32.regs t 14 = Mipt32.MEMSIZE - 1
  /\ Mipt32.regs t 15 = default 0 ((<["main" := 1]> ∅ : gmap string Z) !! "main").
Proof.
  intros t.
  destruct (entry_point (fun _ => 0)
              ["word 7"; "main:"; "addi r0, 1"; "jmp main"; "end main"]%string
              (start32 [])
              ["word 7"; "addi r0, 1"; "jmp main"; "end main"]%string
              (<["main"%string := 1]> ∅) t) as (Hsp & _ & Hentry).
  - vm_compute. reflexivity.
  - split; [exact Hsp |].
    apply (Hentry 3%nat "end main"%string "main"%string []); [reflexivity | reflexivity |].
    intros q l Hq Hl.
    destruct q as [| [| [| q]]]; [| | | lia]; injection Hl as <-; reflexivity.
Defined.

(** ** Branching through the program counter in Profile B *)

(** X25. A jump written as an addition to the program counter, in
    Profile B.  For [add] or one of the six conditional operations, with
    [pc] as destination and source and a label as third operand,
    [make_comm] returns a word that the dispatcher decodes into registers
    31 and 31 and the label's value; executing the [add] stores that value,
    not a sum, in the program counter, so the next fetch is 8 bytes above
    the label's value (label values below 2^16). *)
Theorem jump_by_add fpu label mn op n v rest pc s :
  Asm64.CODE !! mn = Some op ->
  op = 2 \/ 22 <= op <= 27 ->
  label !! "pc,"%string = None ->
  label !! Asm64.c_str n = Some v ->
  0 <= v < 2 ^ 16 ->
  0 <= Mipt64.regs s 31 -> Mipt64.regs s 31 + 8 <= Mipt64.MEMSIZE ->
  exists coded,
    Asm64.make_comm label (mn :: "pc," :: "pc," :: n :: rest)%string pc s
    = Ret (coded, label) s
    /\ Mipt64.t0_5 coded = op
    /\ Mipt64.decode fpu op coded s = Ret (31, 31, v, 0) s
    /\ (op = 2 ->
        Mipt64.switch_c fpu coded s = Ret tt (set_reg64 s 31 v)
        /\ (Mipt64.load_le 8 (Mipt64.mem s) (Mipt64.regs s 31) = coded ->
            Mipt64.emulate_step fpu s = Ret tt (set_reg64 (set_reg64 s 31 v) 31 (v + 8)))).
Proof.
  intros Hcode Hop Hpc Hn Hv Hlow Hhigh.
  assert (Htype : Mipt64.TYPE op = Some Mipt64.RR).
  { destruct Hop as [-> | Hop]; [reflexivity |].
    destruct op as [| p | p]; try lia.
    do 6 (try (destruct p as [p | p |])); try lia; reflexivity. }
  pose proof (TYPE64_RR_range op Htype) as Hrange.
  set (word := ((op * 2 ^ 5 + 31) * 2 ^ 5 + 31) * 2 ^ 16 + v).
  assert (H05 : Mipt64.t0_5 word = op).
  { unfold Mipt64.t0_5. change Mipt64.m0_5 with (Z.shiftl (Z.ones 6) 26).
    rewrite extract_field by lia. subst word.
    replace (((op * 2 ^ 5 + 31) * 2 ^ 5 + 31) * 2 ^ 16 + v)
      with ((0 * 2 ^ 6 + op) * 2 ^ 26 + (31 * 2 ^ 21 + 31 * 2 ^ 16 + v)) by lia.
    apply field_of_sum; lia. }
  assert (H610 : Mipt64.t6_10 word = 31).
  { unfold Mipt64.t6_10. change Mipt64.m6_10 with (Z.shiftl (Z.ones 5) 21).
    rewrite extract_field by lia. subst word.
    replace (((op * 2 ^ 5 + 31) * 2 ^ 5 + 31) * 2 ^ 16 + v)
      with ((op * 2 ^ 5 + 31) * 2 ^ 21 + (31 * 2 ^ 16 + v)) by lia.
    apply field_of_sum; lia. }
  assert (H1115 : Mipt64.t11_15 word = 31).
  { unfold Mipt64.t11_15. change Mipt64.m11_15 with (Z.shiftl (Z.ones 5) 16).
    rewrite extract_field by lia. apply field_of_sum; lia. }
  assert (H1631 : Mipt64.t16_31 word = v).
  { unfold Mipt64.t16_31. change Mipt64.m16_31 with (Z.ones 16).
    rewrite Z.land_ones by lia. apply pack_mod; lia. }
  assert (Hdec : Mipt64.decode fpu op word s = Ret (31, 31, v, 0) s).
  { unfold Mipt64.decode. rewrite Htype, H1115, H610, H1631. reflexivity. }
  exists word. split; [| split; [exact H05 | split; [exact Hdec |]]].
  - unfold Asm64.make_comm.
    change (Asm64.lexeme (mn :: "pc," :: "pc," :: n :: rest)%string 0) with (Val mn).
    unfold bind at 1. cbn [Asm64.lift]. rewrite Hcode.
    change (default 0 (Some op)) with op.
    assert (Hcoded : Mipt64.dword (Z.shiftl op 26) = op * 2 ^ 26).
    { unfold Mipt64.dword. rewrite Z.shiftl_mul_pow2 by lia. apply w64_small. lia. }
    rewrite Hcoded.
    replace (Z.shiftr (op * 2 ^ 26) 26) with op
      by (rewrite Z.shiftr_div_pow2, Z.div_mul by lia; reflexivity).
    rewrite Htype.
    change (Asm64.lexeme (mn :: "pc," :: "pc," :: n :: rest)%string 1)
      with (Val "pc,"%string).
    unfold bind at 1. cbn [Asm64.lift].
    change (Asm64.register (Asm64.chop "pc,") 21) with (Val (31 * 2 ^ 21)).
    unfold bind at 1. cbn [Asm64.lift].
    change (Asm64.lexeme (mn :: "pc," :: "pc," :: n :: rest)%string 2)
      with (Val "pc,"%string).
    unfold bind at 1. cbn [Asm64.lift]. rewrite Hpc.
    change (Asm64.register (Asm64.chop "pc,") 16) with (Val (31 * 2 ^ 16)).
    unfold bind at 1. cbn [Asm64.lift].
    change (Asm64.lexeme (mn :: "pc," :: "pc," :: n :: rest)%string 3) with (Val n).
    unfold bind at 1. cbn [Asm64.lift]. rewrite Hn.
    unfold ret, Mipt64.dword.
    rewrite (w64_small (31 * 2 ^ 21 + 31 * 2 ^ 16)) by lia.
    rewrite (w64_small (31 * 2 ^ 21 + 31 * 2 ^ 16 + v)) by lia.
    rewrite w64_small by lia.
    do 2 f_equal. subst word. lia.
  - intros ->.
    assert (Hsw : Mipt64.switch_c fpu word s = Ret tt (set_reg64 s 31 v)).
    { unfold Mipt64.switch_c. rewrite H05.
      rewrite (bind_ret _ _ _ _ _ Hdec). cbv beta iota.
      unfold Mipt64.add. cbn [Z.eqb Pos.eqb andb]. apply sreg64_ok. lia. }
    split; [exact Hsw |].
    intros Hfetch.
    rewrite (emulate_step64_adds_eight fpu s (set_reg64 s 31 v) Hlow Hhigh)
      by (rewrite Hfetch; exact Hsw).
    cbn [set_reg64 Mipt64.regs]. rewrite upd64_same.
    rewrite w64_small by lia. reflexivity.
Qed.

Lemma jump_by_add_witness :
  let s := start64 [] in
  exists coded,
    Asm64.make_comm (<["loop" := 16]> ∅) ["add"; "pc,"; "pc,"; "loop"]%string 0 s
    = Ret (coded, <["loop" := 16]> ∅) s
    /\ Mipt64.switch_c null_fpu coded s = Ret tt (set_reg64 s 31 16).
Proof.
  intros s.
  destruct (jump_by_add null_fpu (<["loop"%string := 16]> ∅) "add"%string 2
              "loop"%string 16 [] 0 s) as (coded & Hmk & _ & _ & Hadd).
  - reflexivity.
  - left. reflexivity.
  - reflexivity.
  - reflexivity.
  - lia.
  - vm_compute. discriminate.
  - vm_compute. discriminate.
  - exists coded. split; [exact Hmk | apply Hadd; reflexivity].
Defined.

(** ** Register operands of Profile B *)

(** X26. Assembler and dispatcher of Profile B agree on the general form of
    an integer RR instruction, [mn rd, rs, ri, sh, lit]: [make_comm] packs
    the three registers, the shift and the literal into a word whose opcode
    field is the mnemonic's opcode, and the dispatcher hands the operation the
    destination [rd], the source [rs] and, as third operand, the content of
    [ri] shifted left by [sh] plus [lit] (source register other than [rz] and
    [pc], shift below 8, literal below 256). *)
Theorem composite_operand_round_trip fpu label mn a b c sh lit rest pc s :
  let op := default 0 (Asm64.CODE !! mn) in
  let rd := register_number (Asm64.chop a) in
  let rs := register_number (Asm64.chop b) in
  let ri := register_number (Asm64.chop c) in
  Mipt64.TYPE op = Some Mipt64.RR -> ~ 13 <= op <= 16 ->
  0 < len (Asm64.chop a) -> 0 < len (Asm64.chop b) -> 0 < len (Asm64.chop c) ->
  0 <= rd < 32 -> 0 <= rs < 32 -> rs <> 27 -> rs <> 31 -> 0 <= ri < 32 ->
  label !! b = None -> label !! Asm64.c_str c = None ->
  0 <= strtol sh < 8 -> 0 <= strtol lit < 256 ->
  exists coded,
    Asm64.make_comm label (mn :: a :: b :: c :: sh :: lit :: rest) pc s
    = Ret (coded, label) s
    /\ Mipt64.t0_5 coded = op
    /\ Mipt64.decode fpu op coded s
       = Ret (rd, rs, w64 (Mipt64.regs s ri * 2 ^ strtol sh + strtol lit), 0) s.
Proof.
  intros op rd rs ri Htype Hfloat Hla Hlb Hlc Hrd Hrs H27 H31 Hri Hb Hc Hsh Hlit.
  pose proof (TYPE64_RR_range op Htype) as Hop.
  set (k := strtol sh) in *. set (m := strtol lit) in *.
  set (w := ((((op * 2 ^ 5 + rd) * 2 ^ 5 + rs) * 2 ^ 5 + ri) * 2 ^ 3 + k) * 2 ^ 8 + m).
  assert (H05 : Mipt64.t0_5 w = op).
  { unfold Mipt64.t0_5. change Mipt64.m0_5 with (Z.shiftl (Z.ones 6) 26).
    rewrite extract_field by lia. subst w.
    replace (((((op * 2 ^ 5 + rd) * 2 ^ 5 + rs) * 2 ^ 5 + ri) * 2 ^ 3 + k) * 2 ^ 8 + m)
      with ((0 * 2 ^ 6 + op) * 2 ^ 26
            + (rd * 2 ^ 21 + rs * 2 ^ 16 + ri * 2 ^ 11 + k * 2 ^ 8 + m)) by lia.
    apply field_of_sum; lia. }
  assert (H610 : Mipt64.t6_10 w = rd).
  { unfold Mipt64.t6_10. change Mipt64.m6_10 with (Z.shiftl (Z.ones 5) 21).
    rewrite extract_field by lia. subst w.
    replace (((((op * 2 ^ 5 + rd) * 2 ^ 5 + rs) * 2 ^ 5 + ri) * 2 ^ 3 + k) * 2 ^ 8 + m)
      with ((op * 2 ^ 5 + rd) * 2 ^ 21
            + (rs * 2 ^ 16 + ri * 2 ^ 11 + k * 2 ^ 8 + m)) by lia.
    apply field_of_sum; lia. }
  assert (H1115 : Mipt64.t11_15 w = rs).
  { unfold Mipt64.t11_15. change Mipt64.m11_15 with (Z.shiftl (Z.ones 5) 16).
    rewrite extract_field by lia. subst w.
    replace (((((op * 2 ^ 5 + rd) * 2 ^ 5 + rs) * 2 ^ 5 + ri) * 2 ^ 3 + k) * 2 ^ 8 + m)
      with (((op * 2 ^ 5 + rd) * 2 ^ 5 + rs) * 2 ^ 16
            + (ri * 2 ^ 11 + k * 2 ^ 8 + m)) by lia.
    apply field_of_sum; lia. }
  assert (H1620 : Mipt64.t16_20 w = ri).
  { unfold Mipt64.t16_20. change Mipt64.m16_20 with (Z.shiftl (Z.ones 5) 11).
    rewrite extract_field by lia. subst w.
    replace (((((op * 2 ^ 5 + rd) * 2 ^ 5 + rs) * 2 ^ 5 + ri) * 2 ^ 3 + k) * 2 ^ 8 + m)
      with ((((op * 2 ^ 5 + rd) * 2 ^ 5 + rs) * 2 ^ 5 + ri) * 2 ^ 11
            + (k * 2 ^ 8 + m)) by lia.
    apply field_of_sum; lia. }
  assert (H2123 : Mipt64.t21_23 w = k).
  { unfold Mipt64.t21_23. change Mipt64.m21_23 with (Z.shiftl (Z.ones 3) 8).
    rewrite extract_field by lia. apply field_of_sum; lia. }
  assert (H2431 : Mipt64.t24_31 w = m).
  { unfold Mipt64.t24_31. change Mipt64.m24_31 with (Z.ones 8).
    rewrite Z.land_ones by lia. apply pack_mod; lia. }
  exists w. split; [| split; [exact H05 |]].
  - unfold Asm64.make_comm.
    change (Asm64.lexeme (mn :: a :: b :: c :: sh :: lit :: rest) 0) with (Val mn).
    unfold bind at 1. cbn [Asm64.lift]. fold op.
    assert (Hcoded : Mipt64.dword (Z.shiftl op 26) = op * 2 ^ 26).
    { unfold Mipt64.dword. rewrite Z.shiftl_mul_pow2 by lia. apply w64_small. lia. }
    rewrite Hcoded.
    replace (Z.shiftr (op * 2 ^ 26) 26) with op
      by (rewrite Z.shiftr_div_pow2, Z.div_mul by lia; reflexivity).
    rewrite Htype.
    change (Asm64.lexeme (mn :: a :: b :: c :: sh :: lit :: rest) 1) with (Val a).
    unfold bind at 1. cbn [Asm64.lift].
    rewrite (register_field64 (Asm64.chop a) 21 Hla Hrd ltac:(lia)). fold rd.
    unfold bind at 1. cbn [Asm64.lift].
    change (Asm64.lexeme (mn :: a :: b :: c :: sh :: lit :: rest) 2) with (Val b).
    unfold bind at 1. cbn [Asm64.lift]. rewrite Hb.
    rewrite (register_field64 (Asm64.chop b) 16 Hlb Hrs ltac:(lia)). fold rs.
    unfold bind at 1. cbn [Asm64.lift].
    change (Asm64.lexeme (mn :: a :: b :: c :: sh :: lit :: rest) 3) with (Val c).
    unfold bind at 1. cbn [Asm64.lift]. rewrite Hc.
    replace (Z.shiftr (rs * 2 ^ 16) 16 =? 27) with false
      by (rewrite Z.shiftr_div_pow2, Z.div_mul by lia; lia).
    unfold Asm64.composite_fields.
    change (Asm64.lexeme (mn :: a :: b :: c :: sh :: lit :: rest) 3) with (Val c).
    change (Asm64.lexeme (mn :: a :: b :: c :: sh :: lit :: rest) 4) with (Val sh).
    change (Asm64.lexeme (mn :: a :: b :: c :: sh :: lit :: rest) 5) with (Val lit).
    cbn [rbind].
    rewrite (register_field64 (Asm64.chop c) 11 Hlc Hri ltac:(lia)). fold ri.
    cbn [rbind]. fold k m.
    unfold bind, ret. cbn [Asm64.lift].
    unfold Mipt64.dword. rewrite (w64_small k), (w64_small m) by lia.
    rewrite Z.shiftl_mul_pow2 by lia. rewrite (w64_small (k * 2 ^ 8)) by lia.
    rewrite (w64_small (rd * 2 ^ 21 + rs * 2 ^ 16)) by lia.
    rewrite (w64_small (rd * 2 ^ 21 + rs * 2 ^ 16 + ri * 2 ^ 11)) by lia.
    rewrite (w64_small (rd * 2 ^ 21 + rs * 2 ^ 16 + ri * 2 ^ 11 + k * 2 ^ 8)) by lia.
    rewrite (w64_small (rd * 2 ^ 21 + rs * 2 ^ 16 + ri * 2 ^ 11 + k * 2 ^ 8 + m)) by lia.
    rewrite w64_small by lia.
    do 2 f_equal. subst w. lia.
  - unfold Mipt64.decode. rewrite Htype, H1115, H610, H1620, H2123, H2431.
    replace (rs =? 27) with false by lia. replace (rs =? 31) with false by lia.
    replace ((op =? 13) || (op =? 14) || (op =? 15) || (op =? 16)) with false by lia.
    rewrite (bind_ret _ _ _ _ _ (composite64_ok ri k m s ltac:(lia))).
    unfold ret, Mipt64.dword. rewrite Z.shiftl_mul_pow2 by lia.
    rewrite w64_add_l. reflexivity.
Qed.

Lemma composite_operand_round_trip_witness :
  let s := set_reg64 (start64 []) 3 10 in
  exists coded,
    Asm64.make_comm ∅ ["add"; "r1,"; "r2,"; "r3,"; "2"; "5"]%string 0 s
    = Ret (coded, ∅) s
    /\ Mipt64.t0_5 coded = default 0 (Asm64.CODE !! "add"%string)
    /\ Mipt64.decode null_fpu (default 0 (Asm64.CODE !! "add"%string)) coded s
       = Ret (register_number (Asm64.chop "r1,"), register_number (Asm64.chop "r2,"),
              w64 (Mipt64.regs s (register_number (Asm64.chop "r3,")) * 2 ^ strtol "2"
                   + strtol "5"), 0) s.
Proof.
  intros s.
  apply (composite_operand_round_trip null_fpu ∅ "add"%string "r1,"%string
           "r2,"%string "r3,"%string "2"%string "5"%string [] 0 s).
  - reflexivity.
  - vm_compute. intros [H _]. apply H. reflexivity.
  - reflexivity.
  - reflexivity.
  - reflexivity.
  - vm_compute. split; [discriminate | reflexivity].
  - vm_compute. split; [discriminate | reflexivity].
  - vm_compute. discriminate.
  - vm_compute. discriminate.
  - vm_compute. split; [discriminate | reflexivity].
  - reflexivity.
  - reflexivity.
  - vm_compute. split; [discriminate | reflexivity].
  - vm_compute. split; [discriminate | reflexivity].
Defined.

(** * The encode pass of Profile B and the value of a label *)

(** ** One line of the encode pass *)

Lemma returns_ret {S A} (P : A -> Prop) (a : A) : P a -> returns P (ret a : M S A).
Proof. intros H s b s' E. injection E as <- _. exact H. Qed.

Lemma returns_fail {S A} (P : A -> Prop) (f : fault) : returns P (fail f : M S A).
Proof. intros s b s' E. discriminate E. Qed.

Lemma returns_bind {S A B} (P : B -> Prop) (m : M S A) (k : A -> M S B) :
  (forall a, returns P (k a)) -> returns P (bind m k).
Proof.
  intros Hk s b s' E. unfold bind in E.
  destruct (m s) as [a s1 | c s1 | f]; try discriminate E.
  exact (Hk a _ _ _ E).
Qed.

Lemma extends_refl label : extends label label.
Proof. intros n v H. exact H. Qed.

Lemma extends_trans l1 l2 l3 : extends l1 l2 -> extends l2 l3 -> extends l1 l3.
Proof. intros H12 H23 n v H. apply H23, H12, H. Qed.

Lemma label_at_extends label name v label' :
  Asm64.label_at label name = (v, label') ->
  extends label label' /\ (forall x, label !! name = Some x -> v = x).
Proof.
  unfold Asm64.label_at. intros H.
  destruct (label !! name) as [x |] eqn:E; injection H as <- <-.
  - split; [apply extends_refl | intros y Hy; congruence].
  - split; [| intros y Hy; discriminate Hy].
    intros n v Hn. destruct (decide (name = n)) as [<- | Hne].
    + rewrite E in Hn. discriminate Hn.
    + rewrite lookup_insert_ne by exact Hne. exact Hn.
Qed.

Lemma lift64_preserves {X A} (f : Mipt64.state -> X) (r : res A) :
  preserves f (Asm64.lift r).
Proof.
  intros s a s' H. destruct r; [injection H as _ <-; reflexivity | discriminate H].
Qed.

Lemma make_comm64_pure label lexemes pc :
  preserves (fun s => s) (Asm64.make_comm label lexemes pc).
Proof.
  unfold Asm64.make_comm.
  repeat first [apply lift64_preserves | progress frame].
Qed.

Lemma make_comm64_extends label lexemes pc :
  returns (fun made => extends label made.2) (Asm64.make_comm label lexemes pc).
Proof.
  unfold Asm64.make_comm.
  repeat first
    [ apply returns_fail
    | apply returns_ret; cbn [snd];
      first [ apply extends_refl
            | match goal with
              | E : Asm64.label_at _ _ = _ |- _ => exact (proj1 (label_at_extends _ _ _ _ E))
              end ]
    | apply returns_bind; intros ?
    | match goal with
      | |- returns _ (let '(_, _) := Asm64.label_at ?l ?n in _) =>
          destruct (Asm64.label_at l n) as [? ?] eqn:?
      | |- returns _ (if ?b then _ else _) => destruct b
      | |- returns _ (match ?x with _ => _ end) => destruct x
      end ].
Qed.

Lemma smem64_bind_inv {A} adr val (k : unit -> M Mipt64.state A) s o :
  bind (Mipt64.smem adr val) k s = o ->
  (exists a s', o = Ret a s') ->
  (0 <= adr /\ adr + 8 <= Mipt64.MEMSIZE) /\ k tt (set_mem64 s adr val) = o.
Proof.
  intros H [a [s' Ho]]. unfold bind, Mipt64.smem in H.
  destruct (Z.leb_spec 0 adr); destruct (Z.leb_spec (adr + 8) Mipt64.MEMSIZE);
    cbn [andb] in H; try (rewrite Ho in H; discriminate H).
  split; [lia | exact H].
Qed.

Lemma set_mem64_load_word s adr val :
  Mipt64.load_le 8 (Mipt64.mem (set_mem64 s adr val)) adr = w64 val.
Proof.
  cbn [set_mem64 Mipt64.mem].
  rewrite (load_le_ext 8 _ (Mipt64.store_le 8 (Mipt64.mem s) adr val))
    by (intros; apply smem_low_byte).
  rewrite load_store_same. reflexivity.
Qed.

Lemma zero_fill_inv : forall n pc s pc' s',
  0 <= pc <= Mipt64.MEMSIZE ->
  Asm64.zero_fill n pc s = Ret pc' s' ->
  pc <= pc' <= Mipt64.MEMSIZE
  /\ Mipt64.regs s' = Mipt64.regs s
  /\ forall a, a < pc -> Mipt64.mem s' a = Mipt64.mem s a.
Proof.
  induction n as [| n IH]; intros pc s pc' s' Hpc H; cbn [Asm64.zero_fill] in H.
  - injection H as <- <-. repeat split; lia.
  - apply smem64_bind_inv in H as [Hr H]; [| eauto].
    unfold Mipt64.dword in H. rewrite w64_small in H by (unfold Mipt64.MEMSIZE in *; lia).
    apply IH in H as (Hle & Hregs & Hmem); [| lia].
    split; [lia |]. split; [exact Hregs |].
    intros a Ha. rewrite Hmem by lia. apply set_mem64_other. lia.
Qed.

Section EncodePass64.
Context (strtod : string -> Z).

Lemma assemble_line_inv line label pc s label' pc' stop s' :
  0 <= pc <= Mipt64.MEMSIZE ->
  Asm64.assemble_line strtod line label pc s = Ret (label', pc', stop) s' ->
  stop = is_end line
  /\ extends label label'
  /\ pc <= pc' <= Mipt64.MEMSIZE
  /\ (forall a, a < pc -> Mipt64.mem s' a = Mipt64.mem s a)
  /\ (forall r, r <> 31 -> Mipt64.regs s' r = Mipt64.regs s r)
  /\ (stop = false -> Mipt64.regs s' = Mipt64.regs s)
  /\ (stop = true ->
      exists name args v,
        split line = Some ("end" :: name :: args)%string
        /\ Asm64.label_at label name = (v, label')
        /\ Mipt64.regs s' 31 = w64 (v + 8)
        /\ Mipt64.mem s' = Mipt64.mem s
        /\ pc' = pc)
  /\ (stop = false -> is_bytes line = false ->
      pc' = pc + 8
      /\ exists unit,
           stored_unit strtod label s line pc unit
           /\ Mipt64.load_le 8 (Mipt64.mem s') pc = w64 unit).
Proof.
  intros Hpc H. unfold Asm64.assemble_line in H.
  unfold is_end, is_bytes, stored_unit.
  destruct (split line) as [[| op args] |]; try discriminate H.
  change (Asm64.lexeme (op :: args) 0) with (Val op) in H.
  change (Asm64.lexeme (op :: args) 1) with (Asm64.lexeme args 0) in H.
  unfold bind at 1 in H. cbn [Asm64.lift] in H.
  destruct (String.eqb_spec op "end") as [-> | _].
  { destruct args as [| name args]; [discriminate H |].
    change (Asm64.lexeme (name :: args) 0) with (Val name) in H.
    unfold bind at 1 in H. cbn [Asm64.lift] in H.
    destruct (Asm64.label_at label name) as [v lab] eqn:Hat.
    rewrite (bind_ret _ _ _ _ _ (sreg64_ok 31 _ s ltac:(lia))) in H.
    injection H as <- <- <- <-.
    destruct (label_at_extends _ _ _ _ Hat) as [Hext _].
    repeat split; try reflexivity; try lia; try exact Hext; try discriminate.
    - intros r Hr. cbn [set_reg64 Mipt64.regs]. apply upd64_other. exact Hr.
    - intros _. exists name, args, v.
      split; [reflexivity |]. split; [exact Hat |].
      split; [cbn [set_reg64 Mipt64.regs]; apply upd64_same | split; reflexivity]. }
  assert (Hstore : forall val lab,
            (0 <= pc /\ pc + 8 <= Mipt64.MEMSIZE) ->
            Ret (lab, Mipt64.dword (pc + 8), false) (set_mem64 s pc val)
            = Ret (label', pc', stop) s' ->
            extends label lab ->
            (exists op0 args0,
               Some (op :: args) = Some (op0 :: args0)
               /\ (if String.eqb op0 "word"
                   then exists arg rest,
                          args0 = arg :: rest /\ val = Mipt64.dword (strtol arg)
                   else if String.eqb op0 "double"
                   then exists arg rest, args0 = arg :: rest /\ val = w64 (strtod arg)
                   else exists lab',
                          Asm64.make_comm label (op0 :: args0) pc s = Ret (val, lab') s)) ->
            stop = false
            /\ extends label label'
            /\ pc <= pc' <= Mipt64.MEMSIZE
            /\ (forall a, a < pc -> Mipt64.mem s' a = Mipt64.mem s a)
            /\ (forall r, r <> 31 -> Mipt64.regs s' r = Mipt64.regs s r)
            /\ (stop = false -> Mipt64.regs s' = Mipt64.regs s)
            /\ (stop = true ->
                exists name args1 v,
                  Some (op :: args) = Some ("end" :: name :: args1)%string
                  /\ Asm64.label_at label name = (v, label')
                  /\ Mipt64.regs s' 31 = w64 (v + 8)
                  /\ Mipt64.mem s' = Mipt64.mem s
                  /\ pc' = pc)
            /\ (stop = false -> String.eqb op "bytes" = false ->
                pc' = pc + 8
                /\ exists unit,
                     (exists op0 args0,
                        Some (op :: args) = Some (op0 :: args0)
                        /\ (if String.eqb op0 "word"
                            then exists arg rest,
                                   args0 = arg :: rest /\ unit = Mipt64.dword (strtol arg)
                            else if String.eqb op0 "double"
                            then exists arg rest,
                                   args0 = arg :: rest /\ unit = w64 (strtod arg)
                            else exists lab',
                                   Asm64.make_comm label (op0 :: args0) pc s
                                   = Ret (unit, lab') s))
                     /\ Mipt64.load_le 8 (Mipt64.mem s') pc = w64 unit)).
  { intros val lab Hr E Hext Hunit.
    unfold Mipt64.dword in E. rewrite w64_small in E by (unfold Mipt64.MEMSIZE in *; lia).
    injection E as <- <- <- <-.
    repeat split; try exact Hext; try lia; try discriminate.
    - intros a Ha. apply set_mem64_other. lia.
    - exists val. split; [exact Hunit | apply set_mem64_load_word]. }
  destruct (String.eqb op "word") eqn:Eword.
  { destruct args as [| arg args]; [discriminate H |].
    change (Asm64.lexeme (arg :: args) 0) with (Val arg) in H.
    unfold bind at 1 in H. cbn [Asm64.lift] in H.
    apply smem64_bind_inv in H as [Hr H]; [| eauto].
    apply (Hstore _ _ Hr H (extends_refl _)).
    exists op, (arg :: args). split; [reflexivity |]. rewrite Eword. eauto. }
  destruct (String.eqb op "double") eqn:Edouble.
  { destruct args as [| arg args]; [discriminate H |].
    change (Asm64.lexeme (arg :: args) 0) with (Val arg) in H.
    unfold bind at 1 in H. cbn [Asm64.lift] in H. cbv zeta in H.
    apply smem64_bind_inv in H as [Hr H]; [| eauto].
    apply (Hstore _ _ Hr H (extends_refl _)).
    exists op, (arg :: args). split; [reflexivity |]. rewrite Eword, Edouble. eauto. }
  destruct (String.eqb op "bytes") eqn:Ebytes.
  { clear Hstore.
    destruct args as [| arg args]; [discriminate H |].
    change (Asm64.lexeme (arg :: args) 0) with (Val arg) in H.
    unfold bind at 1 in H. cbn [Asm64.lift] in H. cbv zeta in H.
    unfold bind at 1 in H.
    destruct (Asm64.zero_fill _ pc s) as [pc1 s1 | c s1 | f] eqn:Hfill;
      try discriminate H.
    apply zero_fill_inv in Hfill as (Hle & Hregs & Hmem); [| exact Hpc].
    unfold bind at 1 in H.
    match type of H with
    | match ?m s1 with _ => _ end = _ =>
        destruct (m s1) as [[] s2 | c s2 | f] eqn:Htail; try discriminate H
    end.
    injection H as <- <- <- <-.
    assert (Hlast : Mipt64.regs s2 = Mipt64.regs s1
                    /\ forall a, a < pc1 -> Mipt64.mem s2 a = Mipt64.mem s1 a).
    { destruct (4 <? _).
      - unfold Mipt64.smem in Htail. destruct (_ && _); [| discriminate Htail].
        injection Htail as <-. split; [reflexivity |].
        intros a Ha. apply (set_mem64_other s1). lia.
      - destruct (0 <? _).
        + unfold bind, Mipt64.gmem in Htail. destruct (_ && _); [| discriminate Htail].
          unfold Mipt64.smem in Htail. destruct (_ && _); [| discriminate Htail].
          injection Htail as <-. split; [reflexivity |].
          intros a Ha. apply (set_mem64_other s1). lia.
        + injection Htail as <-. split; reflexivity. }
    destruct Hlast as [Hregs2 Hmem2].
    repeat split; try apply extends_refl; try lia; try discriminate.
    - intros a Ha. rewrite Hmem2, Hmem by lia. reflexivity.
    - intros r _. rewrite Hregs2, Hregs. reflexivity.
    - intros _. rewrite Hregs2, Hregs. reflexivity. }
  unfold bind at 1 in H.
  destruct (Asm64.make_comm label (op :: args) pc s) as [[comm lab] s1 | c s1 | f] eqn:Hmk;
    try discriminate H.
  pose proof (make_comm64_pure _ _ _ _ _ _ Hmk) as Hs1. cbv beta in Hs1. subst s1.
  pose proof (make_comm64_extends _ _ _ _ _ _ Hmk) as Hext. cbn [snd] in Hext.
  apply smem64_bind_inv in H as [Hr H]; [| eauto].
  apply (Hstore _ _ Hr H Hext).
  exists op, args. split; [reflexivity |]. rewrite Eword, Edouble. eauto.
Qed.

Lemma assemble_loop64_cons line rest label pc s r t :
  Asm64.assemble_loop strtod (line :: rest) label pc s = Ret r t ->
  exists label' pc' stop s',
    Asm64.assemble_line strtod line label pc s = Ret (label', pc', stop) s'
    /\ if stop then r = (label', pc') /\ t = s'
       else Asm64.assemble_loop strtod rest label' pc' s' = Ret r t.
Proof.
  intros H. cbn [Asm64.assemble_loop] in H. unfold bind at 1 in H.
  destruct (Asm64.assemble_line strtod line label pc s)
    as [[[label' pc'] stop] s' | c s' | f]; try discriminate H.
  exists label', pc', stop, s'. split; [reflexivity |].
  destruct stop; [injection H as <- <-; split; reflexivity | exact H].
Qed.

Lemma assemble_loop64_inv : forall lines label pc s reached pc' s',
  0 <= pc <= Mipt64.MEMSIZE ->
  Asm64.assemble_loop strtod lines label pc s = Ret (reached, pc') s' ->
  extends label reached
  /\ pc <= pc' <= Mipt64.MEMSIZE
  /\ (forall a, a < pc -> Mipt64.mem s' a = Mipt64.mem s a)
  /\ (forall r, r <> 31 -> Mipt64.regs s' r = Mipt64.regs s r).
Proof.
  induction lines as [| line rest IH]; intros label pc s reached pc' s' Hpc H.
  - injection H as <- <- <-. repeat split; try lia. apply extends_refl.
  - apply assemble_loop64_cons in H as (lab1 & pc1 & stop & s1 & Hline & H).
    apply assemble_line_inv in Hline as (_ & Hext & Hle & Hmem & Hregs & _);
      [| exact Hpc].
    destruct stop.
    + destruct H as [E ->]. injection E as -> ->.
      repeat split; try assumption; lia.
    + apply IH in H as (Hext' & Hle' & Hmem' & Hregs'); [| lia].
      split; [exact (extends_trans _ _ _ Hext Hext') |].
      split; [lia |]. split.
      * intros a Ha. rewrite Hmem' by lia. apply Hmem. exact Ha.
      * intros r Hr. rewrite Hregs' by exact Hr. apply Hregs. exact Hr.
Qed.

Lemma assemble_loop64_prefix : forall pre post label pc s r t,
  0 <= pc <= Mipt64.MEMSIZE ->
  Asm64.assemble_loop strtod (pre ++ post) label pc s = Ret r t ->
  Forall (fun l => is_end l = false) pre ->
  exists reached pc1 s1,
    Asm64.assemble_loop strtod pre label pc s = Ret (reached, pc1) s1
    /\ Asm64.assemble_loop strtod post reached pc1 s1 = Ret r t
    /\ Mipt64.regs s1 = Mipt64.regs s
    /\ (Forall (fun l => is_bytes l = false) pre ->
        pc1 = pc + 8 * Z.of_nat (length pre)).
Proof.
  induction pre as [| line pre IH]; intros post label pc s r t Hpc H Hend.
  - exists label, pc, s. repeat split; [exact H | cbn; lia].
  - apply Forall_cons in Hend as [Hline_end Hend].
    change ((line :: pre) ++ post) with (line :: (pre ++ post)) in H.
    apply assemble_loop64_cons in H as (lab1 & pc1 & stop & s1 & Hline & H).
    pose proof (assemble_line_inv _ _ _ _ _ _ _ _ Hpc Hline)
      as (Hstop & _ & Hle & _ & _ & Hregs & _ & Hunit).
    rewrite Hline_end in Hstop. subst stop.
    apply IH in H as (reached & pc2 & s2 & Hpre & Hpost & Hregs2 & Hpos);
      [| lia | exact Hend].
    exists reached, pc2, s2. split; [| split; [exact Hpost | split]].
    + cbn [Asm64.assemble_loop]. rewrite (bind_ret _ _ _ _ _ Hline). exact Hpre.
    + rewrite Hregs2. apply Hregs. reflexivity.
    + intros Hbytes. apply Forall_cons in Hbytes as [Hb Hbytes].
      destruct (Hunit eq_refl Hb) as [-> _].
      rewrite (Hpos Hbytes). cbn [length]. lia.
Qed.

Lemma assemble64_inv input s out final t :
  Asm64.assemble strtod input s = Ret (out, final) t ->
  exists label pc s1,
    Mipt64.parse_labels input ∅ = Val (out, label)
    /\ Asm64.assemble_loop strtod out label 0 s = Ret (final, pc) s1
    /\ t = set_reg64 (set_reg64 s1 29 (Mipt64.MEMSIZE - 8)) 27 0.
Proof.
  intros H. unfold Asm64.assemble in H. unfold bind at 1 in H.
  destruct (Mipt64.parse_labels input ∅) as [[out' label] | f];
    cbn [Asm64.lift] in H; [| discriminate H].
  unfold bind at 1 in H.
  destruct (Asm64.assemble_loop strtod out' label 0 s) as [[final' pc] s1 | c s1 | f]
    eqn:Hloop; try discriminate H.
  rewrite (bind_ret _ _ _ _ _ (sreg64_ok 29 _ s1 ltac:(lia))) in H.
  rewrite (bind_ret _ _ _ _ _ (sreg64_ok 27 _ _ ltac:(lia))) in H.
  injection H as <- <- <-.
  exists label, pc, s1. repeat split. exact Hloop.
Qed.

End EncodePass64.

(** ** The recursion bounds of the encode pass are large enough *)

Lemma within_bounds_ret {S A} (a : A) : within_bounds (ret a : M S A).
Proof. intros s H. discriminate H. Qed.

Lemma within_bounds_undefined {S A} : within_bounds (fail UndefinedBehaviour : M S A).
Proof. intros s H. discriminate H. Qed.

Lemma within_bounds_bind {S A B} (m : M S A) (k : A -> M S B) :
  within_bounds m -> (forall a, within_bounds (k a)) -> within_bounds (bind m k).
Proof.
  intros Hm Hk s H. unfold bind in H.
  destruct (m s) as [a s1 | c s1 | f] eqn:E.
  - exact (Hk a _ H).
  - discriminate H.
  - apply (Hm s). rewrite E. injection H as ->. reflexivity.
Qed.

Lemma within_bounds_lift {A} (r : res A) :
  r <> Err NoFuel -> within_bounds (Asm64.lift r).
Proof.
  intros Hr s H. destruct r as [a | f]; [discriminate H |].
  apply Hr. injection H as ->. reflexivity.
Qed.

Lemma lexeme_in_bounds lexemes i : Asm64.lexeme lexemes i <> Err NoFuel.
Proof.
  unfold Asm64.lexeme, Asm32.lexeme. destruct (lexemes !! i); discriminate.
Qed.

Lemma tail_str_in_bounds l : Asm32.tail_str l <> Err NoFuel.
Proof. unfold Asm32.tail_str. destruct (_ <? _); discriminate. Qed.

Lemma register_in_bounds name sh : Asm64.register name sh <> Err NoFuel.
Proof.
  unfold Asm64.register. destruct (Asm64.REGISTER !! name); [discriminate |].
  unfold Asm32.tail_str. destruct (_ <? _); discriminate.
Qed.

Lemma branch_offset_in_bounds coded v pc : Asm64.branch_offset coded v pc <> Err NoFuel.
Proof.
  unfold Asm64.branch_offset. cbv zeta.
  destruct (_ <? _); [destruct (_ =? _) |]; discriminate.
Qed.

Lemma composite_fields_in_bounds lexemes : Asm64.composite_fields lexemes <> Err NoFuel.
Proof.
  unfold Asm64.composite_fields, Asm64.lexeme, Asm32.lexeme.
  destruct (lexemes !! 3%nat); [| discriminate]. cbn [rbind].
  pose proof (register_in_bounds (Asm64.chop s) 11) as Hr.
  destruct (Asm64.register (Asm64.chop s) 11);
    [| cbn [rbind]; intros E; apply Hr; injection E as ->; reflexivity].
  cbn [rbind].
  destruct (lexemes !! 4%nat); [| discriminate]. cbn [rbind].
  destruct (lexemes !! 5%nat); discriminate.
Qed.

Lemma greg64_in_bounds adr : within_bounds (Mipt64.greg adr).
Proof. intros s H. unfold Mipt64.greg in H. destruct (_ && _); discriminate H. Qed.

Lemma sreg64_in_bounds adr val : within_bounds (Mipt64.sreg adr val).
Proof. intros s H. unfold Mipt64.sreg in H. destruct (_ && _); discriminate H. Qed.

Lemma gmem64_in_bounds adr : within_bounds (Mipt64.gmem adr).
Proof. intros s H. unfold Mipt64.gmem in H. destruct (_ && _); discriminate H. Qed.

Lemma smem64_in_bounds adr val : within_bounds (Mipt64.smem adr val).
Proof. intros s H. unfold Mipt64.smem in H. destruct (_ && _); discriminate H. Qed.

Ltac in_bounds_step :=
  first
    [ apply within_bounds_ret
    | apply within_bounds_undefined
    | apply greg64_in_bounds | apply sreg64_in_bounds
    | apply gmem64_in_bounds | apply smem64_in_bounds
    | apply within_bounds_lift;
      first [ apply lexeme_in_bounds | apply tail_str_in_bounds
            | apply register_in_bounds | apply branch_offset_in_bounds
            | apply composite_fields_in_bounds ]
    | apply within_bounds_bind; [| intros ?]
    | match goal with
      | |- within_bounds (if ?b then _ else _) => destruct b
      | |- within_bounds (match ?x with _ => _ end) => destruct x
      end ].

Ltac in_bounds := repeat in_bounds_step.

Lemma make_comm64_in_bounds label lexemes pc :
  within_bounds (Asm64.make_comm label lexemes pc).
Proof. unfold Asm64.make_comm. in_bounds. Qed.

Lemma zero_fill_in_bounds : forall n pc, within_bounds (Asm64.zero_fill n pc).
Proof.
  induction n as [| n IH]; intros pc; cbn [Asm64.zero_fill].
  - apply within_bounds_ret.
  - apply within_bounds_bind; [apply smem64_in_bounds | intros _; apply IH].
Qed.

Lemma assemble_line_in_bounds strtod line label pc :
  within_bounds (Asm64.assemble_line strtod line label pc).
Proof.
  unfold Asm64.assemble_line. destruct (split_total line) as [toks ->].
  repeat first
    [ apply make_comm64_in_bounds
    | apply zero_fill_in_bounds
    | in_bounds_step ].
Qed.

Lemma assemble_loop64_in_bounds strtod : forall lines label pc,
  within_bounds (Asm64.assemble_loop strtod lines label pc).
Proof.
  induction lines as [| line lines IH]; intros label pc; cbn [Asm64.assemble_loop].
  - apply within_bounds_ret.
  - apply within_bounds_bind; [apply assemble_line_in_bounds |].
    intros [[label' pc'] stop]. destruct stop; [apply within_bounds_ret | apply IH].
Qed.

(** [assemble] of Profile B always comes to an end within the bounds of the
    model: it returns, or it stops on undefined behaviour or on an
    exception. *)
Lemma assemble64_in_bounds strtod input : within_bounds (Asm64.assemble strtod input).
Proof.
  unfold Asm64.assemble. apply within_bounds_bind.
  - apply within_bounds_lift. unfold Mipt64.parse_labels.
    apply parse_labels64_fuel; lia.
  - intros [out label]. apply within_bounds_bind; [apply assemble_loop64_in_bounds |].
    intros final. in_bounds.
Qed.

(** ** The value of a label and the position of the line after it *)

(** C4, as stated, fails: [loop] is bound to 0 while the encode pass stands
    at byte 8 when it reaches the instruction after the declaration of
    [loop], and stores its word there. *)
Lemma label_is_not_position :
  ~ label_equals_position
      ["main:"; "svc r0, rz, 100"; "loop:"; "add r0, r0, rz, 0, 1";
       "svc r0, rz, 0"; "end main"]%string.
Proof.
  intros H.
  pose (input := ["main:"; "svc r0, rz, 100"; "loop:"; "add r0, r0, rz, 0, 1";
                  "svc r0, rz, 0"; "end main"]%string).
  pose (out := ["svc r0, rz, 100"; "add r0, r0, rz, 0, 1"; "svc r0, rz, 0";
                "end main"]%string).
  pose (label := <["loop"%string := 0]> (<["main"%string := 2 ^ 64 - 8]> ∅)
                 : gmap string Z).
  pose (t := match Asm64.assemble (fun _ => 0) input (start64 []) with
             | Ret _ st => st
             | _ => start64 []
             end).
  pose (s_k := match Asm64.assemble_loop (fun _ => 0) (take 1 out) label 0 (start64 []) with
               | Ret _ st => st
               | _ => start64 []
               end).
  specialize (H (fun _ => 0) (start64 []) out label t label "loop"%string 0 1%nat
                label 8 s_k).
  assert (E : 0 = 8); [| discriminate E].
  apply H.
  - vm_compute. reflexivity.
  - vm_compute. reflexivity.
  - vm_compute. reflexivity.
  - exists 2%nat, "loop:"%string, "loop:"%string, [].
    repeat split; vm_compute; reflexivity.
  - apply Forall_cons_2; [reflexivity | apply Forall_nil_2].
  - vm_compute. reflexivity.
Qed.

(** C4, amended. In Profile B the label pass binds a label to
    [8 * (k - 1)] modulo 2^64, where [k] is the index, in the label-stripped
    sequence, of the line that follows the label's declaration.  When no
    [bytes] and no [end] directive precedes that line, the encode pass
    reaches it at byte [8 * k] and stores its unit there, where it still is
    when [assemble] returns: the label's value is 8 below the position of
    the line.  The value an [end] directive naming the label stores in the
    program counter, the label's value plus 8, is exactly that position. *)
Theorem label_is_eight_below_position strtod input s out final t label n v :
  Asm64.assemble strtod input s = Ret (out, final) t ->
  Mipt64.parse_labels input ∅ = Val (out, label) ->
  label !! n = Some v ->
  exists k : nat,
    follows_declaration input out n k
    /\ v = w64 (8 * (Z.of_nat k - 1))
    /\ (forall line,
          out !! k = Some line ->
          (forall (q : nat) l, (q < k)%nat -> out !! q = Some l ->
                               is_bytes l = false /\ is_end l = false) ->
          exists reached s_k,
            Asm64.assemble_loop strtod (take k out) label 0 s
            = Ret (reached, 8 * Z.of_nat k) s_k
            /\ w64 (v + 8) = 8 * Z.of_nat k
            /\ (is_bytes line = false -> is_end line = false ->
                exists unit,
                  stored_unit strtod reached s_k line (8 * Z.of_nat k) unit
                  /\ Mipt64.load_le 8 (Mipt64.mem t) (8 * Z.of_nat k) = w64 unit))
    /\ (forall (e : nat) line args,
          out !! e = Some line ->
          split line = Some ("end" :: n :: args)%string ->
          (forall (q : nat) l, (q < e)%nat -> out !! q = Some l -> is_end l = false) ->
          Mipt64.regs t 31 = w64 (v + 8)).
Proof.
  intros Hasm Hparse Hv.
  apply assemble64_inv in Hasm as (label0 & pcf & s1 & Hparse0 & Hloop & ->).
  rewrite Hparse in Hparse0. injection Hparse0 as <-.
  unfold Mipt64.parse_labels in Hparse.
  apply parse_labels64_inv in Hparse as [_ Hlab]; [| lia].
  pose proof Hv as Hbound.
  apply Hlab in Hv
    as [Hv | (k & j & dl & fp & rest & _ & _ & Hv & Hline & Hs & Hc & Hn & Ho)].
  { rewrite lookup_empty in Hv. discriminate Hv. }
  assert (Hcut : forall (i : nat) line,
             out !! i = Some line ->
             (forall (q : nat) l, (q < i)%nat -> out !! q = Some l -> is_end l = false) ->
             exists reached pc1 s_i,
               Asm64.assemble_loop strtod (take i out) label 0 s = Ret (reached, pc1) s_i
               /\ Asm64.assemble_loop strtod (line :: drop (S i) out) reached pc1 s_i
                  = Ret (final, pcf) s1
               /\ extends label reached
               /\ 0 <= pc1 <= Mipt64.MEMSIZE
               /\ ((forall (q : nat) l, (q < i)%nat -> out !! q = Some l ->
                                        is_bytes l = false) ->
                   pc1 = 8 * Z.of_nat i)).
  { intros i line Hi Hbefore.
    pose proof Hloop as Hwhole. rewrite <- (take_drop_middle out i line Hi) in Hwhole.
    apply assemble_loop64_prefix in Hwhole
      as (reached & pc1 & s_i & Hpre & Hpost & _ & Hpos);
      [| unfold Mipt64.MEMSIZE; lia |].
    2:{ apply Forall_lookup. intros q l Hq.
        apply lookup_take_Some in Hq as [Hq Hlt]. exact (Hbefore q l Hlt Hq). }
    pose proof (assemble_loop64_inv strtod (take i out) label 0 s reached pc1 s_i
                  ltac:(unfold Mipt64.MEMSIZE; lia) Hpre) as (Hext & Hle & _ & _).
    exists reached, pc1, s_i. repeat split; try assumption; try lia.
    intros Hbytes. rewrite Hpos.
    - rewrite length_take. apply lookup_lt_Some in Hi. lia.
    - apply Forall_lookup. intros q l Hq.
      apply lookup_take_Some in Hq as [Hq Hlt]. exact (Hbytes q l Hlt Hq). }
  exists k. split; [exists j, dl, fp, rest; repeat split; assumption |].
  split; [exact Hv |]. split.
  - intros line Hk Hbefore.
    destruct (Hcut k line Hk) as (reached & pc1 & s_k & Hpre & Hpost & Hext & Hle & Hpos).
    { intros q l Hq Hl. apply (Hbefore q l Hq Hl). }
    rewrite Hpos in * by (intros q l Hq Hl; apply (Hbefore q l Hq Hl)).
    exists reached, s_k. split; [exact Hpre |].
    split.
    { rewrite Hv. unfold w64. rewrite Zplus_mod_idemp_l.
      replace (8 * (Z.of_nat k - 1) + 8) with (8 * Z.of_nat k) by lia.
      apply Z.mod_small. unfold Mipt64.MEMSIZE in Hle. lia. }
    intros Hb He.
    apply assemble_loop64_cons in Hpost as (lab1 & pc2 & stop & s2 & Hstep & Hrest).
    pose proof (assemble_line_inv strtod _ _ _ _ _ _ _ _ Hle Hstep)
      as (Hstop & _ & Hle2 & _ & _ & _ & _ & Hunit).
    rewrite He in Hstop. subst stop.
    destruct (Hunit eq_refl Hb) as (-> & unit & Hstored & Hload).
    exists unit. split; [exact Hstored |].
    assert (Hnext : 0 <= 8 * Z.of_nat k + 8 <= Mipt64.MEMSIZE) by lia.
    pose proof (assemble_loop64_inv strtod _ _ _ _ _ _ _ Hnext Hrest)
      as (_ & _ & Hframe & _).
    rewrite <- Hload. apply load_le_ext.
    intros x Hx. cbn [set_reg64 Mipt64.mem]. apply Hframe. simpl in Hx. lia.
  - intros e line args He Hsplit Hbefore.
    destruct (Hcut e line He Hbefore)
      as (reached & pc1 & s_e & Hpre & Hpost & Hext & Hle & _).
    apply assemble_loop64_cons in Hpost as (lab1 & pc2 & stop & s2 & Hstep & Hrest).
    pose proof (assemble_line_inv strtod _ _ _ _ _ _ _ _ Hle Hstep)
      as (Hstop & _ & _ & _ & _ & _ & Hend & _).
    assert (Hisend : is_end line = true)
      by (unfold is_end; rewrite Hsplit; reflexivity).
    rewrite Hisend in Hstop. subst stop.
    destruct Hrest as [_ ->].
    destruct (Hend eq_refl) as (name & args' & v' & Hs' & Hat & Hpc & _).
    rewrite Hsplit in Hs'. injection Hs' as <- _.
    destruct (label_at_extends _ _ _ _ Hat) as [_ Hval].
    rewrite (Hval v (Hext _ _ Hbound)) in Hpc.
    cbn [set_reg64 Mipt64.regs]. rewrite !upd64_other by lia. exact Hpc.
Qed.

Lemma label_is_eight_below_position_witness :
  exists k : nat,
    follows_declaration
      ["main:"; "svc r0, rz, 100"; "loop:"; "add r0, r0, rz, 0, 1";
       "svc r0, rz, 0"; "end main"]%string
      ["svc r0, rz, 100"; "add r0, r0, rz, 0, 1"; "svc r0, rz, 0"; "end main"]%string
      "loop"%string k
    /\ 0 = w64 (8 * (Z.of_nat k - 1)).
Proof.
  pose (input := ["main:"; "svc r0, rz, 100"; "loop:"; "add r0, r0, rz, 0, 1";
                  "svc r0, rz, 0"; "end main"]%string).
  pose (t := match Asm64.assemble (fun _ => 0) input (start64 []) with
             | Ret _ st => st
             | _ => start64 []
             end).
  destruct (label_is_eight_below_position (fun _ => 0) input (start64 [])
              ["svc r0, rz, 100"; "add r0, r0, rz, 0, 1"; "svc r0, rz, 0"; "end main"]%string
              (<["loop"%string := 0]> (<["main"%string := 2 ^ 64 - 8]> ∅))
              t
              (<["loop"%string := 0]> (<["main"%string := 2 ^ 64 - 8]> ∅))
              "loop"%string 0)
    as (k & Hfollows & Hvalue & _).
  - vm_compute. reflexivity.
  - vm_compute. reflexivity.
  - vm_compute. reflexivity.
  - exists k. split; [exact Hfollows | exact Hvalue].
Defined.
